(** * twitch-command-parser: a shallow embedding and its verified properties

    The model follows the layout of the TypeScript sources:
    - [Js]       the string, Set and Map primitives the code relies on;
    - [Regex]    the fragment of regular expressions used by [settings.ts];
    - [Settings] [settings.ts]: [ParserSettings] and [validSettings];
    - [Errors]   [error.ts]: [ParseError] and [ValidationError];
    - [Parser]   the [CommandParser] class with its scanning loop.

    [Reference], [Samples] and [Shapes] hold the predicates and the inputs
    that the statements use.  The proofs are in [SettingsFacts],
    [StringFacts], [CollectionFacts], [ScanFacts], [SegmentFacts] and
    [ParserFacts], and,
    for what holds of every call, in [SettingsProperties],
    [ErrorProperties], [LoopProperties] and [TokenProperties].

    Strings are sequences of code units.  Every character the parser
    inspects is an ASCII character, and code units are modelled by [ascii]. *)

From Stdlib Require Import Strings.String Strings.Ascii Lists.List.
From Stdlib Require Import Arith.Arith ZArith.ZArith Bool.Bool Lia.
From Stdlib Require Import DecimalString DecimalNat.
Import ListNotations.
Local Open Scope string_scope.

(* ================================================================== *)
(** ** JavaScript primitives *)

Module Js.

(** The characters the parser singles out. *)
Definition space : ascii := " "%char.
Definition dquote : ascii := "034"%char.
Definition tick : ascii := "'"%char.
Definition backslash : ascii := "\"%char.
Definition colon : ascii := ":"%char.

(** One-character strings, handy for building inputs. *)
Definition str (c : ascii) : string := String c EmptyString.

(** [s[k]]: the code unit at index [k], [undefined] ([None]) when [k] is
    negative or not below [s.length]. *)
Definition char_at (s : string) (k : Z) : option ascii :=
  if (k <? 0)%Z then None else String.get (Z.to_nat k) s.

(** [c === s[k]] for a one-character string [c]. *)
Definition same_char (c : ascii) (o : option ascii) : bool :=
  match o with
  | Some d => Ascii.eqb c d
  | None => false
  end.

(** A template literal's rendering of [s[k]]. *)
Definition show_char (o : option ascii) : string :=
  match o with
  | Some d => str d
  | None => "undefined"
  end.

(** [s.substring(a, b)]: both indices are clamped to [s.length] and
    swapped when [a > b]. *)
Definition substring (s : string) (a b : nat) : string :=
  let lo := Nat.min (Nat.min a b) (String.length s) in
  let hi := Nat.min (Nat.max a b) (String.length s) in
  String.substring lo (hi - lo) s.

(** [s.replace(/xy/g, r)] for a two-character literal pattern: every
    match, leftmost first and without overlap, is replaced by [r]. *)
Fixpoint replace_pair (x y : ascii) (r : string) (s : string) : string :=
  match s with
  | EmptyString => EmptyString
  | String a s1 =>
      match s1 with
      | EmptyString => String a EmptyString
      | String b s2 =>
          if Ascii.eqb a x && Ascii.eqb b y
          then r ++ replace_pair x y r s2
          else String a (replace_pair x y r s1)
      end
  end.

(** [Set<string>]: elements in insertion order; [add] of a member is a
    no-op. *)
Definition StrSet := list string.

Definition set_has (x : string) (s : StrSet) : bool :=
  existsb (String.eqb x) s.

Definition set_add (x : string) (s : StrSet) : StrSet :=
  if set_has x s then s else (s ++ [x])%list.

(** [Map<string, string>]: entries in insertion order; [set] on a present
    key overwrites its value in place. *)
Definition StrMap := list (string * string).

Fixpoint map_get (k : string) (m : StrMap) : option string :=
  match m with
  | [] => None
  | (k', v) :: m' => if String.eqb k k' then Some v else map_get k m'
  end.

Fixpoint map_set (k v : string) (m : StrMap) : StrMap :=
  match m with
  | [] => [(k, v)]
  | (k', v') :: m' =>
      if String.eqb k k' then (k, v) :: m' else (k', v') :: map_set k v m'
  end.

Definition map_keys (m : StrMap) : list string := List.map fst m.

End Js.

(* ================================================================== *)
(** ** Regular expressions of [settings.ts] *)

Module Regex.

(** Only what the three patterns need: literals, concatenation,
    alternation and the two anchors.  Groups only capture, so they leave
    no trace here. *)
Inductive regex : Type :=
| Bol                           (* ^ *)
| Eol                           (* $ *)
| Chr (c : ascii)
| Cat (r1 r2 : regex)
| Alt (r1 r2 : regex).

(** [match_here r bol s]: the ways [r] can match at the current position,
    each given by what is left of the input; [bol] tells whether the
    position is the start of the subject. *)
Fixpoint match_here (r : regex) (bol : bool) (s : string)
  : list (bool * string) :=
  match r with
  | Bol => if bol then [(bol, s)] else []
  | Eol => match s with EmptyString => [(bol, s)] | _ => [] end
  | Chr c =>
      match s with
      | String d s' => if Ascii.eqb d c then [(false, s')] else []
      | EmptyString => []
      end
  | Cat r1 r2 =>
      flat_map (fun p => match_here r2 (fst p) (snd p)) (match_here r1 bol s)
  | Alt r1 r2 => match_here r1 bol s ++ match_here r2 bol s
  end.

Definition matches_here (r : regex) (bol : bool) (s : string) : bool :=
  match match_here r bol s with [] => false | _ => true end.

Fixpoint search_from (r : regex) (bol : bool) (s : string) : bool :=
  matches_here r bol s ||
  match s with
  | EmptyString => false
  | String _ s' => search_from r false s'
  end.

(** Truthiness of [s.match(r)] for a pattern without the [g] flag: is
    there a match starting anywhere in [s]. *)
Definition js_match (s : string) (r : regex) : bool := search_from r true s.

End Regex.

(* ================================================================== *)
(** ** settings.ts *)

Module Settings.
Import Js Regex.

Inductive SettingsChecks : Type := minimum | twitch.

Record ParserSettings : Type := {
  prefix : string;
  optionPrefix : string;
  checks : option SettingsChecks;
  forceParse : option bool
}.

(** The pattern built from the string literal of [anyOptionPrefixValidation]:
    three top-level alternatives, the first of which is itself the
    alternation of [^] followed by a double quote with a lone tick. *)
Definition anyOptionPrefixValidation : regex :=
  Alt (Alt (Alt (Cat Bol (Chr dquote)) (Chr tick)) (Cat Bol Eol)) (Chr space).

Definition twitchPrefixValidation : regex :=
  Alt (Cat Bol (Chr space)) (Cat (Chr space) (Chr space)).

Definition twitchOptionPrefixValidation : regex :=
  Alt (Alt (Alt (Cat Bol (Chr dquote)) (Chr tick)) (Cat Bol Eol)) (Chr space).

Definition validSettings (settings : ParserSettings) : bool :=
  let checks := match checks settings with Some c => c | None => minimum end in
  match checks with
  | twitch =>
      if js_match (prefix settings) twitchPrefixValidation then false
      else if js_match (optionPrefix settings) twitchOptionPrefixValidation
           then false
           else true
  | _ =>
      if js_match (optionPrefix settings) anyOptionPrefixValidation then false
      else true
  end.

End Settings.

(* ================================================================== *)
(** ** error.ts *)

Module Errors.

Inductive Error : Type :=
| ParseError (index : nat) (message : string)
| ValidationError (message : string).

(** The text handed to the [Error] constructor. *)
Definition error_message (e : Error) : string :=
  match e with
  | ParseError index message =>
      "parsing error: at index "
        ++ NilEmpty.string_of_uint (Nat.to_uint index) ++ " - " ++ message
  | ValidationError message => message
  end.

Definition error_name (e : Error) : string :=
  match e with
  | ParseError _ _ => "ParseError"
  | ValidationError _ => "ValidationError"
  end.

(** A call either returns or throws. *)
Inductive result (A : Type) : Type :=
| Ok (a : A)
| Throw (e : Error).

Arguments Ok {A} a.
Arguments Throw {A} e.

Definition bind {A B : Type} (r : result A) (k : A -> result B) : result B :=
  match r with
  | Ok a => k a
  | Throw e => Throw e
  end.

End Errors.

(* ================================================================== *)
(** ** The command parser *)

Module Parser.
Import Js Settings Errors.

Record Command : Type := {
  parserSettings : ParserSettings;
  name : string;
  arguments : list string;
  options : StrSet;
  parameters : StrMap;
  source : string;
  passedChecks : bool
}.

Inductive State : Type :=
| Prefix
| Name
| Default
| OptionPrefix
| Option
| ParamConnector
| Param
| LongParam
| EscapeLongParam
| Argument
| LongArgument
| EscapeLongArgument.

(** The local variables of [parse] that live across loop iterations. *)
Record Scan : Type := {
  command : Command;
  bufferStartIndex : nat;
  keyBuffer : string;
  longType : ascii;
  state : State
}.

(** *** Assignments *)

Definition set_name (v : string) (cmd : Command) : Command :=
  {| parserSettings := parserSettings cmd; name := v;
     arguments := arguments cmd; options := options cmd;
     parameters := parameters cmd; source := source cmd;
     passedChecks := passedChecks cmd |}.

Definition push_argument (v : string) (cmd : Command) : Command :=
  {| parserSettings := parserSettings cmd; name := name cmd;
     arguments := (arguments cmd ++ [v])%list; options := options cmd;
     parameters := parameters cmd; source := source cmd;
     passedChecks := passedChecks cmd |}.

Definition add_option (v : string) (cmd : Command) : Command :=
  {| parserSettings := parserSettings cmd; name := name cmd;
     arguments := arguments cmd; options := set_add v (options cmd);
     parameters := parameters cmd; source := source cmd;
     passedChecks := passedChecks cmd |}.

Definition set_parameter (k v : string) (cmd : Command) : Command :=
  {| parserSettings := parserSettings cmd; name := name cmd;
     arguments := arguments cmd; options := options cmd;
     parameters := map_set k v (parameters cmd); source := source cmd;
     passedChecks := passedChecks cmd |}.

Definition with_command (f : Command -> Command) (sc : Scan) : Scan :=
  {| command := f (command sc); bufferStartIndex := bufferStartIndex sc;
     keyBuffer := keyBuffer sc; longType := longType sc; state := state sc |}.

Definition with_key (k : string) (sc : Scan) : Scan :=
  {| command := command sc; bufferStartIndex := bufferStartIndex sc;
     keyBuffer := k; longType := longType sc; state := state sc |}.

Definition with_longType (q : ascii) (sc : Scan) : Scan :=
  {| command := command sc; bufferStartIndex := bufferStartIndex sc;
     keyBuffer := keyBuffer sc; longType := q; state := state sc |}.

Definition with_state (st : State) (sc : Scan) : Scan :=
  {| command := command sc; bufferStartIndex := bufferStartIndex sc;
     keyBuffer := keyBuffer sc; longType := longType sc; state := st |}.

(** [bufferStartIndex = start; state = st]. *)
Definition goto (st : State) (start : nat) (sc : Scan) : Scan :=
  {| command := command sc; bufferStartIndex := start;
     keyBuffer := keyBuffer sc; longType := longType sc; state := st |}.

(** *** Unescaping *)

(** [.replace(longType === dquote ? re_doubletick : re_tick, longType)
     .replace(re_backslash, backslash)] *)
Definition unescape (longType : ascii) (raw : string) : string :=
  replace_pair backslash backslash (str backslash)
    (replace_pair backslash (if Ascii.eqb longType dquote then dquote else tick)
       (str longType) raw).

Definition is_quote (c : ascii) : bool :=
  Ascii.eqb c dquote || Ascii.eqb c tick.

(** *** One iteration of the loop: the [switch] on [state] *)

Definition step (settings : ParserSettings) (source : string)
    (i : nat) (c : ascii) (sc : Scan) : result Scan :=
  let bufferIdx := (Z.of_nat i - Z.of_nat (bufferStartIndex sc))%Z in
  match state sc with
  | Prefix =>
      if same_char c (char_at (prefix settings) bufferIdx) then Ok sc
      else if (bufferIdx <? Z.of_nat (String.length (prefix settings)))%Z then
        Throw (ParseError i
                 ("expected '"
                    ++ show_char (char_at (prefix settings) bufferIdx) ++ "'"))
      else if Ascii.eqb c space then
        Throw (ParseError i "can't have space after prefix")
      else Ok (goto Name i sc)
  | Name =>
      if Ascii.eqb c space then
        Ok (goto Default i
              (with_command
                 (set_name (substring source (bufferStartIndex sc) i)) sc))
      else Ok sc
  | Default =>
      if Ascii.eqb c space then Ok sc
      else if same_char c (char_at (optionPrefix settings) 0) then
        Ok (goto OptionPrefix i sc)
      else if is_quote c then
        Ok (goto LongArgument (i + 1) (with_longType c sc))
      else Ok (goto Argument i sc)
  | OptionPrefix =>
      if same_char c (char_at (optionPrefix settings) bufferIdx) then Ok sc
      else if (bufferIdx <? Z.of_nat (String.length (optionPrefix settings)))%Z
      then Ok (with_state Argument sc)
      else if Ascii.eqb c space then
        Throw (ParseError i "expected option, options can't be empty")
      else Ok (goto Option i sc)
  | Option =>
      if Ascii.eqb c space then
        Ok (goto Default i
              (with_command
                 (add_option (substring source (bufferStartIndex sc) i)) sc))
      else if Ascii.eqb c colon then
        Ok (goto ParamConnector i
              (with_key (substring source (bufferStartIndex sc) i) sc))
      else Ok sc
  | ParamConnector =>
      if Ascii.eqb c space then
        Throw (ParseError i
                 ("parameter value can't be empty (use "
                    ++ str dquote ++ str dquote ++ " instead)"))
      else if is_quote c then
        Ok (goto LongParam (i + 1) (with_longType c sc))
      else Ok (goto Param i sc)
  | Param =>
      if Ascii.eqb c space then
        Ok (goto Default i
              (with_command
                 (set_parameter (keyBuffer sc)
                    (substring source (bufferStartIndex sc) i)) sc))
      else Ok sc
  | LongParam =>
      if Ascii.eqb c (longType sc) then
        Ok (goto Default i
              (with_command
                 (set_parameter (keyBuffer sc)
                    (unescape (longType sc)
                       (substring source (bufferStartIndex sc) i))) sc))
      else if Ascii.eqb c backslash then Ok (with_state EscapeLongParam sc)
      else Ok sc
  | EscapeLongParam =>
      if Ascii.eqb c backslash || Ascii.eqb c (longType sc) then
        Ok (with_state LongParam sc)
      else
        Throw (ParseError i ("couldn't escape with character '" ++ str c ++ "'"))
  | Argument =>
      if Ascii.eqb c space then
        Ok (goto Default i
              (with_command
                 (push_argument (substring source (bufferStartIndex sc) i)) sc))
      else Ok sc
  | LongArgument =>
      if Ascii.eqb c (longType sc) then
        Ok (goto Default i
              (with_command
                 (push_argument
                    (unescape (longType sc)
                       (substring source (bufferStartIndex sc) i))) sc))
      else if Ascii.eqb c backslash then Ok (with_state EscapeLongArgument sc)
      else Ok sc
  | EscapeLongArgument =>
      if Ascii.eqb c backslash || Ascii.eqb c (longType sc) then
        Ok (with_state LongArgument sc)
      else
        Throw (ParseError i ("couldn't escape with character '" ++ str c ++ "'"))
  end.

(** *** The [for] loop

    [for_loop settings source fuel i sc] is the loop entered with the
    counter at [i]: as long as [i < source.length] it reads [c = source[i]],
    runs the [switch] and increments [i]; a thrown error leaves the loop.
    [fuel] bounds the number of iterations, and [source.length] is enough
    from [i = 0]. *)
Fixpoint for_loop (settings : ParserSettings) (source : string)
    (fuel : nat) (i : nat) (sc : Scan) : result Scan :=
  match fuel with
  | 0 => Ok sc
  | S fuel' =>
      match String.get i source with
      | None => Ok sc
      | Some c =>
          match step settings source i c sc with
          | Ok sc' => for_loop settings source fuel' (S i) sc'
          | Throw e => Throw e
          end
      end
  end.

(** The same iterations, told by the characters they read:
    [scan settings source rest i sc] runs the [switch] at the indices [i],
    [i+1], ... on the characters of [rest].  When [rest] is what [source]
    holds from index [i] on, this is the loop ([ScanFacts.for_loop_scan]). *)
Fixpoint scan (settings : ParserSettings) (source rest : string)
    (i : nat) (sc : Scan) : result Scan :=
  match rest with
  | EmptyString => Ok sc
  | String c rest' =>
      match step settings source i c sc with
      | Ok sc' => scan settings source rest' (S i) sc'
      | Throw e => Throw e
      end
  end.

(** *** The class *)

Record CommandParser : Type := { settings : ParserSettings }.

Definition setPrefix (this : CommandParser) (p : string) : CommandParser :=
  {| settings :=
       {| prefix := p; optionPrefix := optionPrefix (settings this);
          checks := checks (settings this);
          forceParse := forceParse (settings this) |} |}.

Definition setOptionPrefix (this : CommandParser) (o : string)
  : CommandParser :=
  {| settings :=
       {| prefix := prefix (settings this); optionPrefix := o;
          checks := checks (settings this);
          forceParse := forceParse (settings this) |} |}.

Definition setChecks (this : CommandParser) (c : SettingsChecks)
  : CommandParser :=
  {| settings :=
       {| prefix := prefix (settings this);
          optionPrefix := optionPrefix (settings this);
          checks := Some c;
          forceParse := forceParse (settings this) |} |}.

Definition validSettings_of (this : CommandParser) : bool :=
  validSettings (settings this).

(** Truthiness of an optional boolean field. *)
Definition truthy (b : option bool) : bool :=
  match b with Some true => true | _ => false end.

(** The settings a call works with: [settings ? settings : this.settings]. *)
Definition used_settings (this : CommandParser)
    (override : option ParserSettings) : ParserSettings :=
  match override with Some s => s | None => settings this end.

Definition initial_command (settings : ParserSettings) (source : string)
    (settingsValidation : bool) : Command :=
  {| parserSettings := settings; name := EmptyString; arguments := [];
     options := []; parameters := []; source := source;
     passedChecks := settingsValidation |}.

Definition initial_scan (cmd : Command) : Scan :=
  {| command := cmd; bufferStartIndex := 0; keyBuffer := EmptyString;
     longType := dquote; state := Prefix |}.

Definition parse (this : CommandParser) (source : string)
    (override : option ParserSettings) : result Command :=
  let settings := used_settings this override in
  let settingsValidation := validSettings settings in
  if negb settingsValidation && negb (truthy (forceParse settings)) then
    Throw (ValidationError "error: validation failed")
  else
    let cmd := initial_command settings source settingsValidation in
    let source := source ++ " " in
    match
      for_loop settings source (String.length source) 0 (initial_scan cmd)
    with
    | Ok sc => Ok (command sc)
    | Throw e => Throw e
    end.

End Parser.

(* ================================================================== *)
(** ** Reference predicates *)

Module Reference.
Import Js Settings.

Definition is_empty (s : string) : bool :=
  match s with EmptyString => true | _ => false end.

Definition starts_with (c : ascii) (s : string) : bool :=
  match s with String d _ => Ascii.eqb d c | EmptyString => false end.

Fixpoint contains (c : ascii) (s : string) : bool :=
  match s with
  | EmptyString => false
  | String d s' => Ascii.eqb d c || contains c s'
  end.

Fixpoint contains_pair (a b : ascii) (s : string) : bool :=
  match s with
  | EmptyString => false
  | String d s' => (Ascii.eqb d a && starts_with b s') || contains_pair a b s'
  end.

(** What the two option-prefix patterns of [settings.ts] accept, read off
    the patterns themselves. *)
Definition optionPrefix_rejected (o : string) : bool :=
  starts_with dquote o || contains tick o || is_empty o || contains space o.

Definition prefix_rejected (p : string) : bool :=
  starts_with space p || contains_pair space space p.

(** The rule as the documentation words it: empty, or starting with a quote
    of either kind, or containing a space. *)
Definition optionPrefix_rejected_doc (o : string) : bool :=
  is_empty o || starts_with dquote o || starts_with tick o || contains space o.

Definition validate_doc (settings : ParserSettings) : bool :=
  match checks settings with
  | Some twitch =>
      negb (prefix_rejected (prefix settings))
      && negb (optionPrefix_rejected_doc (optionPrefix settings))
  | _ => negb (optionPrefix_rejected_doc (optionPrefix settings))
  end.

(** Strings over which a quoted token stays open: no quote of type [q]
    outside an escape, and every backslash followed by a backslash or by
    [q].  [pending] tells whether the character before was an escaping
    backslash. *)
Fixpoint escaped (q : ascii) (pending : bool) (s : string) : bool :=
  match s with
  | EmptyString => negb pending
  | String c s' =>
      if pending then
        (Ascii.eqb c backslash || Ascii.eqb c q) && escaped q false s'
      else if Ascii.eqb c q then false
      else if Ascii.eqb c backslash then escaped q true s'
      else escaped q false s'
  end.

(** Escape by escape decoding, as the README tabulates it: a backslash
    stands for the character that follows it. *)
Fixpoint decode (pending : bool) (s : string) : string :=
  match s with
  | EmptyString => EmptyString
  | String c s' =>
      if pending then String c (decode false s')
      else if Ascii.eqb c backslash then decode true s'
      else String c (decode false s')
  end.

(** The gate at the head of [parse] lets the call through. *)
Definition gate_open (settings : ParserSettings) : bool :=
  validSettings settings || Parser.truthy (forceParse settings).

(** What [parse] returns once the loop is over. *)
Definition finish (r : Errors.result Parser.Scan)
  : Errors.result Parser.Command :=
  match r with
  | Errors.Ok sc => Errors.Ok (Parser.command sc)
  | Errors.Throw e => Errors.Throw e
  end.

(** The loop of [parse] over the first characters [part] of [source], the
    sentinel being in place. *)
Definition scan_upto (settings : ParserSettings) (source part : string)
  : Errors.result Parser.Scan :=
  Parser.scan settings (source ++ " ") part 0
    (Parser.initial_scan
       (Parser.initial_command settings source (validSettings settings))).

(** The loop variables right after the space that closes the name [tok]. *)
Definition named_scan (settings : ParserSettings) (source tok : string)
  : Parser.Scan :=
  Parser.goto Parser.Default
    (String.length (prefix settings) + String.length tok)
    (Parser.with_command (Parser.set_name tok)
       (Parser.initial_scan
          (Parser.initial_command settings source (validSettings settings)))).

(** The states in which the name has been closed. *)
Definition past_name (st : Parser.State) : bool :=
  match st with
  | Parser.Prefix | Parser.Name => false
  | _ => true
  end.

(** Neither collection of a command holds an entry twice. *)
Definition collections_ok (cmd : Parser.Command) : Prop :=
  NoDup (Parser.options cmd) /\ NoDup (map_keys (Parser.parameters cmd)).

(** About to run the iteration at index [i]: an open name has a character
    already, and a closed name is not empty. *)
Definition name_inv (i : nat) (sc : Parser.Scan) : Prop :=
  match Parser.state sc with
  | Parser.Prefix => True
  | Parser.Name => Parser.bufferStartIndex sc < i
  | _ => Parser.name (Parser.command sc) <> EmptyString
  end.

(** The state the loop is in after the first characters [part] of
    [source], when it got that far. *)
Definition state_at (settings : ParserSettings) (source part : string)
  : option Parser.State :=
  match scan_upto settings source part with
  | Errors.Ok sc => Some (Parser.state sc)
  | Errors.Throw _ => None
  end.

End Reference.

(* ================================================================== *)
(** ** Sample settings and inputs *)

Module Samples.
Import Js Settings Parser.

(** The settings of the README: prefix [!], option prefix [-], checks for
    Twitch. *)
Definition readme_settings : ParserSettings :=
  {| prefix := "!"; optionPrefix := "-"; checks := Some twitch;
     forceParse := None |}.

Definition readme_parser : CommandParser := {| settings := readme_settings |}.

Definition plain_settings (p o : string) : ParserSettings :=
  {| prefix := p; optionPrefix := o; checks := None; forceParse := None |}.

Definition blank_command (settings : ParserSettings) (source : string)
  : Command :=
  initial_command settings source true.

(** The loop variables after [!ping -v]: an option name is open. *)
Definition ping_v_open : Scan :=
  {| command := set_name "ping" (blank_command readme_settings "!ping -v");
     bufferStartIndex := 7; keyBuffer := EmptyString; longType := dquote;
     state := Option |}.

(** The loop variables after [!a -x '], a quoted argument just opened. *)
Definition quote_open : Scan :=
  {| command :=
       add_option "x"
         (set_name "a" (blank_command readme_settings "!a -x 'bc d"));
     bufferStartIndex := 7; keyBuffer := EmptyString; longType := tick;
     state := LongArgument |}.

(** A two-character option prefix. *)
Definition dashdash_settings : ParserSettings := plain_settings "!" "--".

Definition dashdash_parser : CommandParser :=
  {| settings := dashdash_settings |}.

(** The loop variables at the end of [!ping], of [!ping -k:v] and of
    [!ping x]: the name, a plain parameter value and a plain argument are
    open. *)
Definition ping_open : Scan :=
  {| command := blank_command readme_settings "!ping";
     bufferStartIndex := 1; keyBuffer := EmptyString; longType := dquote;
     state := Name |}.

Definition ping_kv_open : Scan :=
  {| command := set_name "ping" (blank_command readme_settings "!ping -k:v");
     bufferStartIndex := 9; keyBuffer := "k"; longType := dquote;
     state := Param |}.

Definition ping_x_open : Scan :=
  {| command := set_name "ping" (blank_command readme_settings "!ping x");
     bufferStartIndex := 6; keyBuffer := EmptyString; longType := dquote;
     state := Argument |}.

(** The loop variables of [!say -to:you -to:'it\'s \\'] just before the
    closing tick: the key [to] has a value already and its quoted value is
    open. *)
Definition to_value_open : Scan :=
  {| command :=
       {| parserSettings := readme_settings; name := "say"; arguments := [];
          options := []; parameters := [("to", "you")];
          source := "!say -to:you -to:'it\'s \\'"; passedChecks := true |};
     bufferStartIndex := 18; keyBuffer := "to"; longType := tick;
     state := LongParam |}.

(** The loop variables after [!cmd a ], for the input [!cmd a -x]. *)
Definition cmd_a_closed : Scan :=
  {| command :=
       {| parserSettings := dashdash_settings; name := "cmd";
          arguments := ["a"]; options := []; parameters := [];
          source := "!cmd a -x"; passedChecks := true |};
     bufferStartIndex := 6; keyBuffer := EmptyString; longType := dquote;
     state := Default |}.

(** A tick as the option prefix, which [validSettings] rejects and only a
    forced call works with. *)
Definition tick_settings : ParserSettings :=
  {| prefix := "!"; optionPrefix := "'"; checks := None;
     forceParse := Some true |}.

(** A prefix that ends in a space, as the test suite uses it. *)
Definition do_settings : ParserSettings :=
  {| prefix := "do "; optionPrefix := "-"; checks := Some twitch;
     forceParse := None |}.

Definition do_parser : CommandParser := {| settings := do_settings |}.

(** An option prefix with a space inside, which [validSettings] rejects
    and only a forced call works with. *)
Definition spaced_settings : ParserSettings :=
  {| prefix := "!"; optionPrefix := "- -"; checks := Some twitch;
     forceParse := Some true |}.

(** An option prefix with a tick after its first character. *)
Definition inner_tick_settings (c : option SettingsChecks) : ParserSettings :=
  {| prefix := "!"; optionPrefix := "a'"; checks := c; forceParse := None |}.

End Samples.

(* ================================================================== *)
(** ** Shapes of inputs, of results and of loop variables *)

Module Shapes.
Import Js Settings Errors Parser Reference Samples.

(** *** Errors *)

(** The messages the loop throws with, by the character [c] it has just
    read: one per [throw] of the [switch]. *)
Definition loop_message (settings : ParserSettings) (c : ascii) (m : string)
  : Prop :=
  (exists k e, String.get k (prefix settings) = Some e /\ c <> e
               /\ m = "expected '" ++ str e ++ "'")
  \/ (c = space /\ m = "can't have space after prefix")
  \/ (c = space /\ m = "expected option, options can't be empty")
  \/ (c = space
      /\ m = "parameter value can't be empty (use "
               ++ str dquote ++ str dquote ++ " instead)")
  \/ (c <> backslash
      /\ m = "couldn't escape with character '" ++ str c ++ "'").

(** *** Results *)

Definition map_ok {A B : Type} (f : A -> B) (r : result A) : result B :=
  match r with
  | Ok a => Ok (f a)
  | Throw e => Throw e
  end.

(** The command with the three fields the loop never assigns replaced. *)
Definition retag (s : ParserSettings) (src : string) (v : bool)
    (cmd : Command) : Command :=
  {| parserSettings := s; name := name cmd; arguments := arguments cmd;
     options := options cmd; parameters := parameters cmd; source := src;
     passedChecks := v |}.

(** *** Loop variables *)

Definition no_space (s : string) : Prop := contains space s = false.

(** Once the characters [done] are read: the key buffer, the name, the
    options and the parameter keys hold no space, and an open name or
    option is the spaceless end [w] of [done]. *)
Definition spaceless_inv (done : string) (sc : Scan) : Prop :=
  no_space (keyBuffer sc)
  /\ no_space (name (command sc))
  /\ Forall no_space (options (command sc))
  /\ Forall no_space (map_keys (parameters (command sc)))
  /\ (state sc = Name \/ state sc = Option ->
      exists a w, done = a ++ w
                  /\ String.length a = bufferStartIndex sc
                  /\ no_space w).

(** As long as the loop is in [Prefix] its variables are the initial ones
    and what it has read is a leading part of the prefix. *)
Definition prefix_inv (settings : ParserSettings) (init : Scan)
    (done : string) (sc : Scan) : Prop :=
  state sc = Prefix -> sc = init /\ exists t, prefix settings = done ++ t.

(** How what has been read relates to the prefix and to the name, by
    state. *)
Definition name_shape (settings : ParserSettings) (init : Scan)
    (done : string) (sc : Scan) : Prop :=
  match state sc with
  | Prefix => sc = init /\ exists t, prefix settings = done ++ t
  | Name =>
      name (command sc) = EmptyString
      /\ exists w, done = prefix settings ++ w
                   /\ bufferStartIndex sc = String.length (prefix settings)
                   /\ no_space w
  | _ =>
      exists rest,
        done = prefix settings ++ name (command sc) ++ String space rest
        /\ no_space (name (command sc))
  end.

(** *** Inputs *)

Fixpoint spaces (n : nat) : string :=
  match n with
  | 0 => EmptyString
  | Datatypes.S n' => String space (spaces n')
  end.

(** What can follow the command name: an extra space, a plain argument, a
    quoted argument, an option, a parameter with a plain value and a
    parameter with a quoted value. *)
Inductive Token : Type :=
| Blank
| Word (w : string)
| Quoted (q : ascii) (body : string)
| Flag (o : string)
| Pair (k v : string)
| QuotedPair (k : string) (q : ascii) (body : string).

(** The text of a token, with the space that follows it; [O] is the option
    prefix. *)
Definition render (O : string) (t : Token) : string :=
  match t with
  | Blank => " "
  | Word w => w ++ " "
  | Quoted q body => String q (body ++ String q " ")
  | Flag o => O ++ o ++ " "
  | Pair k v => O ++ k ++ String colon (v ++ " ")
  | QuotedPair k q body =>
      O ++ k ++ String colon (String q (body ++ String q " "))
  end.

Fixpoint render_all (O : string) (ts : list Token) : string :=
  match ts with
  | [] => EmptyString
  | t :: ts' => render O t ++ render_all O ts'
  end.

(** An option name or a parameter key: not empty, no space, and no colon
    after the first character. *)
Definition key_like (k : string) : bool :=
  match k with
  | String a k' =>
      negb (Ascii.eqb a space) && negb (contains space k')
      && negb (contains colon k')
  | EmptyString => false
  end.

(** A plain argument: not empty, no space, and a first character that is
    neither a quote nor the first character of the option prefix. *)
Definition word_like (O : string) (w : string) : bool :=
  match w with
  | String a w' =>
      negb (Ascii.eqb a space) && negb (same_char a (char_at O 0))
      && negb (is_quote a) && negb (contains space w')
  | EmptyString => false
  end.

(** A plain parameter value: not empty, no space, no quote in front. *)
Definition value_like (v : string) : bool :=
  match v with
  | String a v' =>
      negb (Ascii.eqb a space) && negb (is_quote a)
      && negb (contains space v')
  | EmptyString => false
  end.

Definition well_formed (O : string) (t : Token) : bool :=
  match t with
  | Blank => true
  | Word w => word_like O w
  | Quoted q body => is_quote q && escaped q false body
  | Flag o => key_like o
  | Pair k v => key_like k && value_like v
  | QuotedPair k q body => key_like k && is_quote q && escaped q false body
  end.

(** What a token adds to the command. *)
Definition denote (t : Token) (cmd : Command) : Command :=
  match t with
  | Blank => cmd
  | Word w => push_argument w cmd
  | Quoted q body => push_argument (unescape q body) cmd
  | Flag o => add_option o cmd
  | Pair k v => set_parameter k v cmd
  | QuotedPair k q body => set_parameter k (unescape q body) cmd
  end.

Definition denote_all (ts : list Token) (cmd : Command) : Command :=
  fold_left (fun c t => denote t c) ts cmd.

(** The argument a token stands for, if any. *)
Definition argument_of (t : Token) : list string :=
  match t with
  | Word w => [w]
  | Quoted q body => [unescape q body]
  | _ => []
  end.

(** The value of key [k] after token [t], [dflt] being its value before. *)
Definition binding_of (k : string) (t : Token) (dflt : option string)
  : option string :=
  match t with
  | Pair k' v => if String.eqb k k' then Some v else dflt
  | QuotedPair k' q body =>
      if String.eqb k k' then Some (unescape q body) else dflt
  | _ => dflt
  end.

(** The value of key [k] after the tokens [ts]: the one of its last
    occurrence. *)
Fixpoint bound_value (k : string) (ts : list Token) (dflt : option string)
  : option string :=
  match ts with
  | [] => dflt
  | t :: ts' => bound_value k ts' (binding_of k t dflt)
  end.

Definition is_flag (o : string) (t : Token) : bool :=
  match t with
  | Flag o' => String.eqb o o'
  | _ => false
  end.

(** A value made fit for quotes of kind [q], as the README tells users to:
    a backslash before each backslash and each [q]. *)
Fixpoint escape (q : ascii) (v : string) : string :=
  match v with
  | EmptyString => EmptyString
  | String c v' =>
      if Ascii.eqb c backslash || Ascii.eqb c q
      then String backslash (String c (escape q v'))
      else String c (escape q v')
  end.

(** *** Samples *)

Definition sample_tokens : list Token :=
  [Word "x"; Flag "opt"; Blank; Pair "k" "a"; Quoted tick "it\'s";
   Flag "opt"; QuotedPair "k" tick "b c"; Flag ":odd"].

Definition sample_source : string :=
  "!c x -opt  -k:a 'it\'s' -opt -k:'b c' -:odd".

(** What [!ping -v] parses to with the settings of the README. *)
Definition ping_v_command : Command :=
  add_option "v" (set_name "ping" (blank_command readme_settings "!ping -v")).

(** The loop variables after [!a '], for the input [!a 'b\x c']. *)
Definition bad_escape_open : Scan :=
  {| command := set_name "a" (blank_command readme_settings "!a 'b\x c'");
     bufferStartIndex := 4; keyBuffer := EmptyString; longType := tick;
     state := LongArgument |}.

End Shapes.

(* ================================================================== *)
(** ** Facts about the patterns and [validSettings] *)

Module SettingsFacts.
Import Js Regex Settings Reference Samples.

Lemma matches_here_alt (r1 r2 : regex) (b : bool) (s : string) :
  matches_here (Alt r1 r2) b s = matches_here r1 b s || matches_here r2 b s.
Proof.
  unfold matches_here; simpl.
  destruct (match_here r1 b s); simpl; [reflexivity | reflexivity].
Qed.

Lemma search_alt (r1 r2 : regex) (s : string) :
  forall b, search_from (Alt r1 r2) b s
            = search_from r1 b s || search_from r2 b s.
Proof.
  induction s as [|d s IH]; intro b; cbn [search_from].
  - rewrite matches_here_alt, !orb_false_r. reflexivity.
  - rewrite matches_here_alt, IH.
    destruct (matches_here r1 b _), (matches_here r2 b _),
      (search_from r1 false s); reflexivity.
Qed.

Lemma matches_here_chr (c : ascii) (b : bool) (s : string) :
  matches_here (Chr c) b s = starts_with c s.
Proof.
  unfold matches_here; destruct s as [|d s]; simpl; [reflexivity|].
  destruct (Ascii.eqb d c); reflexivity.
Qed.

Lemma search_chr (c : ascii) (s : string) :
  forall b, search_from (Chr c) b s = contains c s.
Proof.
  induction s as [|d s IH]; intro b; cbn [search_from contains].
  - reflexivity.
  - rewrite matches_here_chr, IH. reflexivity.
Qed.

Lemma matches_here_bol (r : regex) (b : bool) (s : string) :
  matches_here (Cat Bol r) b s = b && matches_here r true s.
Proof.
  unfold matches_here; destruct b; simpl; [|reflexivity].
  rewrite app_nil_r. reflexivity.
Qed.

Lemma search_bol_later (r : regex) (s : string) :
  search_from (Cat Bol r) false s = false.
Proof.
  induction s as [|d s IH]; cbn [search_from]; rewrite matches_here_bol;
    simpl; auto.
Qed.

Lemma search_bol (r : regex) (s : string) :
  search_from (Cat Bol r) true s = matches_here r true s.
Proof.
  destruct s as [|d s]; cbn [search_from]; rewrite matches_here_bol;
    cbn [andb].
  - apply orb_false_r.
  - rewrite search_bol_later. apply orb_false_r.
Qed.

Lemma matches_here_eol (b : bool) (s : string) :
  matches_here Eol b s = is_empty s.
Proof. destruct s; reflexivity. Qed.

Lemma matches_here_chr2 (a c : ascii) (b : bool) (s : string) :
  matches_here (Cat (Chr a) (Chr c)) b s
  = match s with
    | String d s' => Ascii.eqb d a && starts_with c s'
    | EmptyString => false
    end.
Proof.
  unfold matches_here; destruct s as [|d s]; simpl; [reflexivity|].
  destruct (Ascii.eqb d a); simpl; [|reflexivity].
  destruct s as [|e s]; simpl; [reflexivity|].
  destruct (Ascii.eqb e c); reflexivity.
Qed.

Lemma search_chr2 (a c : ascii) (s : string) :
  forall b, search_from (Cat (Chr a) (Chr c)) b s = contains_pair a c s.
Proof.
  induction s as [|d s IH]; intro b.
  - reflexivity.
  - cbn [search_from contains_pair]. rewrite matches_here_chr2, IH.
    reflexivity.
Qed.

(** The option-prefix pattern, as a predicate on strings. *)
Lemma anyOptionPrefixValidation_matches (o : string) :
  js_match o anyOptionPrefixValidation = optionPrefix_rejected o.
Proof.
  unfold js_match, anyOptionPrefixValidation, optionPrefix_rejected.
  rewrite !search_alt, !search_bol, !search_chr.
  rewrite matches_here_chr, matches_here_eol. reflexivity.
Qed.

Lemma twitchOptionPrefixValidation_matches (o : string) :
  js_match o twitchOptionPrefixValidation = optionPrefix_rejected o.
Proof. exact (anyOptionPrefixValidation_matches o). Qed.

Lemma twitchPrefixValidation_matches (p : string) :
  js_match p twitchPrefixValidation = prefix_rejected p.
Proof.
  unfold js_match, twitchPrefixValidation, prefix_rejected.
  rewrite search_alt, search_bol, search_chr2, matches_here_chr.
  reflexivity.
Qed.

(** [validSettings] in closed form. *)
Lemma validSettings_closed_form (settings : ParserSettings) :
  validSettings settings
  = match checks settings with
    | Some twitch =>
        negb (prefix_rejected (prefix settings))
        && negb (optionPrefix_rejected (optionPrefix settings))
    | _ => negb (optionPrefix_rejected (optionPrefix settings))
    end.
Proof.
  unfold validSettings.
  rewrite twitchPrefixValidation_matches, twitchOptionPrefixValidation_matches,
    anyOptionPrefixValidation_matches.
  destruct (checks settings) as [[|]|];
    destruct (prefix_rejected (prefix settings)),
      (optionPrefix_rejected (optionPrefix settings)); reflexivity.
Qed.

(** A valid option prefix is non-empty, holds no space and no tick, and
    does not start with a double quote. *)
Lemma valid_optionPrefix (settings : ParserSettings) :
  validSettings settings = true ->
  optionPrefix_rejected (optionPrefix settings) = false.
Proof.
  rewrite validSettings_closed_form.
  destruct (checks settings) as [[|]|];
    destruct (optionPrefix_rejected (optionPrefix settings)); auto;
    rewrite ?andb_false_r; discriminate.
Qed.

(** The code and the documented rule part ways only on a tick after the
    first character of the option prefix. *)
Lemma validSettings_agrees_with_doc (settings : ParserSettings) :
  contains tick (optionPrefix settings)
  = starts_with tick (optionPrefix settings) ->
  validSettings settings = validate_doc settings.
Proof.
  intro H. rewrite validSettings_closed_form. unfold validate_doc.
  assert (E : optionPrefix_rejected (optionPrefix settings)
              = optionPrefix_rejected_doc (optionPrefix settings)).
  { unfold optionPrefix_rejected, optionPrefix_rejected_doc. rewrite H.
    destruct (starts_with dquote _), (starts_with tick _), (is_empty _),
      (contains space _); reflexivity. }
  rewrite E. reflexivity.
Qed.

(** C2 at the input where the code leaves the documented rule.  The option
    prefix made of [a] and a tick is not empty, starts with no quote and
    holds no space, so the documented rule accepts it; [validSettings]
    rejects it under both policies, because the tick alternative of the
    pattern is not anchored. *)
Theorem validSettings_rejects_inner_tick :
  validSettings (inner_tick_settings None) = false
  /\ validSettings (inner_tick_settings (Some minimum)) = false
  /\ validSettings (inner_tick_settings (Some twitch)) = false
  /\ validate_doc (inner_tick_settings None) = true
  /\ validate_doc (inner_tick_settings (Some twitch)) = true.
Proof. repeat split; reflexivity. Qed.

End SettingsFacts.

(* ================================================================== *)
(** ** Facts about strings *)

Module StringFacts.
Import Js Reference.

Lemma str_length_app (a b : string) :
  String.length (a ++ b) = String.length a + String.length b.
Proof. induction a as [|c a IH]; simpl; [reflexivity | now rewrite IH]. Qed.

Lemma str_app_assoc (a b c : string) : (a ++ b) ++ c = a ++ b ++ c.
Proof. induction a as [|d a IH]; simpl; [reflexivity | now rewrite IH]. Qed.

Lemma str_app_nil_r (a : string) : a ++ EmptyString = a.
Proof. induction a as [|d a IH]; simpl; [reflexivity | now rewrite IH]. Qed.

Lemma get_app_here (a : string) (c : ascii) (t : string) :
  String.get (String.length a) (a ++ String c t) = Some c.
Proof. induction a as [|d a IH]; simpl; [reflexivity | exact IH]. Qed.

Lemma get_beyond (a : string) :
  forall n, String.length a <= n -> String.get n a = None.
Proof.
  induction a as [|d a IH]; intros n H; simpl in *.
  - reflexivity.
  - destruct n as [|n]; [lia|]. apply IH. lia.
Qed.

Lemma char_at_here (a : string) (c : ascii) (t : string) (k : Z) :
  k = Z.of_nat (String.length a) -> char_at (a ++ String c t) k = Some c.
Proof.
  intros ->. unfold char_at.
  destruct (Z.ltb_spec (Z.of_nat (String.length a)) 0); [lia|].
  rewrite Nat2Z.id. apply get_app_here.
Qed.

Lemma char_at_beyond (a : string) (k : Z) :
  (Z.of_nat (String.length a) <= k)%Z -> char_at a k = None.
Proof.
  intro H. unfold char_at.
  destruct (Z.ltb_spec k 0); [reflexivity|].
  apply get_beyond. lia.
Qed.

Lemma substring_drop (a : string) (n m : nat) (s : string) :
  String.substring (String.length a + n) m (a ++ s) = String.substring n m s.
Proof. induction a as [|d a IH]; simpl; [reflexivity | exact IH]. Qed.

Lemma substring_take (b c : string) :
  String.substring 0 (String.length b) (b ++ c) = b.
Proof.
  induction b as [|d b IH]; simpl.
  - destruct c; reflexivity.
  - now rewrite IH.
Qed.

(** The slice between two positions of a string cut in three. *)
Lemma substring_mid (a b c : string) :
  Js.substring (a ++ b ++ c) (String.length a)
    (String.length a + String.length b) = b.
Proof.
  unfold Js.substring. rewrite !str_length_app.
  replace (Nat.min (Nat.min _ _) _) with (String.length a + 0) by lia.
  replace (Nat.min (Nat.max _ _) _ - _) with (String.length b) by lia.
  rewrite substring_drop. apply substring_take.
Qed.

Lemma substring_between (src a b c : string) (lo hi : nat) :
  src = a ++ b ++ c ->
  lo = String.length a ->
  hi = String.length a + String.length b ->
  Js.substring src lo hi = b.
Proof. intros -> -> ->. apply substring_mid. Qed.

(** The slice from [lo] to the end of [s] does not see what follows [s]. *)
Lemma substring_sentinel (s t : string) (lo : nat) :
  lo <= String.length s ->
  Js.substring (s ++ t) lo (String.length s)
  = Js.substring s lo (String.length s).
Proof.
  intro H. unfold Js.substring. rewrite str_length_app.
  replace (Nat.min (Nat.min lo (String.length s))
             (String.length s + String.length t)) with lo by lia.
  replace (Nat.min (Nat.max lo (String.length s))
             (String.length s + String.length t)) with (String.length s) by lia.
  replace (Nat.min (Nat.min lo (String.length s)) (String.length s))
    with lo by lia.
  replace (Nat.min (Nat.max lo (String.length s)) (String.length s))
    with (String.length s) by lia.
  revert lo H. induction s as [|d s IH]; intros lo H; simpl in *.
  - replace lo with 0 by lia. simpl. destruct t; reflexivity.
  - destruct lo as [|lo].
    + simpl. f_equal.
      specialize (IH 0 (Nat.le_0_l _)). rewrite Nat.sub_0_r in IH. exact IH.
    + simpl. apply IH. lia.
Qed.

Lemma substring_nonempty (s : string) (lo hi : nat) :
  lo < hi -> hi <= String.length s -> Js.substring s lo hi <> EmptyString.
Proof.
  intros H1 H2. unfold Js.substring.
  replace (Nat.min (Nat.min lo hi) (String.length s)) with lo by lia.
  replace (Nat.min (Nat.max lo hi) (String.length s)) with hi by lia.
  revert lo hi H1 H2. induction s as [|d s IH]; intros lo hi H1 H2; simpl in *.
  - lia.
  - destruct lo as [|lo].
    + destruct hi as [|hi]; [lia|]. simpl. discriminate.
    + destruct hi as [|hi]; [lia|]. simpl.
      replace (S hi - S lo) with (hi - lo) by lia. apply IH; lia.
Qed.

Lemma no_space_app (a b : string) :
  contains space (a ++ b) = contains space a || contains space b.
Proof.
  induction a as [|d a IH]; simpl; [reflexivity|].
  rewrite IH. apply orb_assoc.
Qed.

(** *** The two replacements of the unescaping *)

Lemma replace_pair_cons (x y a : ascii) (r t : string) :
  Ascii.eqb a x = false \/ starts_with y t = false ->
  replace_pair x y r (String a t) = String a (replace_pair x y r t).
Proof.
  intro H. destruct t as [|b t]; simpl; [reflexivity|].
  destruct H as [H|H]; simpl in H; rewrite H, ?andb_false_r; reflexivity.
Qed.

Lemma replace_pair_hit (x y : ascii) (r t : string) :
  replace_pair x y r (String x (String y t)) = r ++ replace_pair x y r t.
Proof. simpl. now rewrite !Ascii.eqb_refl. Qed.

Lemma escaped_no_leading_quote (q : ascii) (s : string) :
  escaped q false s = true -> starts_with q s = false.
Proof.
  destruct s as [|c s]; simpl; [reflexivity|].
  destruct (Ascii.eqb c q); [discriminate | reflexivity].
Qed.

(** On the body of a quoted token the two global replacements, in the
    order of the code, decode it escape by escape. *)
Lemma replacements_decode (q : ascii) :
  Ascii.eqb q backslash = false ->
  forall n s,
    String.length s <= n ->
    escaped q false s = true ->
    replace_pair backslash backslash (str backslash)
      (replace_pair backslash q (str q) s)
    = decode false s.
Proof.
  intros Hq n. induction n as [|n IH]; intros s Hn Hs.
  - destruct s; [reflexivity | simpl in Hn; lia].
  - destruct s as [|c s]; [reflexivity|].
    cbn [escaped] in Hs. cbn [decode].
    destruct (Ascii.eqb c q) eqn:Hcq; [discriminate|].
    destruct (Ascii.eqb c backslash) eqn:Hcb.
    + apply Ascii.eqb_eq in Hcb. subst c.
      destruct s as [|d s]; [discriminate|].
      cbn [escaped] in Hs. apply andb_true_iff in Hs. destruct Hs as [Hd Hs].
      cbn [decode]. simpl in Hn.
      destruct (Ascii.eqb d backslash) eqn:Hdb.
      * apply Ascii.eqb_eq in Hdb. subst d.
        rewrite (replace_pair_cons backslash q backslash)
          by (right; simpl; exact Hcq).
        rewrite (replace_pair_cons backslash q backslash)
          by (right; now apply escaped_no_leading_quote).
        rewrite replace_pair_hit. cbn [str append]. f_equal.
        apply IH; [lia | exact Hs].
      * simpl in Hd. apply Ascii.eqb_eq in Hd. subst d.
        rewrite replace_pair_hit. cbn [str append].
        rewrite (replace_pair_cons backslash backslash q) by (left; exact Hq).
        f_equal. apply IH; [lia | exact Hs].
    + rewrite (replace_pair_cons backslash q c) by (left; exact Hcb).
      rewrite (replace_pair_cons backslash backslash c) by (left; exact Hcb).
      f_equal. apply IH; [simpl in Hn; lia | exact Hs].
Qed.

End StringFacts.

(* ================================================================== *)
(** ** Facts about [Set] and [Map] *)

Module CollectionFacts.
Import Js.

Lemma set_has_In (x : string) (s : StrSet) :
  set_has x s = true <-> In x s.
Proof.
  unfold set_has. rewrite existsb_exists. split.
  - intros (y & Hy & E). apply String.eqb_eq in E. now subst.
  - intro H. exists x. split; [exact H | apply String.eqb_refl].
Qed.

Lemma set_add_NoDup (x : string) (s : StrSet) :
  NoDup s -> NoDup (set_add x s).
Proof.
  intro H. unfold set_add. destruct (set_has x s) eqn:E; [exact H|].
  apply NoDup_app; [exact H | repeat constructor; intros [] | ].
  intros y Hy [<-|[]].
  apply set_has_In in Hy. congruence.
Qed.

Lemma set_add_In (x : string) (s : StrSet) : In x (set_add x s).
Proof.
  unfold set_add. destruct (set_has x s) eqn:E.
  - now apply set_has_In.
  - apply in_or_app. right. now left.
Qed.

Lemma map_set_keys (k v : string) (m : StrMap) :
  map_keys (map_set k v m)
  = if set_has k (map_keys m) then map_keys m else (map_keys m ++ [k])%list.
Proof.
  induction m as [|[k' v'] m IH]; simpl; [reflexivity|].
  destruct (String.eqb_spec k k') as [->|Hne]; simpl.
  - reflexivity.
  - rewrite IH. unfold map_keys.
    destruct (set_has k (List.map fst m)); reflexivity.
Qed.

Lemma map_set_NoDup (k v : string) (m : StrMap) :
  NoDup (map_keys m) -> NoDup (map_keys (map_set k v m)).
Proof.
  intro H. rewrite map_set_keys.
  exact (set_add_NoDup k (map_keys m) H).
Qed.

Lemma map_get_set_same (k v : string) (m : StrMap) :
  map_get k (map_set k v m) = Some v.
Proof.
  induction m as [|[k' v'] m IH]; simpl.
  - now rewrite String.eqb_refl.
  - destruct (String.eqb_spec k k') as [->|Hne]; simpl.
    + now rewrite String.eqb_refl.
    + destruct (String.eqb_spec k k'); [contradiction | exact IH].
Qed.

Lemma map_get_set_other (k k' v : string) (m : StrMap) :
  k' <> k -> map_get k' (map_set k v m) = map_get k' m.
Proof.
  intro Hne. induction m as [|[k0 v0] m IH]; simpl.
  - destruct (String.eqb_spec k' k); [contradiction | reflexivity].
  - destruct (String.eqb_spec k k0) as [->|Hk]; simpl.
    + destruct (String.eqb_spec k' k0); [contradiction | reflexivity].
    + destruct (String.eqb_spec k' k0); [reflexivity | exact IH].
Qed.

End CollectionFacts.

(* ================================================================== *)
(** ** Facts about the loop *)

Module ScanFacts.
Import Js Settings Errors Parser Reference StringFacts CollectionFacts.

Lemma with_state_same (sc : Scan) (st : State) :
  state sc = st -> with_state st sc = sc.
Proof. destruct sc; simpl; intros ->; reflexivity. Qed.

Lemma eqb_space_of_contains (c : ascii) (w : string) :
  contains space (String c w) = false ->
  Ascii.eqb c space = false /\ contains space w = false.
Proof. simpl. apply orb_false_iff. Qed.

(** Case analysis on one iteration that returned [H : step ... = _]. *)
Ltac step_inv H :=
  unfold step in H;
  match type of H with
  | context [match state ?sc with _ => _ end] => destruct (state sc) eqn:?
  end;
  repeat match type of H with
    | context [if ?b then _ else _] => destruct b eqn:?
    end;
  inversion H; subst; clear H.

Section Loop.
Variable cfg : ParserSettings.
Variable src : string.

Lemma scan_app (a b : string) :
  forall i sc,
    scan cfg src (a ++ b) i sc
    = bind (scan cfg src a i sc) (scan cfg src b (i + String.length a)).
Proof.
  induction a as [|c a IH]; intros i sc; simpl.
  - now rewrite Nat.add_0_r.
  - destruct (step cfg src i c sc) as [sc'|e]; simpl; [|reflexivity].
    rewrite IH. now rewrite Nat.add_succ_comm.
Qed.

Lemma scan_one (c : ascii) (i : nat) (sc : Scan) :
  scan cfg src (String c EmptyString) i sc = step cfg src i c sc.
Proof. simpl. destruct (step cfg src i c sc); reflexivity. Qed.

(** Inside a name, a plain argument or a plain parameter value, anything
    but a space is skipped. *)
Lemma scan_stay_unspaced (w : string) :
  contains space w = false ->
  forall i sc,
    state sc = Name \/ state sc = Argument \/ state sc = Param ->
    scan cfg src w i sc = Ok sc.
Proof.
  induction w as [|c w IH]; intros Hw i sc Hst; simpl; [reflexivity|].
  apply eqb_space_of_contains in Hw. destruct Hw as [Hc Hw].
  assert (E : step cfg src i c sc = Ok sc).
  { unfold step. destruct Hst as [H|[H|H]]; rewrite H, Hc; reflexivity. }
  rewrite E. now apply IH.
Qed.

(** Inside an option name, anything but a space and a colon is skipped. *)
Lemma scan_stay_option (w : string) :
  contains space w = false -> contains colon w = false ->
  forall i sc, state sc = Option -> scan cfg src w i sc = Ok sc.
Proof.
  induction w as [|c w IH]; intros Hw Hk i sc Hst; simpl; [reflexivity|].
  apply eqb_space_of_contains in Hw. destruct Hw as [Hc Hw].
  simpl in Hk. apply orb_false_iff in Hk. destruct Hk as [Hk Hk'].
  assert (E : step cfg src i c sc = Ok sc).
  { unfold step. rewrite Hst, Hc, Hk. reflexivity. }
  rewrite E. now apply IH.
Qed.

(** While the input agrees with the prefix, the [Prefix] state stays. *)
Lemma scan_prefix_match (w : string) :
  forall h t i sc,
    state sc = Prefix ->
    prefix cfg = h ++ w ++ t ->
    (Z.of_nat i - Z.of_nat (bufferStartIndex sc))%Z
    = Z.of_nat (String.length h) ->
    scan cfg src w i sc = Ok sc.
Proof.
  induction w as [|c w IH]; intros h t i sc Hst Hp Hi; simpl; [reflexivity|].
  assert (E : step cfg src i c sc = Ok sc).
  { unfold step. rewrite Hst, Hp.
    rewrite (char_at_here h c (w ++ t)) by exact Hi.
    simpl. now rewrite Ascii.eqb_refl. }
  rewrite E. apply (IH (h ++ str c) t); [exact Hst | |].
  - rewrite Hp, str_app_assoc. reflexivity.
  - rewrite str_length_app. change (String.length (str c)) with 1. lia.
Qed.

(** Likewise for the option prefix. *)
Lemma scan_optionPrefix_match (w : string) :
  forall h t i sc,
    state sc = OptionPrefix ->
    optionPrefix cfg = h ++ w ++ t ->
    (Z.of_nat i - Z.of_nat (bufferStartIndex sc))%Z
    = Z.of_nat (String.length h) ->
    scan cfg src w i sc = Ok sc.
Proof.
  induction w as [|c w IH]; intros h t i sc Hst Hp Hi; simpl; [reflexivity|].
  assert (E : step cfg src i c sc = Ok sc).
  { unfold step. rewrite Hst, Hp.
    rewrite (char_at_here h c (w ++ t)) by exact Hi.
    simpl. now rewrite Ascii.eqb_refl. }
  rewrite E. apply (IH (h ++ str c) t); [exact Hst | |].
  - rewrite Hp, str_app_assoc. reflexivity.
  - rewrite str_length_app. change (String.length (str c)) with 1. lia.
Qed.

(** A quoted token stays open over an escaped body. *)
Lemma scan_long_argument_body (w : string) :
  forall pending i sc,
    escaped (longType sc) pending w = true ->
    state sc = (if pending then EscapeLongArgument else LongArgument) ->
    scan cfg src w i sc = Ok (with_state LongArgument sc).
Proof.
  induction w as [|c w IH]; intros pending i sc Hw Hst; simpl in *.
  - destruct pending; [discriminate|]. now rewrite with_state_same.
  - destruct pending.
    + apply andb_true_iff in Hw. destruct Hw as [Hc Hw].
      unfold step. rewrite Hst, Hc.
      rewrite (IH false); [reflexivity | exact Hw | reflexivity].
    + unfold step. rewrite Hst.
      destruct (Ascii.eqb c (longType sc)); [discriminate|].
      destruct (Ascii.eqb c backslash).
      * rewrite (IH true); [reflexivity | exact Hw | reflexivity].
      * now apply (IH false).
Qed.

Lemma scan_long_param_body (w : string) :
  forall pending i sc,
    escaped (longType sc) pending w = true ->
    state sc = (if pending then EscapeLongParam else LongParam) ->
    scan cfg src w i sc = Ok (with_state LongParam sc).
Proof.
  induction w as [|c w IH]; intros pending i sc Hw Hst; simpl in *.
  - destruct pending; [discriminate|]. now rewrite with_state_same.
  - destruct pending.
    + apply andb_true_iff in Hw. destruct Hw as [Hc Hw].
      unfold step. rewrite Hst, Hc.
      rewrite (IH false); [reflexivity | exact Hw | reflexivity].
    + unfold step. rewrite Hst.
      destruct (Ascii.eqb c (longType sc)); [discriminate|].
      destruct (Ascii.eqb c backslash).
      * rewrite (IH true); [reflexivity | exact Hw | reflexivity].
      * now apply (IH false).
Qed.

(** *** Invariants of the loop *)

Lemma step_start_le (i : nat) (c : ascii) (sc sc' : Scan) :
  step cfg src i c sc = Ok sc' ->
  bufferStartIndex sc <= i -> bufferStartIndex sc' <= S i.
Proof. intros H Hle. step_inv H; simpl; lia. Qed.

Lemma scan_start_le (rest : string) :
  forall i sc sc',
    scan cfg src rest i sc = Ok sc' ->
    bufferStartIndex sc <= i ->
    bufferStartIndex sc' <= i + String.length rest.
Proof.
  induction rest as [|c rest IH]; intros i sc sc' H Hle; simpl in *.
  - inversion H; subst. lia.
  - destruct (step cfg src i c sc) as [sc1|e] eqn:E; [|discriminate].
    apply IH in H; [lia|]. eapply step_start_le; eauto.
Qed.

Lemma step_longType_quote (i : nat) (c : ascii) (sc sc' : Scan) :
  step cfg src i c sc = Ok sc' ->
  is_quote (longType sc) = true -> is_quote (longType sc') = true.
Proof. intros H Hq. step_inv H; simpl; assumption. Qed.

Lemma scan_longType_quote (rest : string) :
  forall i sc sc',
    scan cfg src rest i sc = Ok sc' ->
    is_quote (longType sc) = true -> is_quote (longType sc') = true.
Proof.
  induction rest as [|c rest IH]; intros i sc sc' H Hq; simpl in *.
  - now inversion H; subst.
  - destruct (step cfg src i c sc) as [sc1|e] eqn:E; [|discriminate].
    eapply IH; [exact H|]. eapply step_longType_quote; eauto.
Qed.

(** The fields of the command the loop never assigns. *)
Lemma step_frame (i : nat) (c : ascii) (sc sc' : Scan) :
  step cfg src i c sc = Ok sc' ->
  parserSettings (command sc') = parserSettings (command sc)
  /\ source (command sc') = source (command sc)
  /\ passedChecks (command sc') = passedChecks (command sc).
Proof. intros H. step_inv H; simpl; auto. Qed.

Lemma scan_frame (rest : string) :
  forall i sc sc',
    scan cfg src rest i sc = Ok sc' ->
    parserSettings (command sc') = parserSettings (command sc)
    /\ source (command sc') = source (command sc)
    /\ passedChecks (command sc') = passedChecks (command sc).
Proof.
  induction rest as [|c rest IH]; intros i sc sc' H; simpl in *.
  - inversion H; subst. auto.
  - destruct (step cfg src i c sc) as [sc1|e] eqn:E; [|discriminate].
    apply IH in H. apply step_frame in E.
    destruct H as (-> & -> & ->). exact E.
Qed.

(** An error of the loop is a [ParseError] at an index not yet passed. *)
Lemma step_throw (i : nat) (c : ascii) (sc : Scan) (e : Error) :
  step cfg src i c sc = Throw e -> exists m, e = ParseError i m.
Proof. intros H. step_inv H; eexists; reflexivity. Qed.

Lemma scan_throw (rest : string) :
  forall i sc e,
    scan cfg src rest i sc = Throw e ->
    exists j m, e = ParseError j m /\ i <= j < i + String.length rest.
Proof.
  induction rest as [|c rest IH]; intros i sc e H; simpl in *.
  - discriminate.
  - destruct (step cfg src i c sc) as [sc1|e1] eqn:E.
    + apply IH in H. destruct H as (j & m & -> & Hj).
      exists j, m. split; [reflexivity | lia].
    + inversion H; subst. apply step_throw in E. destruct E as [m ->].
      exists i, m. split; [reflexivity | lia].
Qed.

End Loop.

Lemma space_is_no_quote (q : ascii) :
  is_quote q = true ->
  Ascii.eqb space q = false /\ Ascii.eqb q space = false
  /\ Ascii.eqb q backslash = false.
Proof.
  unfold is_quote. intro H. apply orb_true_iff in H.
  destruct H as [H|H]; apply Ascii.eqb_eq in H; subst; auto.
Qed.

(** *** The call as a whole *)

(** The loop reads the characters of its source in order. *)
Lemma for_loop_scan (cfg : ParserSettings) (src rest : string) :
  forall pre sc,
    src = pre ++ rest ->
    for_loop cfg src (String.length rest) (String.length pre) sc
    = scan cfg src rest (String.length pre) sc.
Proof.
  induction rest as [|c rest IH]; intros pre sc Hsrc; [reflexivity|].
  cbn [String.length for_loop scan].
  rewrite Hsrc at 1. rewrite get_app_here.
  destruct (step cfg src (String.length pre) c sc) as [sc'|e];
    [|reflexivity].
  specialize (IH (pre ++ str c) sc').
  rewrite str_length_app, Nat.add_1_r in IH. apply IH.
  rewrite Hsrc, str_app_assoc. reflexivity.
Qed.

Lemma parse_open (this : CommandParser) (src : string)
    (ov : option ParserSettings) :
  gate_open (used_settings this ov) = true ->
  parse this src ov = finish (scan_upto (used_settings this ov) src (src ++ " ")).
Proof.
  unfold gate_open, parse, scan_upto, finish. intro H.
  rewrite (for_loop_scan _ (src ++ " ") (src ++ " ") EmptyString)
    by reflexivity.
  destruct (validSettings (used_settings this ov)); simpl in *;
    [reflexivity|].
  rewrite H. reflexivity.
Qed.

Lemma parse_closed (this : CommandParser) (src : string)
    (ov : option ParserSettings) :
  gate_open (used_settings this ov) = false ->
  parse this src ov = Throw (ValidationError "error: validation failed").
Proof.
  unfold gate_open, parse. intro H. apply orb_false_iff in H.
  destruct H as [-> ->]. reflexivity.
Qed.

(** The whole loop is the loop over the input followed by one iteration
    on the sentinel. *)
Lemma scan_upto_app (cfg : ParserSettings) (src a b : string) :
  scan_upto cfg src (a ++ b)
  = bind (scan_upto cfg src a)
      (scan cfg (src ++ " ") b (String.length a)).
Proof. unfold scan_upto. now rewrite scan_app. Qed.

Lemma parse_end_of_input (this : CommandParser) (src : string)
    (ov : option ParserSettings) (sc : Scan) :
  gate_open (used_settings this ov) = true ->
  scan_upto (used_settings this ov) src src = Ok sc ->
  parse this src ov
  = finish (step (used_settings this ov) (src ++ " ")
              (String.length src) space sc).
Proof.
  intros Hg Hs. rewrite parse_open by exact Hg.
  rewrite scan_upto_app, Hs. simpl.
  destruct (step _ _ _ _ sc); reflexivity.
Qed.

(** The loop leaves its variables alone over a leading part of the
    prefix. *)
Lemma scan_upto_prefix (cfg : ParserSettings) (src h t : string) :
  prefix cfg = h ++ t ->
  scan_upto cfg src h
  = Ok (initial_scan (initial_command cfg src (validSettings cfg))).
Proof.
  intro Hp. unfold scan_upto.
  apply (scan_prefix_match cfg _ h EmptyString t); [reflexivity | exact Hp |].
  reflexivity.
Qed.

(** Once the name is closed, no iteration assigns it again. *)
Lemma step_name_kept (cfg : ParserSettings) (src : string) (i : nat)
    (c : ascii) (sc sc' : Scan) :
  step cfg src i c sc = Ok sc' ->
  past_name (state sc) = true ->
  name (command sc') = name (command sc) /\ past_name (state sc') = true.
Proof.
  intros H Hst. step_inv H; simpl in *; try discriminate; auto;
    match goal with E : state _ = _ |- _ => rewrite E end; auto.
Qed.

Lemma scan_name_kept (cfg : ParserSettings) (src rest : string) :
  forall i sc sc',
    scan cfg src rest i sc = Ok sc' ->
    past_name (state sc) = true ->
    name (command sc') = name (command sc).
Proof.
  induction rest as [|c rest IH]; intros i sc sc' H Hst; simpl in *.
  - now inversion H; subst.
  - destruct (step cfg src i c sc) as [sc1|e] eqn:E; [|discriminate].
    apply step_name_kept in E; [|exact Hst]. destruct E as [E1 E2].
    rewrite <- E1. now apply (IH (S i)).
Qed.

(** From the prefix through the command name and the space closing it. *)
Lemma scan_upto_name (cfg : ParserSettings) (src tok rest : string) :
  tok <> EmptyString ->
  contains space tok = false ->
  src ++ " " = prefix cfg ++ tok ++ String space rest ->
  scan_upto cfg src (prefix cfg ++ tok ++ str space)
  = Ok (named_scan cfg src tok).
Proof.
  intros Hne Hsp Hsrc.
  rewrite scan_upto_app.
  rewrite (scan_upto_prefix cfg src (prefix cfg) EmptyString)
    by (now rewrite str_app_nil_r).
  destruct tok as [|c tok]; [congruence|].
  apply eqb_space_of_contains in Hsp. destruct Hsp as [Hc Hsp].
  cbn [bind append scan].
  assert (E : step cfg (src ++ " ") (String.length (prefix cfg)) c
                (initial_scan (initial_command cfg src (validSettings cfg)))
              = Ok (goto Name (String.length (prefix cfg))
                      (initial_scan
                         (initial_command cfg src (validSettings cfg))))).
  { unfold step. cbn [state initial_scan bufferStartIndex].
    rewrite Z.sub_0_r, char_at_beyond by lia. cbn [same_char].
    rewrite Z.ltb_irrefl, Hc. reflexivity. }
  rewrite E, scan_app.
  rewrite (scan_stay_unspaced cfg _ tok Hsp) by (left; reflexivity).
  cbn [bind]. unfold str. rewrite scan_one. unfold step.
  cbn [state goto bufferStartIndex]. change (Ascii.eqb space space) with true.
  cbv beta iota.
  rewrite (substring_between _ (prefix cfg) (String c tok) (String space rest));
    [ | exact Hsrc | reflexivity | simpl; lia ].
  unfold named_scan. f_equal.
  replace (S (String.length (prefix cfg)) + String.length tok)
    with (String.length (prefix cfg) + String.length (String c tok))
    by (simpl; lia).
  reflexivity.
Qed.

Lemma parse_named (this : CommandParser) (src : string)
    (ov : option ParserSettings) (tok rest : string) :
  gate_open (used_settings this ov) = true ->
  tok <> EmptyString ->
  contains space tok = false ->
  src ++ " " = prefix (used_settings this ov) ++ tok ++ String space rest ->
  parse this src ov
  = finish (scan (used_settings this ov) (src ++ " ") rest
              (String.length (prefix (used_settings this ov))
               + String.length tok + 1)
              (named_scan (used_settings this ov) src tok)).
Proof.
  intros Hg Hne Hsp Hsrc. rewrite parse_open by exact Hg.
  replace (scan_upto (used_settings this ov) src (src ++ " "))
    with (scan_upto (used_settings this ov) src
            ((prefix (used_settings this ov) ++ tok ++ str space) ++ rest)).
  - rewrite scan_upto_app, (scan_upto_name _ _ _ rest) by assumption.
    cbn [bind]. rewrite !str_length_app. cbn [String.length str].
    now rewrite Nat.add_assoc.
  - f_equal. rewrite Hsrc, !str_app_assoc. reflexivity.
Qed.

(** *** What the loop keeps true of the command *)

Lemma step_collections (cfg : ParserSettings) (src : string) (i : nat)
    (c : ascii) (sc sc' : Scan) :
  step cfg src i c sc = Ok sc' ->
  collections_ok (command sc) -> collections_ok (command sc').
Proof.
  intros H [Ho Hp]. step_inv H; split; simpl; auto using set_add_NoDup,
    map_set_NoDup.
Qed.

Lemma scan_collections (cfg : ParserSettings) (src rest : string) :
  forall i sc sc',
    scan cfg src rest i sc = Ok sc' ->
    collections_ok (command sc) -> collections_ok (command sc').
Proof.
  induction rest as [|c rest IH]; intros i sc sc' H Hc; simpl in *.
  - now inversion H; subst.
  - destruct (step cfg src i c sc) as [sc1|e] eqn:E; [|discriminate].
    eapply IH; [exact H|]. eapply step_collections; eauto.
Qed.

Lemma step_arguments (cfg : ParserSettings) (src : string) (i : nat)
    (c : ascii) (sc sc' : Scan) :
  step cfg src i c sc = Ok sc' ->
  exists l, arguments (command sc') = (arguments (command sc) ++ l)%list.
Proof.
  intros H. step_inv H; simpl;
    solve [ exists []; now rewrite app_nil_r | eexists; reflexivity ].
Qed.

Lemma scan_arguments (cfg : ParserSettings) (src rest : string) :
  forall i sc sc',
    scan cfg src rest i sc = Ok sc' ->
    exists l, arguments (command sc') = (arguments (command sc) ++ l)%list.
Proof.
  induction rest as [|c rest IH]; intros i sc sc' H; simpl in *.
  - inversion H; subst. exists []. now rewrite app_nil_r.
  - destruct (step cfg src i c sc) as [sc1|e] eqn:E; [|discriminate].
    apply IH in H. apply step_arguments in E.
    destruct H as [l2 ->]. destruct E as [l1 ->].
    exists (l1 ++ l2)%list. now rewrite app_assoc.
Qed.

Lemma step_name_inv (cfg : ParserSettings) (src : string) (i : nat)
    (c : ascii) (sc sc' : Scan) :
  step cfg src i c sc = Ok sc' ->
  i < String.length src ->
  name_inv i sc -> name_inv (S i) sc'.
Proof.
  unfold name_inv. intros H Hi Hinv.
  step_inv H; simpl in *;
    repeat match goal with E : state _ = _ |- _ => rewrite E in * end;
    auto; try lia.
  apply substring_nonempty; lia.
Qed.

Lemma scan_name_inv (cfg : ParserSettings) (src rest : string) :
  forall i sc sc',
    scan cfg src rest i sc = Ok sc' ->
    i + String.length rest <= String.length src ->
    name_inv i sc -> name_inv (i + String.length rest) sc'.
Proof.
  induction rest as [|c rest IH]; intros i sc sc' H Hi Hinv; simpl in *.
  - inversion H; subst. now rewrite Nat.add_0_r.
  - destruct (step cfg src i c sc) as [sc1|e] eqn:E; [|discriminate].
    replace (i + S (String.length rest)) with (S i + String.length rest)
      by lia.
    apply (IH (S i) sc1); [exact H | lia |].
    eapply step_name_inv; eauto. lia.
Qed.

Lemma step_space_not_name (cfg : ParserSettings) (src : string) (i : nat)
    (sc sc' : Scan) :
  step cfg src i space sc = Ok sc' -> state sc' <> Name.
Proof.
  intros H. step_inv H; simpl;
    repeat match goal with E : state _ = _ |- _ => rewrite E in * end;
    try discriminate.
Qed.

(** *** Tokens *)

Ltac scan_simpl :=
  cbn [state longType bufferStartIndex keyBuffer command goto with_state
         with_longType with_key with_command bind].

Ltac str_eq :=
  unfold str; repeat (rewrite ?str_app_assoc; cbn [append]); reflexivity.
Ltac len_eq :=
  unfold str; rewrite ?str_length_app; cbn [String.length]; lia.

(** The pattern [unescape] picks is the one of the quote in use. *)
Lemma unescape_two_passes (q : ascii) (raw : string) :
  is_quote q = true ->
  unescape q raw
  = replace_pair backslash backslash (str backslash)
      (replace_pair backslash q (str q) raw).
Proof.
  unfold is_quote, unescape. intro H.
  destruct (Ascii.eqb q dquote) eqn:E.
  - apply Ascii.eqb_eq in E. now subst.
  - simpl in H. apply Ascii.eqb_eq in H. now subst.
Qed.

Lemma unescape_decode (q : ascii) (raw : string) :
  is_quote q = true ->
  escaped q false raw = true ->
  unescape q raw = decode false raw.
Proof.
  intros Hq Hr. rewrite unescape_two_passes by exact Hq.
  apply (replacements_decode q) with (n := String.length raw); auto.
  now apply space_is_no_quote.
Qed.

Section Tokens.
Variable cfg : ParserSettings.
Variable src : string.

(** From [Default] over a quoted argument, both quotes included. *)
Lemma scan_quoted_argument (pre body post : string) (q : ascii) (sc : Scan) :
  src = pre ++ String q (body ++ String q post) ->
  state sc = Default ->
  is_quote q = true ->
  same_char q (char_at (optionPrefix cfg) 0) = false ->
  escaped q false body = true ->
  scan cfg src (String q (body ++ str q)) (String.length pre) sc
  = Ok (goto Default (String.length pre + 1 + String.length body)
          (with_command (push_argument (unescape q body))
             (with_longType q sc))).
Proof.
  intros Hsrc Hst Hq Ho Hb.
  destruct (space_is_no_quote q Hq) as (_ & Hqs & _).
  cbn [scan].
  assert (E : step cfg src (String.length pre) q sc
              = Ok (goto LongArgument (String.length pre + 1)
                      (with_longType q sc))).
  { unfold step. rewrite Hst, Hqs, Ho, Hq. reflexivity. }
  rewrite E, scan_app.
  rewrite (scan_long_argument_body cfg src body false)
    by (scan_simpl; first [exact Hb | reflexivity]).
  scan_simpl. unfold str. rewrite scan_one. unfold step. scan_simpl.
  rewrite Ascii.eqb_refl.
  rewrite (substring_between src (pre ++ str q) body (String q post)).
  - unfold goto. scan_simpl. f_equal. f_equal. lia.
  - rewrite Hsrc, str_app_assoc. reflexivity.
  - rewrite str_length_app. reflexivity.
  - rewrite str_length_app. simpl. lia.
Qed.

(** From [ParamConnector] over a quoted value, both quotes included. *)
Lemma scan_quoted_param (pre body post : string) (q : ascii) (sc : Scan) :
  src = pre ++ String q (body ++ String q post) ->
  state sc = ParamConnector ->
  is_quote q = true ->
  escaped q false body = true ->
  scan cfg src (String q (body ++ str q)) (String.length pre) sc
  = Ok (goto Default (String.length pre + 1 + String.length body)
          (with_command (set_parameter (keyBuffer sc) (unescape q body))
             (with_longType q sc))).
Proof.
  intros Hsrc Hst Hq Hb.
  destruct (space_is_no_quote q Hq) as (_ & Hqs & _).
  cbn [scan].
  assert (E : step cfg src (String.length pre) q sc
              = Ok (goto LongParam (String.length pre + 1)
                      (with_longType q sc))).
  { unfold step. rewrite Hst, Hqs, Hq. reflexivity. }
  rewrite E, scan_app.
  rewrite (scan_long_param_body cfg src body false)
    by (scan_simpl; first [exact Hb | reflexivity]).
  scan_simpl. unfold str. rewrite scan_one. unfold step. scan_simpl.
  rewrite Ascii.eqb_refl.
  rewrite (substring_between src (pre ++ str q) body (String q post)).
  - unfold goto. scan_simpl. f_equal. f_equal. lia.
  - rewrite Hsrc, str_app_assoc. reflexivity.
  - rewrite str_length_app. reflexivity.
  - rewrite str_length_app. simpl. lia.
Qed.

End Tokens.

Lemma step_default_space (cfg : ParserSettings) (src : string) (i : nat)
    (sc : Scan) :
  state sc = Default -> step cfg src i space sc = Ok sc.
Proof. intro H. unfold step. rewrite H. reflexivity. Qed.

(** From [Default] over a token that starts like the option prefix and
    then departs from it. *)
Lemma scan_optionPrefix_fallback (cfg : ParserSettings) (src : string)
    (pre o1 o2 w post : string) (e c : ascii) (sc : Scan) :
  src = pre ++ o1 ++ String c (w ++ String space post) ->
  state sc = Default ->
  optionPrefix cfg = o1 ++ String e o2 ->
  o1 <> EmptyString ->
  starts_with space o1 = false ->
  c <> e ->
  contains space w = false ->
  scan cfg src (o1 ++ str c) (String.length pre) sc
  = Ok (goto Argument (String.length pre) sc)
  /\ scan cfg src (o1 ++ String c (w ++ str space)) (String.length pre) sc
     = Ok (goto Default
             (String.length pre + String.length o1 + 1 + String.length w)
             (with_command (push_argument (o1 ++ String c w)) sc)).
Proof.
  intros Hsrc Hst Ho Hne Hsp Hc Hw.
  destruct o1 as [|a o1]; [congruence|]. simpl in Hsp.
  assert (E : step cfg src (String.length pre) a sc
              = Ok (goto OptionPrefix (String.length pre) sc)).
  { unfold step. rewrite Hst, Hsp, Ho.
    cbn [append char_at Z.ltb Z.compare Z.to_nat String.get same_char].
    now rewrite Ascii.eqb_refl. }
  assert (M : scan cfg src o1 (S (String.length pre))
                (goto OptionPrefix (String.length pre) sc)
              = Ok (goto OptionPrefix (String.length pre) sc)).
  { apply (scan_optionPrefix_match cfg src o1 (str a) (String e o2));
      [ reflexivity | exact Ho | scan_simpl; simpl String.length; lia ]. }
  assert (F : step cfg src (S (String.length pre) + String.length o1) c
                (goto OptionPrefix (String.length pre) sc)
              = Ok (goto Argument (String.length pre) sc)).
  { unfold step. scan_simpl. rewrite Ho.
    rewrite (char_at_here (String a o1) e o2)
      by (simpl String.length; lia).
    cbn [same_char]. apply Ascii.eqb_neq in Hc. rewrite Hc.
    destruct (Z.ltb_spec
                (Z.of_nat (S (String.length pre) + String.length o1)
                 - Z.of_nat (String.length pre))
                (Z.of_nat (String.length (String a o1 ++ String e o2))));
      [reflexivity|].
    rewrite str_length_app in *. simpl String.length in *. lia. }
  split.
  - cbn [append scan]. rewrite E, scan_app, M. cbn [bind].
    unfold str. now rewrite scan_one.
  - cbn [append scan]. rewrite E, scan_app, M. cbn [bind scan].
    rewrite F, scan_app.
    rewrite (scan_stay_unspaced cfg src w Hw) by (right; left; reflexivity).
    cbn [bind]. unfold str. rewrite scan_one. unfold step. scan_simpl.
    change (Ascii.eqb space space) with true. cbv beta iota.
    rewrite (substring_between src pre (String a o1 ++ String c w)
               (String space post)).
    + unfold goto. scan_simpl. do 2 f_equal. simpl String.length. lia.
    + rewrite Hsrc. str_eq.
    + reflexivity.
    + len_eq.
Qed.

Lemma scan_upto_start_le (cfg : ParserSettings) (src part : string)
    (sc : Scan) :
  scan_upto cfg src part = Ok sc ->
  bufferStartIndex sc <= String.length part.
Proof.
  unfold scan_upto. intro H. apply scan_start_le in H; simpl in *; lia.
Qed.

Lemma scan_upto_longType (cfg : ParserSettings) (src part : string)
    (sc : Scan) :
  scan_upto cfg src part = Ok sc -> is_quote (longType sc) = true.
Proof.
  unfold scan_upto. intro H. apply scan_longType_quote in H; auto.
Qed.

End ScanFacts.

(* ================================================================== *)
(** ** Tokens that start with the option prefix *)

Module SegmentFacts.
Import Js Settings Errors Parser Reference Samples Shapes.
Import StringFacts CollectionFacts ScanFacts SettingsFacts.

(** An option prefix that the patterns accept is not empty and does not
    start with a space, and no quote is its first character. *)
Lemma accepted_head (O : string) :
  optionPrefix_rejected O = false ->
  O <> EmptyString /\ starts_with space O = false.
Proof.
  unfold optionPrefix_rejected. intro H.
  apply orb_false_iff in H. destruct H as [H Hs].
  apply orb_false_iff in H. destruct H as [_ He].
  destruct O as [|o O]; [discriminate|].
  apply eqb_space_of_contains in Hs. destruct Hs as [Hs _].
  split; [discriminate | exact Hs].
Qed.

Lemma no_leading_quote (cfg : ParserSettings) :
  optionPrefix_rejected (optionPrefix cfg) = false ->
  forall q : ascii,
    is_quote q = true -> same_char q (char_at (optionPrefix cfg) 0) = false.
Proof.
  intros Hv q Hq.
  unfold optionPrefix_rejected in Hv.
  apply orb_false_iff in Hv. destruct Hv as [Hv _].
  apply orb_false_iff in Hv. destruct Hv as [Hv _].
  apply orb_false_iff in Hv. destruct Hv as [Hd Ht].
  destruct (optionPrefix cfg) as [|o O]; [reflexivity|].
  simpl in Hd, Ht. apply orb_false_iff in Ht. destruct Ht as [Ht _].
  cbn [char_at Z.ltb Z.compare Z.to_nat String.get same_char].
  unfold is_quote in Hq. apply orb_true_iff in Hq.
  destruct Hq as [Hq|Hq]; apply Ascii.eqb_eq in Hq; subst q;
    rewrite Ascii.eqb_sym; assumption.
Qed.

Section Segments.
Variable cfg : ParserSettings.
Variable S : string.
Hypothesis HOe : optionPrefix cfg <> EmptyString.
Hypothesis HOs : starts_with space (optionPrefix cfg) = false.

(** From [Default] over the whole option prefix. *)
Lemma scan_optionPrefix_whole (pre : string) (sc : Scan) :
  state sc = Default ->
  scan cfg S (optionPrefix cfg) (String.length pre) sc
  = Ok (goto OptionPrefix (String.length pre) sc).
Proof.
  intros Hst. pose proof HOe as Hoe. pose proof HOs as Hoc.
  destruct (optionPrefix cfg) as [|o O] eqn:EO; [congruence|].
  cbn [starts_with] in Hoc.
  cbn [scan].
  assert (E : step cfg S (String.length pre) o sc
              = Ok (goto OptionPrefix (String.length pre) sc)).
  { unfold step. rewrite Hst, Hoc, EO. cbn [char_at Z.ltb Z.compare Z.to_nat
      String.get same_char]. now rewrite Ascii.eqb_refl. }
  rewrite E.
  apply (scan_optionPrefix_match cfg S O (str o) EmptyString);
    [ reflexivity | rewrite EO, str_app_nil_r; reflexivity
    | scan_simpl; simpl String.length; lia ].
Qed.

(** From [Default] over the option prefix and the first character of what
    it introduces. *)
Lemma scan_option_open (pre post : string) (a : ascii) (sc : Scan) :
  S = pre ++ optionPrefix cfg ++ String a post ->
  state sc = Default ->
  Ascii.eqb a space = false ->
  scan cfg S (optionPrefix cfg ++ str a) (String.length pre) sc
  = Ok (goto Option (String.length (pre ++ optionPrefix cfg)) sc).
Proof.
  intros HS Hst Ha. pose proof HOe as Hoe. pose proof HOs as Hoc.
  destruct (optionPrefix cfg) as [|o O] eqn:EO; [congruence|].
  cbn [starts_with] in Hoc.
  cbn [append scan].
  assert (E : step cfg S (String.length pre) o sc
              = Ok (goto OptionPrefix (String.length pre) sc)).
  { unfold step. rewrite Hst, Hoc, EO. cbn [char_at Z.ltb Z.compare Z.to_nat
      String.get same_char]. now rewrite Ascii.eqb_refl. }
  rewrite E, scan_app.
  rewrite (scan_optionPrefix_match cfg S O (str o) EmptyString);
    [ | reflexivity | rewrite EO, str_app_nil_r; reflexivity
      | scan_simpl; simpl String.length; lia ].
  scan_simpl. unfold str. rewrite scan_one. unfold step. scan_simpl.
  rewrite EO.
  rewrite char_at_beyond by (simpl String.length; lia).
  cbn [same_char].
  destruct (Z.ltb_spec
              (Z.of_nat (Datatypes.S (String.length pre) + String.length O)
               - Z.of_nat (String.length pre))
              (Z.of_nat (String.length (String o O))));
    [simpl String.length in *; lia|].
  rewrite Ha. unfold goto. do 2 f_equal.
  rewrite str_length_app. simpl String.length. lia.
Qed.

Lemma key_like_parts (k : string) :
  key_like k = true ->
  exists a k', k = String a k' /\ Ascii.eqb a space = false
               /\ contains space k' = false /\ contains colon k' = false.
Proof.
  destruct k as [|a k']; simpl; [discriminate|].
  rewrite !andb_true_iff, !negb_true_iff. intros [[H1 H2] H3].
  now exists a, k'.
Qed.

(** From [Default] over a plain argument and the space that ends it. *)
Lemma seg_word (pre w post : string) (sc : Scan) :
  S = pre ++ w ++ String space post ->
  state sc = Default ->
  word_like (optionPrefix cfg) w = true ->
  scan cfg S (w ++ " ") (String.length pre) sc
  = Ok (goto Default (String.length (pre ++ w))
          (with_command (push_argument w) sc)).
Proof.
  intros HS Hst Hw. destruct w as [|a w]; [discriminate|].
  simpl in Hw. rewrite !andb_true_iff, !negb_true_iff in Hw.
  destruct Hw as [[[Ha Ho] Hq] Hw].
  cbn [append scan].
  assert (E : step cfg S (String.length pre) a sc
              = Ok (goto Argument (String.length pre) sc)).
  { unfold step. rewrite Hst, Ha, Ho, Hq. reflexivity. }
  rewrite E, scan_app.
  rewrite (scan_stay_unspaced cfg S w Hw) by (right; left; reflexivity).
  cbn [bind]. change " " with (String space EmptyString).
  rewrite scan_one. unfold step. scan_simpl.
  change (Ascii.eqb space space) with true. cbv beta iota.
  rewrite (substring_between S pre (String a w) (String space post));
    [ | exact HS | reflexivity | simpl String.length; lia ].
  unfold goto. scan_simpl. do 2 f_equal.
  rewrite str_length_app. simpl String.length. lia.
Qed.

(** From [Default] over an option and the space that ends it. *)
Lemma seg_flag (pre o post : string) (sc : Scan) :
  S = pre ++ optionPrefix cfg ++ o ++ String space post ->
  state sc = Default ->
  key_like o = true ->
  scan cfg S (optionPrefix cfg ++ o ++ " ") (String.length pre) sc
  = Ok (goto Default (String.length (pre ++ optionPrefix cfg ++ o))
          (with_command (add_option o) sc)).
Proof.
  intros HS Hst Ho.
  destruct (key_like_parts o Ho) as (a & o' & -> & Ha & Hsp & Hco).
  replace (optionPrefix cfg ++ String a o' ++ " ")
    with ((optionPrefix cfg ++ str a) ++ o' ++ " ") by str_eq.
  rewrite scan_app.
  rewrite (scan_option_open pre (o' ++ String space post)) by
    first [ rewrite HS; str_eq | assumption ].
  cbn [bind]. rewrite scan_app.
  rewrite (scan_stay_option cfg S o' Hsp Hco) by reflexivity.
  cbn [bind]. change " " with (String space EmptyString).
  rewrite scan_one. unfold step. scan_simpl.
  change (Ascii.eqb space space) with true. cbv beta iota.
  rewrite (substring_between S (pre ++ optionPrefix cfg) (String a o')
             (String space post));
    [ | rewrite HS; str_eq | reflexivity | len_eq ].
  unfold goto. scan_simpl. do 2 f_equal. len_eq.
Qed.

(** From [Default] over a parameter key and its colon. *)
Lemma seg_key (pre k post : string) (sc : Scan) :
  S = pre ++ optionPrefix cfg ++ k ++ String colon post ->
  state sc = Default ->
  key_like k = true ->
  scan cfg S (optionPrefix cfg ++ k ++ str colon) (String.length pre) sc
  = Ok (goto ParamConnector (String.length (pre ++ optionPrefix cfg ++ k))
          (with_key k sc)).
Proof.
  intros HS Hst Hk.
  destruct (key_like_parts k Hk) as (a & k' & -> & Ha & Hsp & Hco).
  replace (optionPrefix cfg ++ String a k' ++ str colon)
    with ((optionPrefix cfg ++ str a) ++ k' ++ str colon) by str_eq.
  rewrite scan_app.
  rewrite (scan_option_open pre (k' ++ String colon post)) by
    first [ rewrite HS; str_eq | assumption ].
  cbn [bind]. rewrite scan_app.
  rewrite (scan_stay_option cfg S k' Hsp Hco) by reflexivity.
  cbn [bind]. unfold str. rewrite scan_one. unfold step. scan_simpl.
  change (Ascii.eqb colon space) with false.
  change (Ascii.eqb colon colon) with true. cbv beta iota.
  rewrite (substring_between S (pre ++ optionPrefix cfg) (String a k')
             (String colon post));
    [ | rewrite HS; str_eq | reflexivity | len_eq ].
  unfold goto, with_key. scan_simpl. do 2 f_equal. len_eq.
Qed.

(** From [ParamConnector] over a plain value and the space that ends it. *)
Lemma seg_value (pre v post : string) (sc : Scan) :
  S = pre ++ v ++ String space post ->
  state sc = ParamConnector ->
  value_like v = true ->
  scan cfg S (v ++ " ") (String.length pre) sc
  = Ok (goto Default (String.length (pre ++ v))
          (with_command (set_parameter (keyBuffer sc) v) sc)).
Proof.
  intros HS Hst Hv. destruct v as [|a v]; [discriminate|].
  simpl in Hv. rewrite !andb_true_iff, !negb_true_iff in Hv.
  destruct Hv as [[Ha Hq] Hv].
  cbn [append scan].
  assert (E : step cfg S (String.length pre) a sc
              = Ok (goto Param (String.length pre) sc)).
  { unfold step. rewrite Hst, Ha, Hq. reflexivity. }
  rewrite E, scan_app.
  rewrite (scan_stay_unspaced cfg S v Hv) by (right; right; reflexivity).
  cbn [bind]. change " " with (String space EmptyString).
  rewrite scan_one. unfold step. scan_simpl.
  change (Ascii.eqb space space) with true. cbv beta iota.
  rewrite (substring_between S pre (String a v) (String space post));
    [ | exact HS | reflexivity | simpl String.length; lia ].
  unfold goto. scan_simpl. do 2 f_equal.
  rewrite str_length_app. simpl String.length. lia.
Qed.

End Segments.

(** *** A call with one quoted token after the name *)

(** The name followed by a quoted argument. *)
Lemma parse_quoted_argument (this : CommandParser)
    (ov : option ParserSettings) (nm body : string) (q : ascii) :
  gate_open (used_settings this ov) = true ->
  nm <> EmptyString ->
  contains space nm = false ->
  is_quote q = true ->
  same_char q (char_at (optionPrefix (used_settings this ov)) 0) = false ->
  escaped q false body = true ->
  let src :=
    prefix (used_settings this ov) ++ nm ++ " " ++ str q ++ body ++ str q in
  parse this src ov
  = Ok {| parserSettings := used_settings this ov; name := nm;
          arguments := [unescape q body]; options := []; parameters := [];
          source := src;
          passedChecks := validSettings (used_settings this ov) |}.
Proof.
  intros Hg Hne Hsp Hq Ho Hb src.
  rewrite (parse_named this src ov nm (String q (body ++ str q) ++ " ")
             Hg Hne Hsp) by (unfold src; str_eq).
  rewrite scan_app.
  replace (String.length (prefix (used_settings this ov))
           + String.length nm + 1)
    with (String.length (prefix (used_settings this ov) ++ nm ++ " "))
    by len_eq.
  rewrite (scan_quoted_argument _ _ _ body " ");
    [ | unfold src; str_eq | reflexivity | exact Hq | exact Ho | exact Hb ].
  cbn [bind]. rewrite scan_one, step_default_space by reflexivity.
  reflexivity.
Qed.

(** The name followed by a parameter with a quoted value. *)
Lemma parse_quoted_parameter (this : CommandParser)
    (ov : option ParserSettings) (nm k body : string) (q : ascii) :
  gate_open (used_settings this ov) = true ->
  nm <> EmptyString ->
  contains space nm = false ->
  optionPrefix (used_settings this ov) <> EmptyString ->
  starts_with space (optionPrefix (used_settings this ov)) = false ->
  key_like k = true ->
  is_quote q = true ->
  escaped q false body = true ->
  let src :=
    prefix (used_settings this ov) ++ nm ++ " "
      ++ optionPrefix (used_settings this ov) ++ k ++ ":"
      ++ str q ++ body ++ str q in
  parse this src ov
  = Ok {| parserSettings := used_settings this ov; name := nm;
          arguments := []; options := [];
          parameters := [(k, unescape q body)];
          source := src;
          passedChecks := validSettings (used_settings this ov) |}.
Proof.
  intros Hg Hne Hsp HOe HOs Hk Hq Hb src.
  rewrite (parse_named this src ov nm
             ((optionPrefix (used_settings this ov) ++ k ++ str colon)
                ++ String q (body ++ str q) ++ " ") Hg Hne Hsp)
    by (unfold src; str_eq).
  rewrite scan_app.
  replace (String.length (prefix (used_settings this ov))
           + String.length nm + 1)
    with (String.length (prefix (used_settings this ov) ++ nm ++ " "))
    by len_eq.
  rewrite (seg_key _ _ HOe HOs _ k (String q (body ++ String q " "))) by
    first [ unfold src; str_eq | reflexivity | exact Hk ].
  cbn [bind]. rewrite <- str_length_app, scan_app.
  rewrite (scan_quoted_param _ _ _ body " ") by
    first [ unfold src; str_eq | reflexivity | exact Hq | exact Hb ].
  cbn [bind]. rewrite scan_one, step_default_space by reflexivity.
  reflexivity.
Qed.

End SegmentFacts.

(* ================================================================== *)
(** ** Properties of [parse] *)

Module ParserFacts.
Import Js Settings Errors Parser Reference Samples Shapes.
Import StringFacts CollectionFacts ScanFacts SegmentFacts.

(** *** End of input *)

(** C1, as the code has it.  Let [sc] be the loop variables when the end of
    the input is reached, the sentinel space still to come, and [tok] the
    input from the token start to its end.  A name, option, plain parameter
    value or plain argument that is open is closed by the sentinel and
    recorded: the returned command has [tok] as its name, resp. among its
    options, as the value of the open key, as its last argument, and its
    other fields are those of the command built so far.  An open quoted
    token ([LongArgument], [LongParam]) is dropped and the command built so
    far is returned.  After an escaping backslash ([EscapeLongArgument],
    [EscapeLongParam]) and after a parameter's colon ([ParamConnector]) the
    sentinel raises a [ParseError] at the index of the end of the input.
    In [OptionPrefix] the token is dropped while the option prefix is not
    yet complete, and an error is raised when it is.  In [Prefix] a
    sentinel that is not the next character of the prefix raises an
    error. *)
Theorem end_of_input_behaviour (this : CommandParser) (src : string)
    (ov : option ParserSettings) (sc : Scan) :
  gate_open (used_settings this ov) = true ->
  scan_upto (used_settings this ov) src src = Ok sc ->
  let tok := Js.substring src (bufferStartIndex sc) (String.length src) in
  (state sc = Name ->
   exists cmd,
     parse this src ov = Ok cmd
     /\ name cmd = tok
     /\ arguments cmd = arguments (command sc)
     /\ options cmd = options (command sc)
     /\ parameters cmd = parameters (command sc))
  /\ (state sc = Option ->
      exists cmd,
        parse this src ov = Ok cmd
        /\ In tok (options cmd)
        /\ options cmd = set_add tok (options (command sc))
        /\ name cmd = name (command sc)
        /\ arguments cmd = arguments (command sc)
        /\ parameters cmd = parameters (command sc))
  /\ (state sc = Param ->
      exists cmd,
        parse this src ov = Ok cmd
        /\ map_get (keyBuffer sc) (parameters cmd) = Some tok
        /\ parameters cmd
           = map_set (keyBuffer sc) tok (parameters (command sc))
        /\ name cmd = name (command sc)
        /\ arguments cmd = arguments (command sc)
        /\ options cmd = options (command sc))
  /\ (state sc = Argument ->
      exists cmd,
        parse this src ov = Ok cmd
        /\ arguments cmd = (arguments (command sc) ++ [tok])%list
        /\ name cmd = name (command sc)
        /\ options cmd = options (command sc)
        /\ parameters cmd = parameters (command sc))
  /\ (state sc = Default \/ state sc = LongArgument \/ state sc = LongParam ->
      parse this src ov = Ok (command sc))
  /\ (state sc = EscapeLongArgument \/ state sc = EscapeLongParam ->
      parse this src ov
      = Throw (ParseError (String.length src)
                 "couldn't escape with character ' '"))
  /\ (state sc = ParamConnector ->
      parse this src ov
      = Throw (ParseError (String.length src)
                 ("parameter value can't be empty (use "
                    ++ str dquote ++ str dquote ++ " instead)")))
  /\ (state sc = OptionPrefix ->
      (Z.of_nat (String.length src) - Z.of_nat (bufferStartIndex sc)
       < Z.of_nat (String.length (optionPrefix (used_settings this ov))))%Z ->
      parse this src ov = Ok (command sc))
  /\ (state sc = OptionPrefix ->
      (Z.of_nat (String.length (optionPrefix (used_settings this ov)))
       <= Z.of_nat (String.length src) - Z.of_nat (bufferStartIndex sc))%Z ->
      parse this src ov
      = Throw (ParseError (String.length src)
                 "expected option, options can't be empty"))
  /\ (state sc = Prefix ->
      same_char space
        (char_at (prefix (used_settings this ov))
           (Z.of_nat (String.length src) - Z.of_nat (bufferStartIndex sc)))
      = false ->
      parse this src ov
      = Throw (ParseError (String.length src)
                 (if (Z.of_nat (String.length src)
                      - Z.of_nat (bufferStartIndex sc)
                      <? Z.of_nat (String.length
                                     (prefix (used_settings this ov))))%Z
                  then "expected '"
                         ++ show_char
                              (char_at (prefix (used_settings this ov))
                                 (Z.of_nat (String.length src)
                                  - Z.of_nat (bufferStartIndex sc)))
                         ++ "'"
                  else "can't have space after prefix"))).
Proof.
  intros Hg Hs tok.
  pose proof (parse_end_of_input this src ov sc Hg Hs) as Hp.
  pose proof (scan_upto_start_le _ _ _ _ Hs) as Hle.
  pose proof (space_is_no_quote _ (scan_upto_longType _ _ _ _ Hs))
    as (Hq & _ & _).
  pose proof (substring_sentinel src " " _ Hle) as Hsub.
  fold tok in Hsub.
  repeat match goal with |- _ /\ _ => split end; intros Hst; rewrite Hp;
    unfold step.
  - rewrite Hst. change (Ascii.eqb space space) with true. cbv beta iota.
    rewrite Hsub. eexists. split; [reflexivity|]. repeat split.
  - rewrite Hst. change (Ascii.eqb space space) with true. cbv beta iota.
    rewrite Hsub. eexists. split; [reflexivity|].
    cbn [finish command goto with_command options add_option name arguments
           parameters].
    split; [apply set_add_In | repeat split].
  - rewrite Hst. change (Ascii.eqb space space) with true. cbv beta iota.
    rewrite Hsub. eexists. split; [reflexivity|].
    cbn [finish command goto with_command options set_parameter name
           arguments parameters keyBuffer].
    split; [apply map_get_set_same | repeat split].
  - rewrite Hst. change (Ascii.eqb space space) with true. cbv beta iota.
    rewrite Hsub. eexists. split; [reflexivity|]. repeat split.
  - destruct Hst as [Hst|[Hst|Hst]]; rewrite Hst; cbv beta iota zeta;
      rewrite ?Hq; reflexivity.
  - destruct Hst as [Hst|Hst]; rewrite Hst; cbv beta iota zeta;
      rewrite Hq; reflexivity.
  - rewrite Hst. reflexivity.
  - intro Hlt. rewrite Hst.
    destruct (same_char space _); [reflexivity|].
    destruct (Z.ltb_spec
                (Z.of_nat (String.length src) - Z.of_nat (bufferStartIndex sc))
                (Z.of_nat (String.length (optionPrefix (used_settings this ov)))));
      [reflexivity | lia].
  - intro Hge. rewrite Hst.
    rewrite char_at_beyond by exact Hge. simpl.
    destruct (Z.ltb_spec
                (Z.of_nat (String.length src) - Z.of_nat (bufferStartIndex sc))
                (Z.of_nat (String.length (optionPrefix (used_settings this ov)))));
      [lia | reflexivity].
  - intro Hm. rewrite Hst, Hm.
    destruct (_ <? _)%Z; reflexivity.
Qed.

(** The name of [!ping], the option of [!ping -v], the value of
    [!ping -k:v] and the argument of [!ping x] are open at the end of the
    input, and each is recorded. *)
Lemma end_of_input_behaviour_witness :
  gate_open readme_settings = true
  /\ (scan_upto readme_settings "!ping" "!ping" = Ok ping_open
      /\ state ping_open = Name
      /\ exists cmd,
           parse readme_parser "!ping" None = Ok cmd
           /\ name cmd = "ping"
           /\ arguments cmd = []
           /\ options cmd = []
           /\ parameters cmd = [])
  /\ (scan_upto readme_settings "!ping -v" "!ping -v" = Ok ping_v_open
      /\ state ping_v_open = Option
      /\ exists cmd,
           parse readme_parser "!ping -v" None = Ok cmd
           /\ In "v" (options cmd)
           /\ options cmd = ["v"]
           /\ name cmd = "ping"
           /\ arguments cmd = []
           /\ parameters cmd = [])
  /\ (scan_upto readme_settings "!ping -k:v" "!ping -k:v" = Ok ping_kv_open
      /\ state ping_kv_open = Param
      /\ exists cmd,
           parse readme_parser "!ping -k:v" None = Ok cmd
           /\ map_get "k" (parameters cmd) = Some "v"
           /\ parameters cmd = [("k", "v")]
           /\ name cmd = "ping"
           /\ arguments cmd = []
           /\ options cmd = [])
  /\ (scan_upto readme_settings "!ping x" "!ping x" = Ok ping_x_open
      /\ state ping_x_open = Argument
      /\ exists cmd,
           parse readme_parser "!ping x" None = Ok cmd
           /\ arguments cmd = ["x"]
           /\ name cmd = "ping"
           /\ options cmd = []
           /\ parameters cmd = []).
Proof.
  pose proof (end_of_input_behaviour readme_parser "!ping" None ping_open
                eq_refl eq_refl) as A.
  pose proof (end_of_input_behaviour readme_parser "!ping -v" None
                ping_v_open eq_refl eq_refl) as B.
  pose proof (end_of_input_behaviour readme_parser "!ping -k:v" None
                ping_kv_open eq_refl eq_refl) as C.
  pose proof (end_of_input_behaviour readme_parser "!ping x" None
                ping_x_open eq_refl eq_refl) as D.
  split; [reflexivity|]. split; [|split; [|split]].
  - split; [reflexivity | split; [reflexivity|]].
    exact (proj1 A eq_refl).
  - split; [reflexivity | split; [reflexivity|]].
    exact (proj1 (proj2 B) eq_refl).
  - split; [reflexivity | split; [reflexivity|]].
    exact (proj1 (proj2 (proj2 C)) eq_refl).
  - split; [reflexivity | split; [reflexivity|]].
    exact (proj1 (proj2 (proj2 (proj2 D))) eq_refl).
Defined.

(** C1, as stated, fails: the input [!cmd -key:] ends in [ParamConnector]
    and the sentinel raises an error instead of dropping the token. *)
Lemma end_of_input_after_colon_raises :
  state_at readme_settings "!cmd -key:" "!cmd -key:" = Some ParamConnector
  /\ parse readme_parser "!cmd -key:" None
     = Throw (ParseError 10
                ("parameter value can't be empty (use "
                   ++ str dquote ++ str dquote ++ " instead)")).
Proof. split; reflexivity. Qed.

(** *** Unterminated quoted tokens *)

Lemma scan_upto_long_body (cfg : ParserSettings) (src pre body : string)
    (sc : Scan) :
  scan_upto cfg src pre = Ok sc ->
  state sc = LongArgument \/ state sc = LongParam ->
  escaped (longType sc) false body = true ->
  scan_upto cfg src (pre ++ body) = Ok sc.
Proof.
  intros Hs Hst Hb. rewrite scan_upto_app, Hs. simpl.
  destruct Hst as [Hst|Hst].
  - rewrite (scan_long_argument_body _ _ _ false) by assumption.
    now rewrite with_state_same.
  - rewrite (scan_long_param_body _ _ _ false) by assumption.
    now rewrite with_state_same.
Qed.

(** C7, as the code has it.  Let the first part [pre] of the input leave
    the loop inside a quoted token, and let the rest of the input hold no
    closing quote.  When the rest is made of plain characters and complete
    escapes, [parse] raises no error and returns the command as it was when
    the quoted token was entered.  When the rest ends in an escaping
    backslash, the sentinel space is no valid escape and [parse] raises a
    [ParseError] at the index of the end of the input. *)
Theorem unterminated_quote_at_end (this : CommandParser)
    (ov : option ParserSettings) (pre body : string) (sc : Scan) :
  gate_open (used_settings this ov) = true ->
  state sc = LongArgument \/ state sc = LongParam ->
  escaped (longType sc) false body = true ->
  (scan_upto (used_settings this ov) (pre ++ body) pre = Ok sc ->
   parse this (pre ++ body) ov = Ok (command sc))
  /\ (scan_upto (used_settings this ov) (pre ++ body ++ str backslash) pre
      = Ok sc ->
      parse this (pre ++ body ++ str backslash) ov
      = Throw (ParseError (String.length (pre ++ body ++ str backslash))
                 "couldn't escape with character ' '")).
Proof.
  intros Hg Hst Hb. split; intro Hs.
  - pose proof (space_is_no_quote _ (scan_upto_longType _ _ _ _ Hs))
      as (Hq & _ & _).
    rewrite (parse_end_of_input this _ ov sc Hg)
      by (now apply scan_upto_long_body).
    unfold step.
    destruct Hst as [Hst|Hst]; rewrite Hst; cbv beta iota zeta;
      rewrite Hq; reflexivity.
  - pose proof (space_is_no_quote _ (scan_upto_longType _ _ _ _ Hs))
      as (Hq & _ & Hq').
    rewrite Ascii.eqb_sym in Hq'.
    assert (Hs' : scan_upto (used_settings this ov)
                    (pre ++ body ++ str backslash)
                    (pre ++ body ++ str backslash)
                  = Ok (with_state
                          (match state sc with
                           | LongParam => EscapeLongParam
                           | _ => EscapeLongArgument
                           end) sc)).
    { replace (scan_upto (used_settings this ov)
                 (pre ++ body ++ str backslash) (pre ++ body ++ str backslash))
        with (scan_upto (used_settings this ov)
                (pre ++ body ++ str backslash) ((pre ++ body) ++ str backslash))
        by (now rewrite str_app_assoc).
      rewrite scan_upto_app.
      rewrite (scan_upto_long_body _ _ _ _ sc) by assumption.
      simpl. unfold step.
      destruct Hst as [Hst|Hst]; rewrite Hst; cbv beta iota zeta;
        rewrite Hq'; reflexivity. }
    rewrite (parse_end_of_input this _ ov _ Hg Hs').
    unfold step.
    destruct Hst as [Hst|Hst]; rewrite Hst; cbv beta iota zeta;
      change (longType (with_state _ sc)) with (longType sc);
      rewrite Hq; reflexivity.
Qed.

(** The quoted argument left open in [!a -x 'bc d] is dropped. *)
Lemma unterminated_quote_at_end_witness :
  gate_open readme_settings = true
  /\ (state quote_open = LongArgument \/ state quote_open = LongParam)
  /\ escaped (longType quote_open) false "bc d" = true
  /\ scan_upto readme_settings "!a -x 'bc d" "!a -x '" = Ok quote_open
  /\ parse readme_parser "!a -x 'bc d" None = Ok (command quote_open).
Proof.
  split; [reflexivity|]. split; [left; reflexivity|].
  split; [reflexivity|]. split; [reflexivity|].
  exact (proj1 (unterminated_quote_at_end readme_parser None "!a -x '" "bc d"
                  quote_open eq_refl (or_introl eq_refl) eq_refl) eq_refl).
Defined.

(** C7, as stated, fails: in [!a 'b\] the quoted token is unterminated at
    the end of the input, and [parse] raises an error. *)
Lemma unterminated_quote_after_backslash_raises :
  state_at readme_settings "!a 'b\" "!a 'b\" = Some EscapeLongArgument
  /\ parse readme_parser "!a 'b\" None
     = Throw (ParseError 6 "couldn't escape with character ' '").
Proof. split; reflexivity. Qed.

(** *** The validation gate *)

(** C5.  [parse] throws a [ValidationError] exactly when [validSettings]
    rejects the settings in use and [forceParse] is not true; the error is
    the same whatever the source, so nothing has been scanned.  With
    [forceParse] true the loop runs.  A command that is returned carries the
    verdict of [validSettings] in [passedChecks]: false for rejected
    settings that were forced, true for accepted ones. *)
Theorem validation_gate (this : CommandParser) (src : string)
    (ov : option ParserSettings) :
  ((exists m, parse this src ov = Throw (ValidationError m))
   <-> validSettings (used_settings this ov) = false
       /\ forceParse (used_settings this ov) <> Some true)
  /\ (validSettings (used_settings this ov) = false ->
      forceParse (used_settings this ov) <> Some true ->
      parse this src ov = Throw (ValidationError "error: validation failed"))
  /\ (forceParse (used_settings this ov) = Some true ->
      parse this src ov
      = finish (scan_upto (used_settings this ov) src (src ++ " ")))
  /\ (forall cmd,
        parse this src ov = Ok cmd ->
        passedChecks cmd = validSettings (used_settings this ov)).
Proof.
  assert (Hclosed : validSettings (used_settings this ov) = false ->
                    forceParse (used_settings this ov) <> Some true ->
                    gate_open (used_settings this ov) = false).
  { intros Hv Hf. unfold gate_open. rewrite Hv. simpl.
    destruct (forceParse (used_settings this ov)) as [[|]|];
      [congruence | reflexivity | reflexivity]. }
  split; [split | split; [|split]].
  - intros [m Hm].
    destruct (gate_open (used_settings this ov)) eqn:Hg.
    + rewrite parse_open in Hm by exact Hg.
      unfold scan_upto, finish in Hm.
      destruct (scan _ _ _ _ _) as [sc|e] eqn:E; [discriminate|].
      apply scan_throw in E. destruct E as (j & m' & -> & _). discriminate.
    + unfold gate_open in Hg. apply orb_false_iff in Hg.
      destruct Hg as [Hv Hg]. split; [exact Hv|].
      intro Hf. rewrite Hf in Hg. discriminate.
  - intros [Hv Hf]. eexists. apply parse_closed. now apply Hclosed.
  - intros Hv Hf. apply parse_closed. now apply Hclosed.
  - intro Hf. apply parse_open. unfold gate_open. rewrite Hf.
    apply orb_true_r.
  - intros cmd Hp.
    destruct (gate_open (used_settings this ov)) eqn:Hg.
    + rewrite parse_open in Hp by exact Hg.
      unfold scan_upto, finish in Hp.
      destruct (scan _ _ _ _ _) as [sc|e] eqn:E; [|discriminate].
      inversion Hp; subst. apply scan_frame in E.
      destruct E as (_ & _ & ->). reflexivity.
    + rewrite parse_closed in Hp by exact Hg. discriminate.
Qed.

(** The run of the test suite: settings rejected for Twitch, parsed all the
    same once [forceParse] is set. *)
Example forced_parse_returns :
  validSettings {| prefix := "!"; optionPrefix := "opt ";
                   checks := Some twitch; forceParse := Some true |} = false
  /\ parse {| settings :=
                {| prefix := "!"; optionPrefix := "opt ";
                   checks := Some twitch; forceParse := None |} |}
       "!ping" None
     = Throw (ValidationError "error: validation failed")
  /\ exists cmd,
       parse {| settings :=
                 {| prefix := "!"; optionPrefix := "opt ";
                    checks := Some twitch; forceParse := Some true |} |}
         "!ping" None = Ok cmd
       /\ name cmd = "ping" /\ passedChecks cmd = false.
Proof.
  split; [reflexivity | split; [reflexivity|]].
  eexists. split; [reflexivity | split; reflexivity].
Qed.

(** *** Errors while the prefix is matched *)

(** C4, as the code has it.  While the prefix is matched, a character that
    differs from the expected prefix character, a space included, raises
    [expected '<expected char>'] at its index.  A space found where the
    name should start, the prefix being fully consumed, raises
    [can't have space after prefix] at its index. *)
Theorem prefix_errors (this : CommandParser) (src : string)
    (ov : option ParserSettings) :
  gate_open (used_settings this ov) = true ->
  (forall h e t c rest,
      prefix (used_settings this ov) = h ++ String e t ->
      c <> e ->
      src ++ " " = h ++ String c rest ->
      parse this src ov
      = Throw (ParseError (String.length h) ("expected '" ++ str e ++ "'")))
  /\ (forall rest,
        src ++ " " = prefix (used_settings this ov) ++ String space rest ->
        parse this src ov
        = Throw (ParseError (String.length (prefix (used_settings this ov)))
                   "can't have space after prefix")).
Proof.
  intro Hg. split.
  - intros h e t c rest Hp Hc Hsrc.
    rewrite parse_open by exact Hg.
    rewrite Hsrc, scan_upto_app, (scan_upto_prefix _ _ h (String e t) Hp).
    simpl. unfold step. simpl.
    rewrite Z.sub_0_r, Hp, (char_at_here h e t) by reflexivity.
    simpl. apply Ascii.eqb_neq in Hc. rewrite Hc.
    rewrite str_length_app. simpl.
    destruct (Z.ltb_spec (Z.of_nat (String.length h))
                (Z.of_nat (String.length h + S (String.length t))));
      [reflexivity | lia].
  - intros rest Hsrc.
    rewrite parse_open by exact Hg.
    rewrite Hsrc, scan_upto_app.
    rewrite (scan_upto_prefix _ _ _ EmptyString)
      by (now rewrite str_app_nil_r).
    simpl. unfold step. simpl.
    rewrite Z.sub_0_r, char_at_beyond by lia. simpl.
    rewrite Z.ltb_irrefl. reflexivity.
Qed.

(** With prefix [!], the input [#ping] fails at index 0. *)
Lemma prefix_errors_witness :
  gate_open (used_settings readme_parser None) = true
  /\ prefix (used_settings readme_parser None) = EmptyString ++ String "!" EmptyString
  /\ "#"%char <> "!"%char
  /\ "#ping" ++ " " = EmptyString ++ String "#" "ping "
  /\ parse readme_parser "#ping" None = Throw (ParseError 0 "expected '!'").
Proof.
  assert (Hne : "#"%char <> "!"%char) by discriminate.
  split; [reflexivity|]. split; [reflexivity|]. split; [exact Hne|].
  split; [reflexivity|].
  exact (proj1 (prefix_errors readme_parser "#ping" None eq_refl)
           EmptyString "!"%char EmptyString "#"%char "ping " eq_refl Hne
           eq_refl).
Defined.

(** C4, as stated, fails: a space met before the prefix [!] is consumed is
    reported as a mismatch, not as a space after the prefix. *)
Lemma space_before_prefix_is_a_mismatch :
  parse readme_parser " ping" None = Throw (ParseError 0 "expected '!'").
Proof. reflexivity. Qed.

(** *** The command name *)

(** C9.  For settings that [validSettings] accepts, whatever the prefix [P]
    and the option prefix, [parse] of [P] followed by [name] and a space
    returns a command named [name] with no arguments, no options and no
    parameters. *)
Theorem parse_prefix_name (this : CommandParser)
    (ov : option ParserSettings) :
  validSettings (used_settings this ov) = true ->
  parse this (prefix (used_settings this ov) ++ "name ") ov
  = Ok {| parserSettings := used_settings this ov;
          name := "name";
          arguments := [];
          options := [];
          parameters := [];
          source := prefix (used_settings this ov) ++ "name ";
          passedChecks := true |}.
Proof.
  intro Hv.
  assert (Hg : gate_open (used_settings this ov) = true)
    by (unfold gate_open; now rewrite Hv).
  rewrite (parse_named this _ ov "name" " " Hg);
    [ | discriminate | reflexivity | now rewrite str_app_assoc ].
  cbn [scan]. unfold step, named_scan. cbn [goto state].
  change (Ascii.eqb " " space) with true. cbv beta iota.
  unfold finish, with_command, set_name, initial_scan, initial_command.
  cbn. rewrite Hv. reflexivity.
Qed.

(** The settings of the README are accepted, and [!name ] parses. *)
Lemma parse_prefix_name_witness :
  validSettings (used_settings readme_parser None) = true
  /\ parse readme_parser "!name " None
     = Ok {| parserSettings := readme_settings; name := "name";
             arguments := []; options := []; parameters := [];
             source := "!name "; passedChecks := true |}.
Proof.
  split; [reflexivity|].
  exact (parse_prefix_name readme_parser None eq_refl).
Defined.

(** C10.  The token that follows the prefix is the command name, whatever
    characters other than a space it is made of: quotes, colons and the
    option prefix are not looked at.  When the input ends with it, the
    command holds that name and nothing else.  When a space and more input
    follow, that input is scanned from the [Default] state with only the name
    set, and [parse] either returns a command with that name or raises an
    error at an index past the name.  With prefix [!] and option prefix [-],
    [!-opt arg] is the command [-opt] with the argument [arg], and the input
    made of [!], a double quote, [a b], a double quote and [ c] is the
    command named by the double quote and [a]. *)
Theorem first_token_is_the_name :
  (forall (this : CommandParser) (ov : option ParserSettings) (tok : string),
      gate_open (used_settings this ov) = true ->
      tok <> EmptyString ->
      contains space tok = false ->
      parse this (prefix (used_settings this ov) ++ tok) ov
      = Ok (set_name tok
              (initial_command (used_settings this ov)
                 (prefix (used_settings this ov) ++ tok)
                 (validSettings (used_settings this ov))))
      /\ forall rest,
          let src := prefix (used_settings this ov) ++ tok ++ " " ++ rest in
          parse this src ov
          = finish (scan (used_settings this ov) (src ++ " ") (rest ++ " ")
                      (String.length (prefix (used_settings this ov))
                       + String.length tok + 1)
                      (named_scan (used_settings this ov) src tok))
          /\ ((exists cmd, parse this src ov = Ok cmd /\ name cmd = tok)
              \/ (exists j m,
                    parse this src ov = Throw (ParseError j m)
                    /\ String.length (prefix (used_settings this ov))
                       + String.length tok < j)))
  /\ parse readme_parser "!-opt arg" None
     = Ok {| parserSettings := readme_settings; name := "-opt";
             arguments := ["arg"]; options := []; parameters := [];
             source := "!-opt arg"; passedChecks := true |}
  /\ parse readme_parser ("!" ++ str dquote ++ "a b" ++ str dquote ++ " c")
       None
     = Ok {| parserSettings := readme_settings;
             name := str dquote ++ "a";
             arguments := ["b" ++ str dquote; "c"];
             options := []; parameters := [];
             source := "!" ++ str dquote ++ "a b" ++ str dquote ++ " c";
             passedChecks := true |}.
Proof.
  split; [|split; reflexivity].
  intros this ov tok Hg Hne Hsp. split.
  - rewrite (parse_named this _ ov tok EmptyString Hg Hne Hsp)
      by (now rewrite str_app_assoc).
    reflexivity.
  - intros rest src.
    assert (Hsrc : src ++ " "
                   = prefix (used_settings this ov) ++ tok
                       ++ String space (rest ++ " ")).
    { unfold src. now rewrite !str_app_assoc. }
    pose proof (parse_named this src ov tok _ Hg Hne Hsp Hsrc) as Hp.
    split; [exact Hp|].
    rewrite Hp.
    destruct (scan _ _ _ _ _) as [sc|e] eqn:E; cbn [finish].
    + left. exists (command sc). split; [reflexivity|].
      apply scan_name_kept in E; [|reflexivity]. exact E.
    + right. apply scan_throw in E. destruct E as (j & m & -> & Hj).
      exists j, m. split; [reflexivity | lia].
Qed.

(** The general part at the settings of the README and the token [-opt]. *)
Lemma first_token_is_the_name_witness :
  gate_open (used_settings readme_parser None) = true
  /\ "-opt" <> EmptyString
  /\ contains space "-opt" = false
  /\ parse readme_parser "!-opt" None
     = Ok (set_name "-opt" (initial_command readme_settings "!-opt" true)).
Proof.
  assert (Hne : "-opt" <> EmptyString) by discriminate.
  split; [reflexivity|]. split; [exact Hne|]. split; [reflexivity|].
  exact (proj1 (proj1 first_token_is_the_name readme_parser None "-opt"
                  eq_refl Hne eq_refl)).
Defined.

(** *** Quoted tokens *)

(** C3.  Whenever the loop, in [LongArgument] or [LongParam], reads the
    quote that opened the token, the value it records (as the last
    argument, resp. as the value of the open key) is [value]: the raw slice
    of the input from the token start to that quote, with every
    backslash-quote replaced by the quote and then, in the result, every
    pair of backslashes replaced by one backslash.  For a call that passes
    the gate, whatever the name, the key and the quote kind [q], and for
    every body over which a quoted token stays open (no bare [q], every
    backslash followed by a backslash or by [q]), the input that holds the
    name and the quoted body returns the command with [value] as its only
    argument, provided [q] is not the first character of the option
    prefix; after the option prefix (not empty, no space first), the key
    and a colon it returns the command with the key bound to [value].  On
    these bodies [value] is the escape by escape decoding of the body.  In
    particular a quoted [a], backslash, double quote, [b] gives the
    argument [a], double quote, [b], two backslashes inside quotes give
    one, and the same holds of a quoted parameter value. *)
Theorem quoted_token_unescaping :
  (forall (this : CommandParser) (src : string) (ov : option ParserSettings)
          (pre post : string) (sc : Scan),
      scan_upto (used_settings this ov) src pre = Ok sc ->
      src ++ " " = pre ++ String (longType sc) post ->
      let raw :=
        Js.substring (src ++ " ") (bufferStartIndex sc) (String.length pre) in
      let value :=
        replace_pair backslash backslash (str backslash)
          (replace_pair backslash (longType sc) (str (longType sc)) raw) in
      (state sc = LongArgument ->
       exists sc',
         scan_upto (used_settings this ov) src (pre ++ str (longType sc))
         = Ok sc'
         /\ state sc' = Default
         /\ arguments (command sc') = (arguments (command sc) ++ [value])%list
         /\ options (command sc') = options (command sc)
         /\ parameters (command sc') = parameters (command sc))
      /\ (state sc = LongParam ->
          exists sc',
            scan_upto (used_settings this ov) src (pre ++ str (longType sc))
            = Ok sc'
            /\ state sc' = Default
            /\ map_get (keyBuffer sc) (parameters (command sc')) = Some value
            /\ parameters (command sc')
               = map_set (keyBuffer sc) value (parameters (command sc))
            /\ arguments (command sc') = arguments (command sc)
            /\ options (command sc') = options (command sc)))
  /\ (forall (this : CommandParser) (ov : option ParserSettings)
             (nm k body : string) (q : ascii),
         gate_open (used_settings this ov) = true ->
         nm <> EmptyString ->
         contains space nm = false ->
         is_quote q = true ->
         escaped q false body = true ->
         let value :=
           replace_pair backslash backslash (str backslash)
             (replace_pair backslash q (str q) body) in
         let asArgument :=
           prefix (used_settings this ov) ++ nm ++ " "
             ++ str q ++ body ++ str q in
         let asParameter :=
           prefix (used_settings this ov) ++ nm ++ " "
             ++ optionPrefix (used_settings this ov) ++ k ++ ":"
             ++ str q ++ body ++ str q in
         (same_char q (char_at (optionPrefix (used_settings this ov)) 0)
          = false ->
          parse this asArgument ov
          = Ok {| parserSettings := used_settings this ov; name := nm;
                  arguments := [value]; options := []; parameters := [];
                  source := asArgument;
                  passedChecks := validSettings (used_settings this ov) |})
         /\ (optionPrefix (used_settings this ov) <> EmptyString ->
             starts_with space (optionPrefix (used_settings this ov)) = false ->
             key_like k = true ->
             parse this asParameter ov
             = Ok {| parserSettings := used_settings this ov; name := nm;
                     arguments := []; options := [];
                     parameters := [(k, value)];
                     source := asParameter;
                     passedChecks := validSettings (used_settings this ov) |})
         /\ value = decode false body)
  /\ parse readme_parser
       ("!cmd " ++ str dquote ++ "a\" ++ str dquote ++ "b" ++ str dquote) None
     = Ok {| parserSettings := readme_settings; name := "cmd";
             arguments := ["a" ++ str dquote ++ "b"];
             options := []; parameters := [];
             source := "!cmd " ++ str dquote ++ "a\" ++ str dquote ++ "b"
                         ++ str dquote;
             passedChecks := true |}
  /\ parse readme_parser ("!cmd " ++ str dquote ++ "a\\b" ++ str dquote) None
     = Ok {| parserSettings := readme_settings; name := "cmd";
             arguments := ["a\b"];
             options := []; parameters := [];
             source := "!cmd " ++ str dquote ++ "a\\b" ++ str dquote;
             passedChecks := true |}
  /\ parse readme_parser
       ("!cmd -key:" ++ str dquote ++ "a\" ++ str dquote ++ "b\\"
          ++ str dquote) None
     = Ok {| parserSettings := readme_settings; name := "cmd";
             arguments := []; options := [];
             parameters := [("key", "a" ++ str dquote ++ "b\")];
             source := "!cmd -key:" ++ str dquote ++ "a\" ++ str dquote
                         ++ "b\\" ++ str dquote;
             passedChecks := true |}.
Proof.
  split; [|split; [|split; [reflexivity | split; reflexivity]]].
  - intros this src ov pre post sc Hs Hsrc raw value.
    pose proof (scan_upto_longType _ _ _ _ Hs) as Hq.
    assert (Hval : unescape (longType sc) raw = value)
      by (now apply unescape_two_passes).
    split; intro Hst; eexists;
      (split;
       [ rewrite scan_upto_app, Hs; cbn [bind]; unfold str;
         rewrite scan_one; unfold step; rewrite Hst; cbv beta iota zeta;
         rewrite Ascii.eqb_refl; fold raw; rewrite Hval; reflexivity | ]).
    + repeat split.
    + cbn [command state goto with_command set_parameter parameters
             arguments options keyBuffer].
      split; [reflexivity|]. split; [apply map_get_set_same | repeat split].
  - intros this ov nm k body q Hg Hne Hsp Hq Hb value asArgument asParameter.
    assert (Hval : unescape q body = value)
      by (now apply unescape_two_passes).
    split; [|split].
    + intro Ho. unfold asArgument. rewrite <- Hval.
      now apply parse_quoted_argument.
    + intros HOe HOs Hk. unfold asParameter. rewrite <- Hval.
      now apply parse_quoted_parameter.
    + unfold value.
      apply (replacements_decode q) with (n := String.length body); auto.
      now apply space_is_no_quote.
Qed.

(** The closing tick of the second value of [to], which replaces the
    first, and the calls with one ticked token at the settings of the
    README. *)
Lemma quoted_token_unescaping_witness :
  (scan_upto readme_settings "!say -to:you -to:'it\'s \\'"
     "!say -to:you -to:'it\'s \\" = Ok to_value_open
   /\ "!say -to:you -to:'it\'s \\'" ++ " "
      = "!say -to:you -to:'it\'s \\" ++ String (longType to_value_open) " "
   /\ state to_value_open = LongParam
   /\ exists sc',
        scan_upto readme_settings "!say -to:you -to:'it\'s \\'"
          "!say -to:you -to:'it\'s \\'" = Ok sc'
        /\ state sc' = Default
        /\ map_get "to" (parameters (command sc')) = Some "it's \"
        /\ parameters (command sc') = [("to", "it's \")]
        /\ arguments (command sc') = []
        /\ options (command sc') = [])
  /\ (gate_open (used_settings readme_parser None) = true
      /\ "say" <> EmptyString
      /\ contains space "say" = false
      /\ is_quote tick = true
      /\ escaped tick false "it\'s \\" = true
      /\ same_char tick (char_at "-" 0) = false
      /\ "-" <> EmptyString
      /\ starts_with space "-" = false
      /\ key_like "to" = true
      /\ parse readme_parser "!say 'it\'s \\'" None
         = Ok {| parserSettings := readme_settings; name := "say";
                 arguments := ["it's \"]; options := []; parameters := [];
                 source := "!say 'it\'s \\'"; passedChecks := true |}
      /\ parse readme_parser "!say -to:'it\'s \\'" None
         = Ok {| parserSettings := readme_settings; name := "say";
                 arguments := []; options := [];
                 parameters := [("to", "it's \")];
                 source := "!say -to:'it\'s \\'"; passedChecks := true |}).
Proof.
  assert (Hne : "say" <> EmptyString) by discriminate.
  assert (HOe : "-" <> EmptyString) by discriminate.
  pose proof (proj1 quoted_token_unescaping readme_parser
                "!say -to:you -to:'it\'s \\'" None
                "!say -to:you -to:'it\'s \\" " " to_value_open
                eq_refl eq_refl) as A.
  pose proof (proj1 (proj2 quoted_token_unescaping) readme_parser None
                "say" "to" "it\'s \\" tick eq_refl Hne eq_refl eq_refl
                eq_refl) as B.
  split.
  - split; [reflexivity|]. split; [reflexivity|]. split; [reflexivity|].
    exact (proj2 A eq_refl).
  - split; [reflexivity|]. split; [exact Hne|]. split; [reflexivity|].
    split; [reflexivity|]. split; [reflexivity|]. split; [reflexivity|].
    split; [exact HOe|]. split; [reflexivity|]. split; [reflexivity|].
    split; [exact (proj1 B eq_refl) | exact (proj1 (proj2 B) HOe eq_refl eq_refl)].
Defined.

(** The example of the README. *)
Example readme_example :
  parse readme_parser
    ("!ping " ++ str dquote ++ "a long arg \\\" ++ str dquote ++ " and \"
       ++ str dquote ++ str dquote
       ++ " -some-option -some-option 'buh \'' -key:'value'") None
  = Ok {| parserSettings := readme_settings; name := "ping";
          arguments := ["a long arg \" ++ str dquote ++ " and " ++ str dquote;
                        "buh '"];
          options := ["some-option"];
          parameters := [("key", "value")];
          source :=
            "!ping " ++ str dquote ++ "a long arg \\\" ++ str dquote
              ++ " and \" ++ str dquote ++ str dquote
              ++ " -some-option -some-option 'buh \'' -key:'value'";
          passedChecks := true |}.
Proof. reflexivity. Qed.

(** The first input of the test suite. *)
Example test_suite_example :
  parse {| settings := plain_settings "!" "-" |}
    ("!foo arg1 " ++ str dquote ++ "long arg 2" ++ str dquote
       ++ " -opt -opt -key1:val1 -key2:" ++ str dquote ++ "long val2"
       ++ str dquote) None
  = Ok {| parserSettings := plain_settings "!" "-"; name := "foo";
          arguments := ["arg1"; "long arg 2"]; options := ["opt"];
          parameters := [("key1", "val1"); ("key2", "long val2")];
          source :=
            "!foo arg1 " ++ str dquote ++ "long arg 2" ++ str dquote
              ++ " -opt -opt -key1:val1 -key2:" ++ str dquote ++ "long val2"
              ++ str dquote;
          passedChecks := true |}.
Proof. reflexivity. Qed.

(** *** Falling back from the option prefix *)

(** C8 at the input where the code leaves the claim.  With the option
    prefix [--], which both policies accept, the token [-] of [!cmd - foo]
    departs from the option prefix at the space that follows it.  The loop
    moves to [Argument] and goes on with the next character, so that space
    is never read in [Argument] and does not end the token: the one
    argument [- foo] is recorded, where scanning on in [Argument] from the
    space would end the argument [-] there and make [foo] an argument of
    its own, as the two plain words of [!cmd x foo] are. *)
Theorem optionPrefix_fallback_skips_the_space :
  validSettings dashdash_settings = true
  /\ validSettings (settings (setChecks dashdash_parser twitch)) = true
  /\ state_at dashdash_settings "!cmd - foo" "!cmd -" = Some OptionPrefix
  /\ state_at dashdash_settings "!cmd - foo" "!cmd - " = Some Argument
  /\ parse dashdash_parser "!cmd - foo" None
     = Ok {| parserSettings := dashdash_settings; name := "cmd";
             arguments := ["- foo"]; options := []; parameters := [];
             source := "!cmd - foo"; passedChecks := true |}
  /\ parse dashdash_parser "!cmd x foo" None
     = Ok {| parserSettings := dashdash_settings; name := "cmd";
             arguments := ["x"; "foo"]; options := []; parameters := [];
             source := "!cmd x foo"; passedChecks := true |}.
Proof. repeat split; reflexivity. Qed.

Example optionPrefix_fallback_example :
  parse dashdash_parser "!cmd -x foo --y" None
  = Ok {| parserSettings := dashdash_settings; name := "cmd";
          arguments := ["-x"; "foo"]; options := ["y"]; parameters := [];
          source := "!cmd -x foo --y"; passedChecks := true |}.
Proof. reflexivity. Qed.

(** *** The returned command *)

(** A returned command holds no option twice and no parameter key twice,
    and its name is not empty unless the loop ended in [Prefix]. *)
Lemma parse_invariants (this : CommandParser) (src : string)
    (ov : option ParserSettings) (cmd : Command) :
  parse this src ov = Ok cmd ->
  NoDup (options cmd)
  /\ NoDup (map_keys (parameters cmd))
  /\ (name cmd <> EmptyString
      \/ state_at (used_settings this ov) src (src ++ " ") = Some Prefix).
Proof.
  intro Hp.
  destruct (gate_open (used_settings this ov)) eqn:Hg;
    [|rewrite parse_closed in Hp by exact Hg; discriminate].
  rewrite parse_open in Hp by exact Hg.
  unfold state_at.
  destruct (scan_upto (used_settings this ov) src (src ++ " ")) as [sc|e]
    eqn:E; [|discriminate].
  inversion Hp; subst cmd. clear Hp.
  assert (Hc : collections_ok (command sc)).
  { unfold scan_upto in E. apply scan_collections in E; [exact E|].
    split; constructor. }
  destruct Hc as [Ho Hk]. split; [exact Ho | split; [exact Hk|]].
  pose proof E as E'. rewrite scan_upto_app in E'.
  destruct (scan_upto (used_settings this ov) src src) as [sc0|e0] eqn:E0;
    [|discriminate].
  cbn [bind] in E'. unfold str in E'. 
  assert (Hlast : step (used_settings this ov) (src ++ " ")
                    (String.length src) space sc0 = Ok sc).
  { change (" ") with (String space EmptyString) in E' at 2.
    rewrite scan_one in E'. exact E'. }
  assert (Hinv : name_inv (String.length src + 1) sc).
  { rewrite Nat.add_1_r. eapply step_name_inv; [exact Hlast | |].
    - rewrite str_length_app. simpl. lia.
    - unfold scan_upto in E0. apply scan_name_inv in E0.
      + exact E0.
      + rewrite str_length_app. simpl. lia.
      + exact I. }
  apply step_space_not_name in Hlast.
  unfold name_inv in Hinv.
  destruct (state sc); auto; contradiction.
Qed.

Lemma parse_arguments_in_order (this : CommandParser) (src : string)
    (ov : option ParserSettings) (pre : string) (sc : Scan) (cmd : Command) :
  scan_upto (used_settings this ov) src pre = Ok sc ->
  (exists post, src ++ " " = pre ++ post) ->
  parse this src ov = Ok cmd ->
  exists later, arguments cmd = (arguments (command sc) ++ later)%list.
Proof.
  intros Hs [post Hsrc] Hp.
  destruct (gate_open (used_settings this ov)) eqn:Hg;
    [|rewrite parse_closed in Hp by exact Hg; discriminate].
  rewrite parse_open in Hp by exact Hg.
  rewrite Hsrc, scan_upto_app, Hs in Hp. cbn [bind] in Hp.
  destruct (scan _ _ post _ sc) as [sc'|e] eqn:E; [|discriminate].
  inversion Hp; subst cmd. now apply scan_arguments in E.
Qed.

(** Repeated options collapse, the last value of a repeated key wins, and
    arguments keep their order and their repetitions. *)
Example repeated_tokens :
  parse readme_parser "!c x -opt -k:a y -opt -j:1 -k:'b c' x" None
  = Ok {| parserSettings := readme_settings; name := "c";
          arguments := ["x"; "y"; "x"]; options := ["opt"];
          parameters := [("k", "b c"); ("j", "1")];
          source := "!c x -opt -k:a y -opt -j:1 -k:'b c' x";
          passedChecks := true |}.
Proof. reflexivity. Qed.

(** *** The command name can stay empty *)

(** C6 at the input where the code leaves the claim.  With the prefix [do]
    followed by a space, which both policies accept, the input [do] is
    matched against the prefix to its end, the sentinel space included, and
    the loop ends in [Prefix]: a command with an empty name is returned
    where an error is due. *)
Theorem parse_returns_empty_name :
  validSettings do_settings = true
  /\ state_at do_settings "do" ("do" ++ " ") = Some Prefix
  /\ parse do_parser "do" None
     = Ok {| parserSettings := do_settings; name := EmptyString;
             arguments := []; options := []; parameters := [];
             source := "do"; passedChecks := true |}.
Proof. repeat split; reflexivity. Qed.

End ParserFacts.

(* ================================================================== *)
(** ** [validSettings] as a rule on strings *)

Module SettingsProperties.
Import Js Regex Settings Errors Parser Reference Samples Shapes.
Import StringFacts SettingsFacts.

Lemma starts_with_iff (c : ascii) (s : string) :
  starts_with c s = true <-> exists t, s = String c t.
Proof.
  destruct s as [|d s]; simpl.
  - split; [discriminate | intros [t H]; discriminate].
  - rewrite Ascii.eqb_eq. split.
    + intros ->. now exists s.
    + intros [t H]. now inversion H.
Qed.

Lemma contains_iff (c : ascii) (s : string) :
  contains c s = true <-> exists a b, s = a ++ String c b.
Proof.
  induction s as [|d s IH]; simpl.
  - split; [discriminate|]. intros ([|x a] & b & H); discriminate.
  - rewrite orb_true_iff, Ascii.eqb_eq, IH. split.
    + intros [->|(a & b & ->)].
      * now exists EmptyString, s.
      * now exists (String d a), b.
    + intros ([|x a] & b & H); simpl in H; inversion H; subst.
      * now left.
      * right. now exists a, b.
Qed.

Lemma contains_pair_iff (x y : ascii) (s : string) :
  contains_pair x y s = true <-> exists a b, s = a ++ String x (String y b).
Proof.
  induction s as [|d s IH]; simpl.
  - split; [discriminate|]. intros ([|z a] & b & H); discriminate.
  - rewrite orb_true_iff, andb_true_iff, Ascii.eqb_eq, starts_with_iff, IH.
    split.
    + intros [[-> [t ->]]|(a & b & ->)].
      * now exists EmptyString, t.
      * now exists (String d a), b.
    + intros ([|z a] & b & H); simpl in H; inversion H; subst.
      * left. split; [reflexivity | now exists b].
      * right. now exists a, b.
Qed.

Lemma is_empty_iff (s : string) : is_empty s = true <-> s = EmptyString.
Proof. destruct s; simpl; split; congruence. Qed.

(** X1.  [validSettings] rejects settings exactly when, under the twitch
    policy, the prefix starts with a space or holds two spaces in a row, or
    when, under either policy, the option prefix is empty, starts with a
    double quote, holds a tick anywhere or holds a space anywhere. *)
Theorem validSettings_false_iff (cfg : ParserSettings) :
  validSettings cfg = false
  <-> (checks cfg = Some twitch
       /\ ((exists t, prefix cfg = String space t)
           \/ (exists a b, prefix cfg = a ++ String space (String space b))))
      \/ optionPrefix cfg = EmptyString
      \/ (exists t, optionPrefix cfg = String dquote t)
      \/ (exists a b, optionPrefix cfg = a ++ String tick b)
      \/ (exists a b, optionPrefix cfg = a ++ String space b).
Proof.
  rewrite validSettings_closed_form.
  rewrite <- (is_empty_iff (optionPrefix cfg)),
    <- (starts_with_iff dquote (optionPrefix cfg)),
    <- (contains_iff tick (optionPrefix cfg)),
    <- (contains_iff space (optionPrefix cfg)),
    <- (starts_with_iff space (prefix cfg)),
    <- (contains_pair_iff space space (prefix cfg)).
  unfold optionPrefix_rejected, prefix_rejected.
  destruct (checks cfg) as [[|]|];
    destruct (starts_with space (prefix cfg)),
      (contains_pair space space (prefix cfg)),
      (starts_with dquote (optionPrefix cfg)),
      (contains tick (optionPrefix cfg)),
      (is_empty (optionPrefix cfg)),
      (contains space (optionPrefix cfg)); simpl;
    (split; [ intro H; try discriminate H; tauto
            | intro H; try reflexivity;
              repeat match goal with
                | H : _ /\ _ |- _ => destruct H
                | H : _ \/ _ |- _ => destruct H
                end; congruence ]).
Qed.

(** X2.  The twitch policy performs the checks of the minimum policy:
    a parser whose settings pass once [setChecks] has set twitch also passes
    once it has set minimum, and its settings pass with no policy given. *)
Theorem twitch_includes_minimum (this : CommandParser) :
  validSettings_of (setChecks this twitch) = true ->
  validSettings_of (setChecks this minimum) = true
  /\ validSettings
       {| prefix := prefix (settings this);
          optionPrefix := optionPrefix (settings this);
          checks := None;
          forceParse := forceParse (settings this) |} = true.
Proof.
  unfold validSettings_of. rewrite !validSettings_closed_form. simpl.
  destruct (prefix_rejected (prefix (settings this))),
    (optionPrefix_rejected (optionPrefix (settings this)));
    simpl; auto; discriminate.
Qed.

Lemma twitch_includes_minimum_witness :
  validSettings_of (setChecks readme_parser twitch) = true
  /\ validSettings_of (setChecks readme_parser minimum) = true.
Proof.
  split; [reflexivity|].
  exact (proj1 (twitch_includes_minimum readme_parser eq_refl)).
Defined.

End SettingsProperties.

(* ================================================================== *)
(** ** Messages of errors *)

Module ErrorProperties.
Import Js Settings Errors Parser Reference Samples Shapes StringFacts.

Lemma digits_no_space (d : Decimal.uint) :
  contains space (NilEmpty.string_of_uint d) = false.
Proof. induction d; simpl; auto. Qed.

Lemma split_at_first (c : ascii) (a b x y : string) :
  contains c a = false -> contains c b = false ->
  a ++ String c x = b ++ String c y -> a = b /\ x = y.
Proof.
  revert b. induction a as [|d a IH]; intros [|e b] Ha Hb H; simpl in *.
  - inversion H. auto.
  - inversion H; subst. rewrite Ascii.eqb_refl in Hb. discriminate.
  - inversion H; subst. rewrite Ascii.eqb_refl in Ha. discriminate.
  - inversion H; subst.
    apply orb_false_iff in Ha, Hb. destruct Ha as [_ Ha], Hb as [_ Hb].
    destruct (IH b Ha Hb H2) as [-> ->]. auto.
Qed.

Lemma error_message_injective (e1 e2 : Error) :
  error_name e1 = error_name e2 ->
  error_message e1 = error_message e2 -> e1 = e2.
Proof.
  destruct e1 as [i m|m], e2 as [j m'|m']; simpl; try discriminate.
  - intros _ H. inversion H as [H'].
    apply (split_at_first space) in H'; try apply digits_no_space.
    destruct H' as [Hd Hm]. inversion Hm; subst.
    f_equal. apply Unsigned.to_uint_inj.
    pose proof (NilEmpty.usu (Nat.to_uint i)) as U.
    rewrite Hd, NilEmpty.usu in U. now inversion U.
  - intros _ ->. reflexivity.
Qed.

(** X3.  The name and the message of an error tell which error it is: for a
    [ParseError] the index and the detail can be read back from the text
    handed to [Error], the index being printed in decimal before the first
    dash. *)
Theorem error_determined_by_name_and_message (e1 e2 : Error) :
  e1 = e2
  <-> error_name e1 = error_name e2 /\ error_message e1 = error_message e2.
Proof.
  split.
  - intros ->. split; reflexivity.
  - intros [Hn Hm]. now apply error_message_injective.
Qed.

End ErrorProperties.

(* ================================================================== *)
(** ** What holds of every run of the loop *)

Module LoopProperties.
Import Js Settings Errors Parser Reference Samples Shapes.
Import StringFacts CollectionFacts ScanFacts SettingsFacts ParserFacts.

Lemma scan_invariant (cfg : ParserSettings) (S : string)
    (Inv : string -> Scan -> Prop) :
  (forall done c rest sc sc',
      S = done ++ String c rest ->
      Inv done sc ->
      step cfg S (String.length done) c sc = Ok sc' ->
      Inv (done ++ str c) sc') ->
  forall rest done sc sc',
    S = done ++ rest ->
    Inv done sc ->
    scan cfg S rest (String.length done) sc = Ok sc' ->
    Inv (done ++ rest) sc'.
Proof.
  intros Hstep rest. induction rest as [|c rest IH];
    intros done sc sc' HS Hinv Hscan.
  - simpl in Hscan. inversion Hscan; subst. now rewrite str_app_nil_r.
  - simpl in Hscan.
    destruct (step cfg S (String.length done) c sc) as [sc1|e] eqn:E;
      [|discriminate].
    replace (done ++ String c rest) with ((done ++ str c) ++ rest)
      by (now rewrite str_app_assoc).
    apply (IH (done ++ str c) sc1).
    + rewrite HS, str_app_assoc. reflexivity.
    + eapply Hstep; eauto.
    + rewrite str_length_app. simpl. now rewrite Nat.add_1_r.
Qed.

(** *** Errors *)

Lemma get_within (s : string) :
  forall n, n < String.length s -> exists e, String.get n s = Some e.
Proof.
  induction s as [|d s IH]; intros n H; simpl in *; [lia|].
  destruct n as [|n]; [now exists d|]. apply IH. lia.
Qed.

Lemma step_throw_message (cfg : ParserSettings) (S : string) (i : nat)
    (c : ascii) (sc : Scan) (e : Error) :
  bufferStartIndex sc <= i ->
  step cfg S i c sc = Throw e ->
  exists m, e = ParseError i m /\ loop_message cfg c m.
Proof.
  intros Hle H. unfold loop_message.
  step_inv H; eexists; (split; [reflexivity|]);
    repeat match goal with
      | H : Ascii.eqb _ _ = true |- _ => apply Ascii.eqb_eq in H; subst
      end.
  - left.
    match goal with H : (_ <? _)%Z = true |- _ => apply Z.ltb_lt in H end.
    match goal with H : same_char _ _ = false |- _ => revert H end.
    unfold char_at.
    destruct (Z.ltb_spec (Z.of_nat i - Z.of_nat (bufferStartIndex sc)) 0);
      [lia|].
    destruct (get_within (prefix cfg)
                (Z.to_nat (Z.of_nat i - Z.of_nat (bufferStartIndex sc))))
      as [e G]; [lia|].
    rewrite G. cbn [same_char show_char]. intro Hne.
    apply Ascii.eqb_neq in Hne.
    eexists _, e. split; [exact G | split; [exact Hne | reflexivity]].
  - right; left; split; reflexivity.
  - right; right; left; split; reflexivity.
  - right; right; right; left; split; reflexivity.
  - right; right; right; right. split; [|reflexivity].
    match goal with H : _ || _ = false |- _ =>
      apply orb_false_iff in H; destruct H as [H _];
      now apply Ascii.eqb_neq in H end.
  - right; right; right; right. split; [|reflexivity].
    match goal with H : _ || _ = false |- _ =>
      apply orb_false_iff in H; destruct H as [H _];
      now apply Ascii.eqb_neq in H end.
Qed.

Lemma scan_throw_message (cfg : ParserSettings) (S : string) (rest : string) :
  forall done sc e,
    S = done ++ rest ->
    bufferStartIndex sc <= String.length done ->
    scan cfg S rest (String.length done) sc = Throw e ->
    exists j m c, e = ParseError j m
                  /\ String.get j S = Some c
                  /\ loop_message cfg c m.
Proof.
  induction rest as [|c rest IH]; intros done sc e HS Hle H; simpl in *.
  - discriminate.
  - destruct (step cfg S (String.length done) c sc) as [sc1|e1] eqn:E.
    + apply (IH (done ++ str c) sc1).
      * rewrite HS, str_app_assoc. reflexivity.
      * rewrite str_length_app. simpl. rewrite Nat.add_1_r.
        eapply step_start_le; eauto.
      * rewrite str_length_app. simpl. now rewrite Nat.add_1_r.
    + inversion H; subst e1. apply step_throw_message in E; [|exact Hle].
      destruct E as (m & -> & Hm). exists (String.length done), m, c.
      split; [reflexivity|]. split; [|exact Hm].
      rewrite HS. apply get_app_here.
Qed.

(** X4.  Whatever [parse] throws is either the [ValidationError] of the gate
    or a [ParseError] whose index is that of a character of the input or of
    the sentinel, with one of the five messages of the loop, chosen by that
    character: a mismatch names a character of the prefix other than the
    one read, the three space messages come on a space, and the escape
    message names the character read. *)
Theorem parse_error_shape (this : CommandParser) (src : string)
    (ov : option ParserSettings) (e : Error) :
  parse this src ov = Throw e ->
  (e = ValidationError "error: validation failed"
   /\ gate_open (used_settings this ov) = false)
  \/ (exists i m c, e = ParseError i m
                    /\ String.get i (src ++ " ") = Some c
                    /\ loop_message (used_settings this ov) c m).
Proof.
  intro H.
  destruct (gate_open (used_settings this ov)) eqn:Hg.
  - right. rewrite parse_open in H by exact Hg.
    unfold scan_upto, finish in H.
    destruct (scan _ _ _ _ _) as [sc|e'] eqn:E; [discriminate|].
    inversion H; subst e'.
    apply (scan_throw_message _ _ _ EmptyString) in E;
      [exact E | reflexivity | simpl; lia].
  - left. rewrite parse_closed in H by exact Hg. inversion H. auto.
Qed.

Lemma parse_error_shape_witness :
  parse readme_parser "#ping" None = Throw (ParseError 0 "expected '!'")
  /\ exists i m c,
       ParseError 0 "expected '!'" = ParseError i m
       /\ String.get i ("#ping" ++ " ") = Some c
       /\ loop_message readme_settings c m.
Proof.
  split; [reflexivity|].
  destruct (parse_error_shape readme_parser "#ping" None _ eq_refl)
    as [[H _]|H]; [discriminate H | exact H].
Defined.

(** X5.  A returned command records the input as it was given, without
    the sentinel, and the settings the call worked with: the settings
    passed to the call when there are any, else those of the parser. *)
Theorem parse_keeps_source_and_settings (this : CommandParser) (src : string)
    (ov : option ParserSettings) (cmd : Command) :
  parse this src ov = Ok cmd ->
  source cmd = src
  /\ parserSettings cmd
     = match ov with Some given => given | None => settings this end.
Proof.
  intro H.
  destruct (gate_open (used_settings this ov)) eqn:Hg;
    [|rewrite parse_closed in H by exact Hg; discriminate].
  rewrite parse_open in H by exact Hg. unfold scan_upto, finish in H.
  destruct (scan _ _ _ _ _) as [sc|e'] eqn:E; [|discriminate].
  inversion H; subst cmd. apply scan_frame in E.
  destruct E as (-> & -> & _). split; reflexivity.
Qed.

(** The parser of the README called on [!cmd --v], with the settings of
    option prefix [--] passed to the call and without. *)
Lemma parse_keeps_source_and_settings_witness :
  (parse readme_parser "!cmd --v" (Some dashdash_settings)
   = Ok {| parserSettings := dashdash_settings; name := "cmd";
           arguments := []; options := ["v"]; parameters := [];
           source := "!cmd --v"; passedChecks := true |}
   /\ source
        {| parserSettings := dashdash_settings; name := "cmd";
           arguments := []; options := ["v"]; parameters := [];
           source := "!cmd --v"; passedChecks := true |} = "!cmd --v"
   /\ parserSettings
        {| parserSettings := dashdash_settings; name := "cmd";
           arguments := []; options := ["v"]; parameters := [];
           source := "!cmd --v"; passedChecks := true |} = dashdash_settings)
  /\ (parse readme_parser "!cmd --v" None
      = Ok {| parserSettings := readme_settings; name := "cmd";
              arguments := []; options := ["-v"]; parameters := [];
              source := "!cmd --v"; passedChecks := true |}
      /\ source
           {| parserSettings := readme_settings; name := "cmd";
              arguments := []; options := ["-v"]; parameters := [];
              source := "!cmd --v"; passedChecks := true |} = "!cmd --v"
      /\ parserSettings
           {| parserSettings := readme_settings; name := "cmd";
              arguments := []; options := ["-v"]; parameters := [];
              source := "!cmd --v"; passedChecks := true |}
         = readme_settings).
Proof.
  split; (split; [reflexivity|]).
  - exact (parse_keeps_source_and_settings readme_parser "!cmd --v"
             (Some dashdash_settings) _ eq_refl).
  - exact (parse_keeps_source_and_settings readme_parser "!cmd --v" None
             _ eq_refl).
Defined.

(** X6.  A returned command holds no option twice and no parameter key
    twice. *)
Theorem parse_collections_have_no_duplicates (this : CommandParser)
    (src : string) (ov : option ParserSettings) (cmd : Command) :
  parse this src ov = Ok cmd ->
  NoDup (options cmd) /\ NoDup (map_keys (parameters cmd)).
Proof.
  intro H.
  destruct (gate_open (used_settings this ov)) eqn:Hg;
    [|rewrite parse_closed in H by exact Hg; discriminate].
  rewrite parse_open in H by exact Hg. unfold scan_upto, finish in H.
  destruct (scan _ _ _ _ _) as [sc|e'] eqn:E; [|discriminate].
  inversion H; subst cmd. apply scan_collections in E; [exact E|].
  split; constructor.
Qed.

Lemma parse_collections_have_no_duplicates_witness :
  parse readme_parser "!ping -v" None = Ok ping_v_command
  /\ NoDup (options ping_v_command)
  /\ NoDup (map_keys (parameters ping_v_command)).
Proof.
  split; [reflexivity|].
  exact (parse_collections_have_no_duplicates readme_parser "!ping -v" None
           ping_v_command eq_refl).
Defined.

(** *** The empty name *)

Lemma step_never_back_to_prefix (cfg : ParserSettings) (S : string) (i : nat)
    (c : ascii) (sc sc' : Scan) :
  step cfg S i c sc = Ok sc' -> state sc <> Prefix -> state sc' <> Prefix.
Proof.
  intros H Hst. step_inv H; simpl; try congruence; discriminate.
Qed.

Lemma step_prefix_inv (cfg : ParserSettings) (S : string) (init : Scan)
    (done : string) (c : ascii) (sc sc' : Scan) :
  bufferStartIndex init = 0 ->
  prefix_inv cfg init done sc ->
  step cfg S (String.length done) c sc = Ok sc' ->
  prefix_inv cfg init (done ++ str c) sc'.
Proof.
  intros H0 Hinv H Hst'.
  destruct (state sc) eqn:Hst;
    try (exfalso; eapply step_never_back_to_prefix; eauto; congruence).
  destruct (Hinv Hst) as [-> [t Hp]].
  unfold step in H. rewrite Hst, H0, Z.sub_0_r, Hp in H.
  destruct t as [|c' t].
  - rewrite char_at_beyond in H by (rewrite str_app_nil_r; lia).
    cbn [same_char] in H.
    destruct (_ <? _)%Z; [discriminate|].
    destruct (Ascii.eqb c space); [discriminate|].
    inversion H; subst. discriminate.
  - rewrite (char_at_here done c' t) in H by reflexivity.
    cbn [same_char] in H.
    destruct (Ascii.eqb_spec c c') as [->|Hne].
    + inversion H; subst. split; [reflexivity|].
      exists t. rewrite Hp, str_app_assoc. reflexivity.
    + destruct (_ <? _)%Z; [discriminate|].
      destruct (Ascii.eqb c space); [discriminate|].
      inversion H; subst. discriminate.
Qed.

(** X7.  A returned command has an empty name exactly when the input
    followed by the sentinel space is a leading part of the prefix.  So
    with a prefix that holds no space the name of a returned command is
    never empty. *)
Theorem empty_name_iff (this : CommandParser) (src : string)
    (ov : option ParserSettings) (cmd : Command) :
  parse this src ov = Ok cmd ->
  (name cmd = EmptyString
   <-> exists t, prefix (used_settings this ov) = src ++ " " ++ t)
  /\ (contains space (prefix (used_settings this ov)) = false ->
      name cmd <> EmptyString).
Proof.
  intro Hp.
  assert (Hiff : name cmd = EmptyString
                 <-> exists t, prefix (used_settings this ov) = src ++ " " ++ t).
  { destruct (gate_open (used_settings this ov)) eqn:Hg;
      [|rewrite parse_closed in Hp by exact Hg; discriminate].
    split.
    - intro Hn.
      destruct (parse_invariants this src ov cmd Hp) as (_ & _ & [Hne|Hst]);
        [contradiction|].
      unfold state_at in Hst.
      destruct (scan_upto (used_settings this ov) src (src ++ " "))
        as [sc|e] eqn:E; [|discriminate].
      inversion Hst as [Hst'].
      unfold scan_upto in E.
      assert (Hinv : prefix_inv (used_settings this ov)
                       (initial_scan
                          (initial_command (used_settings this ov) src
                             (validSettings (used_settings this ov))))
                       (EmptyString ++ (src ++ " ")) sc).
      { eapply (scan_invariant (used_settings this ov) (src ++ " "));
          [ | reflexivity | | exact E ].
        - intros done c rest sc0 sc' _. apply step_prefix_inv. reflexivity.
        - intros _. split; [reflexivity|].
          now exists (prefix (used_settings this ov)). }
      destruct (Hinv Hst') as [_ [t Ht]]. simpl in Ht.
      exists t. rewrite Ht, str_app_assoc. reflexivity.
    - intros [t Ht].
      rewrite parse_open in Hp by exact Hg.
      rewrite (scan_upto_prefix _ _ (src ++ " ") t) in Hp
        by (now rewrite Ht, str_app_assoc).
      inversion Hp. reflexivity. }
  split; [exact Hiff|].
  intros Hsp Hn. apply Hiff in Hn. destruct Hn as [t Ht].
  rewrite Ht, no_space_app in Hsp. simpl in Hsp.
  rewrite orb_true_r in Hsp. discriminate.
Qed.

Lemma empty_name_iff_witness :
  parse readme_parser "!ping -v" None = Ok ping_v_command
  /\ contains space (prefix (used_settings readme_parser None)) = false
  /\ name ping_v_command <> EmptyString.
Proof.
  split; [reflexivity|]. split; [reflexivity|].
  exact (proj2 (empty_name_iff readme_parser "!ping -v" None ping_v_command
                  eq_refl) eq_refl).
Defined.

(** *** Names, options and keys hold no space *)

Lemma Forall_set_add (P : string -> Prop) (x : string) (s : StrSet) :
  P x -> Forall P s -> Forall P (set_add x s).
Proof.
  intros Hx Hs. unfold set_add. destruct (set_has x s); [exact Hs|].
  apply Forall_app. split; [exact Hs | now constructor].
Qed.

Lemma Forall_map_set_keys (P : string -> Prop) (k v : string) (m : StrMap) :
  P k -> Forall P (map_keys m) -> Forall P (map_keys (map_set k v m)).
Proof.
  intros Hk Hm. rewrite map_set_keys.
  exact (Forall_set_add P k (map_keys m) Hk Hm).
Qed.

Lemma no_space_snoc (w : string) (c : ascii) :
  no_space w -> Ascii.eqb c space = false -> no_space (w ++ str c).
Proof.
  unfold no_space. intros Hw Hc. rewrite no_space_app, Hw. simpl.
  now rewrite Hc.
Qed.

Lemma step_spaceless (cfg : ParserSettings) (S done rest : string)
    (c : ascii) (sc sc' : Scan) :
  S = done ++ String c rest ->
  spaceless_inv done sc ->
  step cfg S (String.length done) c sc = Ok sc' ->
  spaceless_inv (done ++ str c) sc'.
Proof.
  intros HS (Hk & Hn & Ho & Hp & Hopen) H.
  assert (Htok : state sc = Name \/ state sc = Option ->
                 exists a w, done = a ++ w
                             /\ String.length a = bufferStartIndex sc
                             /\ no_space w
                             /\ Js.substring S (bufferStartIndex sc)
                                  (String.length done) = w).
  { intro Hst. destruct (Hopen Hst) as (a & w & Hd & Ha & Hw).
    exists a, w. repeat split; auto.
    apply (substring_between S a w (String c rest)).
    - rewrite HS, Hd, str_app_assoc. reflexivity.
    - now rewrite Ha.
    - rewrite Hd, str_length_app. lia. }
  assert (Hnew : Ascii.eqb c space = false ->
                 exists a w, done ++ str c = a ++ w
                             /\ String.length a = String.length done
                             /\ no_space w).
  { intros Hc. exists done, (str c). repeat split.
    unfold no_space. simpl. now rewrite Hc. }
  assert (Hgrow : Ascii.eqb c space = false ->
                  state sc = Name \/ state sc = Option ->
                  exists a w, done ++ str c = a ++ w
                              /\ String.length a = bufferStartIndex sc
                              /\ no_space w).
  { intros Hc Hst. destruct (Hopen Hst) as (a & w & Hd & Ha & Hw).
    exists a, (w ++ str c). repeat split; auto.
    - rewrite Hd, str_app_assoc. reflexivity.
    - now apply no_space_snoc. }
  unfold spaceless_inv.
  step_inv H; cbn [state keyBuffer command name options parameters goto
                     with_command with_key with_state with_longType
                     set_name add_option set_parameter push_argument
                     bufferStartIndex];
    repeat match goal with
      | |- _ /\ _ => split
      end;
    auto using Forall_set_add, Forall_map_set_keys;
    try (intros [Hst|Hst]; congruence);
    try (intros _; now apply Hnew);
    try (intros _; apply Hgrow; auto; fail).
  all: try (destruct Htok as (a & w & _ & _ & Hw & ->); auto;
            auto using Forall_set_add; fail).
Qed.

(** X9.  In a returned command the name, every option and every parameter
    key hold no space. *)
Theorem parse_names_hold_no_space (this : CommandParser) (src : string)
    (ov : option ParserSettings) (cmd : Command) :
  parse this src ov = Ok cmd ->
  no_space (name cmd)
  /\ Forall no_space (options cmd)
  /\ Forall no_space (map_keys (parameters cmd)).
Proof.
  intro H.
  destruct (gate_open (used_settings this ov)) eqn:Hg;
    [|rewrite parse_closed in H by exact Hg; discriminate].
  rewrite parse_open in H by exact Hg. unfold scan_upto, finish in H.
  destruct (scan _ _ _ _ _) as [sc|e'] eqn:E; [|discriminate].
  inversion H; subst cmd.
  assert (Hinv : spaceless_inv (EmptyString ++ (src ++ " ")) sc).
  { eapply (scan_invariant (used_settings this ov) (src ++ " "));
      [ | reflexivity | | exact E ].
    - intros done c rest sc0 sc' HS. now apply (step_spaceless _ _ _ rest).
    - unfold spaceless_inv. simpl. repeat split; try constructor.
      intros [Hst|Hst]; discriminate. }
  destruct Hinv as (_ & Hn & Ho & Hp & _). auto.
Qed.

Lemma parse_names_hold_no_space_witness :
  parse readme_parser "!ping -v" None = Ok ping_v_command
  /\ no_space (name ping_v_command)
  /\ Forall no_space (options ping_v_command)
  /\ Forall no_space (map_keys (parameters ping_v_command)).
Proof.
  split; [reflexivity|].
  exact (parse_names_hold_no_space readme_parser "!ping -v" None
           ping_v_command eq_refl).
Defined.

(** *** The name is the first word *)

Definition name_shape (settings : ParserSettings) (init : Scan)
    (done : string) (sc : Scan) : Prop :=
  match state sc with
  | Prefix => sc = init /\ exists t, prefix settings = done ++ t
  | Name =>
      name (command sc) = EmptyString
      /\ exists w, done = prefix settings ++ w
                   /\ bufferStartIndex sc = String.length (prefix settings)
                   /\ no_space w
  | _ =>
      exists rest,
        done = prefix settings ++ name (command sc) ++ String space rest
        /\ no_space (name (command sc))
  end.

Lemma step_name_shape (cfg : ParserSettings) (S : string) (init : Scan)
    (done rest : string) (c : ascii) (sc sc' : Scan) :
  state init = Prefix ->
  bufferStartIndex init = 0 ->
  name (command init) = EmptyString ->
  S = done ++ String c rest ->
  name_shape cfg init done sc ->
  step cfg S (String.length done) c sc = Ok sc' ->
  name_shape cfg init (done ++ str c) sc'.
Proof.
  intros Hi0 Hi1 Hi2 HS Hinv H. unfold name_shape in *.
  destruct (state sc) eqn:Hst;
    try solve
      [ destruct Hinv as (r & Hd & Hw);
        destruct (step_name_kept cfg S _ c sc sc' H) as [Hn Hpast];
        [ rewrite Hst; reflexivity
        | assert (G : exists rest0,
                     done ++ str c
                     = prefix cfg ++ name (command sc')
                         ++ String space rest0
                     /\ no_space (name (command sc')))
            by (rewrite Hn; exists (r ++ str c); split; [|exact Hw];
                rewrite Hd, !str_app_assoc; reflexivity);
          destruct (state sc'); try discriminate; exact G ] ].
  - (* Prefix *)
    destruct Hinv as [-> [t Hp]].
    unfold step in H. rewrite Hst, Hi1, Z.sub_0_r, Hp in H.
    destruct t as [|c' t].
    + rewrite char_at_beyond in H by (rewrite str_app_nil_r; lia).
      cbn [same_char] in H.
      destruct (_ <? _)%Z; [discriminate|].
      destruct (Ascii.eqb c space) eqn:Hc; [discriminate|].
      inversion H; subst. cbn [state goto command bufferStartIndex].
      split; [exact Hi2|]. exists (str c).
      rewrite str_app_nil_r in Hp. rewrite <- Hp.
      repeat split. unfold no_space. simpl. now rewrite Hc.
    + rewrite (char_at_here done c' t) in H by reflexivity.
      cbn [same_char] in H.
      destruct (Ascii.eqb_spec c c') as [->|Hne].
      * inversion H; subst. rewrite Hst. split; [reflexivity|].
        exists t. rewrite Hp, str_app_assoc. reflexivity.
      * rewrite str_length_app in H. simpl String.length in H.
        destruct (Z.ltb_spec (Z.of_nat (String.length done))
                    (Z.of_nat (String.length done
                               + Datatypes.S (String.length t))));
          [discriminate | lia].
  - (* Name *)
    destruct Hinv as [Hn (w & Hd & Hs & Hw)].
    unfold step in H. rewrite Hst in H.
    destruct (Ascii.eqb c space) eqn:Hc.
    + inversion H; subst sc'. cbn [state goto command with_command set_name
                                     name].
      rewrite (substring_between S (prefix cfg) w (String c rest));
        [ | rewrite HS, Hd, str_app_assoc; reflexivity | now rewrite Hs
          | rewrite Hd, str_length_app; lia ].
      apply Ascii.eqb_eq in Hc. subst c.
      exists EmptyString. split; [|exact Hw].
      rewrite Hd, str_app_assoc. reflexivity.
    + inversion H; subst sc'. rewrite Hst. split; [exact Hn|].
      exists (w ++ str c). repeat split; auto.
      * rewrite Hd, str_app_assoc. reflexivity.
      * now apply no_space_snoc.
Qed.

(** X8.  A returned command with a name comes from an input that starts
    with the prefix: the name follows the prefix at once, holds no space,
    and ends at the first space after it (the sentinel, if no other). *)
Theorem parse_name_is_first_word (this : CommandParser) (src : string)
    (ov : option ParserSettings) (cmd : Command) :
  parse this src ov = Ok cmd ->
  name cmd <> EmptyString ->
  no_space (name cmd)
  /\ exists rest,
       src ++ " "
       = prefix (used_settings this ov) ++ name cmd ++ String space rest.
Proof.
  intros Hp Hne.
  destruct (gate_open (used_settings this ov)) eqn:Hg;
    [|rewrite parse_closed in Hp by exact Hg; discriminate].
  rewrite parse_open in Hp by exact Hg. unfold scan_upto, finish in Hp.
  destruct (scan _ _ _ _ _) as [sc|e'] eqn:E; [|discriminate].
  inversion Hp; subst cmd.
  assert (Hinv : name_shape (used_settings this ov)
                   (initial_scan
                      (initial_command (used_settings this ov) src
                         (validSettings (used_settings this ov))))
                   (EmptyString ++ (src ++ " ")) sc).
  { eapply (scan_invariant (used_settings this ov) (src ++ " "));
      [ | reflexivity | | exact E ].
    - intros done c rest sc0 sc' HS.
      now apply (step_name_shape _ _ _ done rest).
    - unfold name_shape. simpl. split; [reflexivity|].
      now exists (prefix (used_settings this ov)). }
  unfold name_shape in Hinv. simpl in Hinv.
  destruct (state sc);
    try solve [ destruct Hinv as (r & Hd & Hw); split; [exact Hw|];
                now exists r ].
  - destruct Hinv as [-> _]. simpl in Hne. contradiction.
  - destruct Hinv as [Hn _]. contradiction.
Qed.

Lemma parse_name_is_first_word_witness :
  parse readme_parser "!ping -v" None = Ok ping_v_command
  /\ name ping_v_command <> EmptyString
  /\ exists rest,
       "!ping -v" ++ " "
       = prefix (used_settings readme_parser None) ++ name ping_v_command
           ++ String space rest.
Proof.
  assert (Hne : name ping_v_command <> EmptyString) by discriminate.
  split; [reflexivity|]. split; [exact Hne|].
  exact (proj2 (parse_name_is_first_word readme_parser "!ping -v" None
                  ping_v_command eq_refl Hne)).
Defined.

Lemma step_retag (cfg s : ParserSettings) (S src : string) (v : bool)
    (i : nat) (c : ascii) (sc : Scan) :
  step cfg S i c (with_command (retag s src v) sc)
  = map_ok (with_command (retag s src v)) (step cfg S i c sc).
Proof.
  unfold step. cbn [state bufferStartIndex keyBuffer longType with_command].
  destruct (state sc);
    repeat match goal with
      | |- context [if ?b then _ else _] => destruct b
      end; reflexivity.
Qed.

Lemma scan_retag (cfg s : ParserSettings) (S src : string) (v : bool)
    (rest : string) :
  forall i sc,
    scan cfg S rest i (with_command (retag s src v) sc)
    = map_ok (with_command (retag s src v)) (scan cfg S rest i sc).
Proof.
  induction rest as [|c rest IH]; intros i sc; cbn [scan]; [reflexivity|].
  rewrite step_retag.
  destruct (step cfg S i c sc) as [sc'|e]; cbn [map_ok]; [apply IH|].
  reflexivity.
Qed.

Lemma step_same_prefixes (cfg1 cfg2 : ParserSettings) (S : string) (i : nat)
    (c : ascii) (sc : Scan) :
  prefix cfg1 = prefix cfg2 ->
  optionPrefix cfg1 = optionPrefix cfg2 ->
  step cfg1 S i c sc = step cfg2 S i c sc.
Proof. intros H1 H2. unfold step. now rewrite H1, H2. Qed.

Lemma scan_same_prefixes (cfg1 cfg2 : ParserSettings) (S rest : string) :
  prefix cfg1 = prefix cfg2 ->
  optionPrefix cfg1 = optionPrefix cfg2 ->
  forall i sc, scan cfg1 S rest i sc = scan cfg2 S rest i sc.
Proof.
  intros H1 H2. induction rest as [|c rest IH]; intros i sc; cbn [scan];
    [reflexivity|].
  rewrite (step_same_prefixes cfg1 cfg2) by assumption.
  destruct (step cfg2 S i c sc); [apply IH | reflexivity].
Qed.

(** X16.  The policy and [forceParse] decide whether the loop runs and
    nothing of what it finds: two settings that pass the gate and share
    prefix and option prefix give the same error, or the same command up to
    the recorded settings and [passedChecks]. *)
Theorem parse_policy_independent (this : CommandParser) (src : string)
    (cfg1 cfg2 : ParserSettings) :
  prefix cfg1 = prefix cfg2 ->
  optionPrefix cfg1 = optionPrefix cfg2 ->
  gate_open cfg1 = true ->
  gate_open cfg2 = true ->
  parse this src (Some cfg2)
  = map_ok (retag cfg2 src (validSettings cfg2)) (parse this src (Some cfg1)).
Proof.
  intros H1 H2 G1 G2.
  rewrite (parse_open this src (Some cfg2)) by exact G2.
  rewrite (parse_open this src (Some cfg1)) by exact G1.
  cbn [used_settings]. unfold scan_upto.
  change (initial_scan (initial_command cfg2 src (validSettings cfg2)))
    with (with_command (retag cfg2 src (validSettings cfg2))
            (initial_scan (initial_command cfg1 src (validSettings cfg1)))).
  rewrite scan_retag, (scan_same_prefixes cfg1 cfg2) by assumption.
  destruct (scan cfg2 _ _ _ _); reflexivity.
Qed.

Lemma parse_policy_independent_witness :
  prefix readme_settings = prefix (plain_settings "!" "-")
  /\ optionPrefix readme_settings = optionPrefix (plain_settings "!" "-")
  /\ gate_open readme_settings = true
  /\ gate_open (plain_settings "!" "-") = true
  /\ parse readme_parser "!ping -v" (Some (plain_settings "!" "-"))
     = map_ok (retag (plain_settings "!" "-") "!ping -v" true)
         (parse readme_parser "!ping -v" (Some readme_settings)).
Proof.
  split; [reflexivity|]. split; [reflexivity|]. split; [reflexivity|].
  split; [reflexivity|].
  exact (parse_policy_independent readme_parser "!ping -v" readme_settings
           (plain_settings "!" "-") eq_refl eq_refl eq_refl eq_refl).
Defined.

(** *** Locality *)

Lemma substring_within (s t : string) :
  forall lo len,
    lo + len <= String.length s ->
    String.substring lo len (s ++ t) = String.substring lo len s.
Proof.
  induction s as [|d s IH]; intros lo len H; simpl in *.
  - replace lo with 0 by lia. replace len with 0 by lia.
    destruct t; reflexivity.
  - destruct lo as [|lo].
    + destruct len as [|len]; [reflexivity|].
      f_equal. apply IH. lia.
    + apply IH. lia.
Qed.

Lemma substring_common (common x : string) (a b : nat) :
  a <= String.length common -> b <= String.length common ->
  Js.substring (common ++ x) a b = Js.substring common a b.
Proof.
  intros Ha Hb. unfold Js.substring. rewrite str_length_app.
  replace (Nat.min (Nat.min a b) (String.length common + String.length x))
    with (Nat.min (Nat.min a b) (String.length common)) by lia.
  replace (Nat.min (Nat.max a b) (String.length common + String.length x))
    with (Nat.min (Nat.max a b) (String.length common)) by lia.
  apply substring_within. lia.
Qed.

Lemma step_local (cfg : ParserSettings) (common x y : string) (i : nat)
    (c : ascii) (sc : Scan) :
  bufferStartIndex sc <= i -> i <= String.length common ->
  step cfg (common ++ x) i c sc = step cfg (common ++ y) i c sc.
Proof.
  intros H1 H2. unfold step.
  rewrite (substring_common common x), (substring_common common y) by lia.
  reflexivity.
Qed.

Lemma scan_local (cfg : ParserSettings) (common x y : string)
    (part : string) :
  forall i sc,
    bufferStartIndex sc <= i ->
    i + String.length part <= String.length common ->
    scan cfg (common ++ x) part i sc = scan cfg (common ++ y) part i sc.
Proof.
  induction part as [|c part IH]; intros i sc H1 H2; cbn [scan];
    [reflexivity|].
  simpl in H2. rewrite (step_local cfg common x y) by lia.
  destruct (step cfg (common ++ y) i c sc) as [sc'|e] eqn:E; [|reflexivity].
  apply IH; [|lia]. eapply step_start_le; eauto.
Qed.

(** The loop over a leading part of the input, seen from two inputs that
    share it. *)
Lemma scan_upto_shared (cfg : ParserSettings) (common x y : string) :
  scan_upto cfg (common ++ y) common
  = map_ok (with_command (retag cfg (common ++ y) (validSettings cfg)))
      (scan_upto cfg (common ++ x) common).
Proof.
  unfold scan_upto.
  change (initial_scan (initial_command cfg (common ++ y) (validSettings cfg)))
    with (with_command (retag cfg (common ++ y) (validSettings cfg))
            (initial_scan
               (initial_command cfg (common ++ x) (validSettings cfg)))).
  rewrite scan_retag, !str_app_assoc.
  rewrite (scan_local cfg common (y ++ " ") (x ++ " ")) by (simpl; lia).
  reflexivity.
Qed.

(** X17.  A [ParseError] depends on the input up to the offending
    character only: an input that agrees with the first one up to and
    including the character at the error index raises the same error. *)
Theorem parse_error_is_local (this : CommandParser)
    (ov : option ParserSettings) (common x y : string) (j : nat)
    (m : string) :
  parse this (common ++ x) ov = Throw (ParseError j m) ->
  j < String.length common ->
  parse this (common ++ y) ov = Throw (ParseError j m).
Proof.
  intros Hp Hj.
  destruct (gate_open (used_settings this ov)) eqn:Hg;
    [|rewrite parse_closed in Hp by exact Hg; discriminate].
  rewrite parse_open in * by exact Hg.
  rewrite str_app_assoc, scan_upto_app in *.
  rewrite (scan_upto_shared _ common x y).
  destruct (scan_upto (used_settings this ov) (common ++ x) common)
    as [sc|e] eqn:E; cbn [map_ok bind] in *.
  - exfalso.
    destruct (scan _ _ (x ++ " ") _ sc) as [sc'|e] eqn:E'; [discriminate|].
    apply scan_throw in E'. destruct E' as (j' & m' & -> & Hj').
    inversion Hp; subst. lia.
  - exact Hp.
Qed.

Lemma parse_error_is_local_witness :
  parse readme_parser ("!a 'b\x" ++ " c'") None
  = Throw (ParseError 6 "couldn't escape with character 'x'")
  /\ 6 < String.length "!a 'b\x"
  /\ parse readme_parser ("!a 'b\x" ++ "yz -k:") None
     = Throw (ParseError 6 "couldn't escape with character 'x'").
Proof.
  assert (Hlt : 6 < String.length "!a 'b\x") by (simpl; lia).
  split; [reflexivity|]. split; [exact Hlt|].
  exact (parse_error_is_local readme_parser None "!a 'b\x" " c'" "yz -k:" 6
           "couldn't escape with character 'x'" eq_refl Hlt).
Defined.

Lemma scan_default_spaces (cfg : ParserSettings) (S : string) (n : nat) :
  forall i sc, state sc = Default -> scan cfg S (spaces n) i sc = Ok sc.
Proof.
  induction n as [|n IH]; intros i sc Hst; cbn [spaces scan]; [reflexivity|].
  rewrite step_default_space by exact Hst. now apply IH.
Qed.

Lemma spaces_snoc (n : nat) : spaces n ++ " " = " " ++ spaces n.
Proof. induction n as [|n IH]; simpl; [reflexivity | now rewrite IH]. Qed.

(** X18.  When an input is parsed and the loop ends in [Default], any
    number of spaces added at the end of the input changes nothing in the
    command but the recorded source. *)
Theorem parse_ignores_trailing_spaces (this : CommandParser) (src : string)
    (ov : option ParserSettings) (cmd : Command) (n : nat) :
  parse this src ov = Ok cmd ->
  state_at (used_settings this ov) src (src ++ " ") = Some Default ->
  parse this (src ++ spaces n) ov
  = Ok (retag (used_settings this ov) (src ++ spaces n)
          (validSettings (used_settings this ov)) cmd).
Proof.
  intros Hp Hst.
  destruct (gate_open (used_settings this ov)) eqn:Hg;
    [|rewrite parse_closed in Hp by exact Hg; discriminate].
  rewrite parse_open in * by exact Hg.
  unfold state_at in Hst.
  destruct (scan_upto (used_settings this ov) src (src ++ " ")) as [sc|e]
    eqn:E; [|discriminate].
  inversion Hst as [Hst']. inversion Hp; subst cmd. clear Hp Hst.
  replace (scan_upto (used_settings this ov) (src ++ spaces n)
             ((src ++ spaces n) ++ " "))
    with (scan_upto (used_settings this ov) (src ++ spaces n)
            ((src ++ " ") ++ spaces n))
    by (f_equal; now rewrite !str_app_assoc, spaces_snoc).
  unfold scan_upto in *. rewrite scan_app.
  change (initial_scan (initial_command (used_settings this ov)
                          (src ++ spaces n)
                          (validSettings (used_settings this ov))))
    with (with_command (retag (used_settings this ov) (src ++ spaces n)
                          (validSettings (used_settings this ov)))
            (initial_scan
               (initial_command (used_settings this ov) src
                  (validSettings (used_settings this ov))))).
  rewrite scan_retag.
  replace ((src ++ spaces n) ++ " ") with ((src ++ " ") ++ spaces n)
    by (now rewrite !str_app_assoc, spaces_snoc).
  rewrite (scan_local _ (src ++ " ") (spaces n) EmptyString)
    by (simpl; lia).
  rewrite str_app_nil_r, E. cbn [map_ok bind].
  rewrite scan_default_spaces by exact Hst'.
  reflexivity.
Qed.

Lemma parse_ignores_trailing_spaces_witness :
  parse readme_parser "!ping -v" None = Ok ping_v_command
  /\ state_at readme_settings "!ping -v" ("!ping -v" ++ " ") = Some Default
  /\ parse readme_parser ("!ping -v" ++ spaces 3) None
     = Ok (retag readme_settings ("!ping -v" ++ spaces 3) true
             ping_v_command).
Proof.
  split; [reflexivity|]. split; [reflexivity|].
  exact (parse_ignores_trailing_spaces readme_parser "!ping -v" None
           ping_v_command 3 eq_refl eq_refl).
Defined.

End LoopProperties.

(* ================================================================== *)
(** ** Inputs made of well-formed tokens *)

Module TokenProperties.
Import Js Settings Errors Parser Reference Samples Shapes.
Import StringFacts CollectionFacts ScanFacts SettingsFacts SegmentFacts.
Import ParserFacts.

Section TokenRuns.
Variable cfg : ParserSettings.
Variable S : string.
Hypothesis HO : optionPrefix_rejected (optionPrefix cfg) = false.

Let HOe : optionPrefix cfg <> EmptyString := proj1 (accepted_head _ HO).
Let HOs : starts_with space (optionPrefix cfg) = false :=
  proj2 (accepted_head _ HO).

Lemma scan_token (t : Token) (pre post : string) (sc : Scan) :
  S = pre ++ render (optionPrefix cfg) t ++ post ->
  state sc = Default ->
  well_formed (optionPrefix cfg) t = true ->
  exists sc',
    scan cfg S (render (optionPrefix cfg) t) (String.length pre) sc = Ok sc'
    /\ state sc' = Default
    /\ command sc' = denote t (command sc).
Proof.
  intros HS Hst Hwf. destruct t as [|w|q body|o|k v|k q body];
    cbn [render well_formed denote] in *.
  - exists sc. change " " with (String space EmptyString).
    rewrite scan_one, step_default_space by exact Hst. auto.
  - eexists. rewrite (seg_word cfg S pre w post) by
      first [ rewrite HS; str_eq | assumption ].
    split; [reflexivity | split; reflexivity].
  - apply andb_true_iff in Hwf. destruct Hwf as [Hq Hb].
    replace (String q (body ++ String q " "))
      with (String q (body ++ str q) ++ " ") by str_eq.
    rewrite scan_app.
    rewrite (scan_quoted_argument cfg S pre body (String space post)) by
      first [ rewrite HS; str_eq | assumption
            | now apply (no_leading_quote cfg HO) ].
    cbn [bind]. change " " with (String space EmptyString).
    rewrite scan_one, step_default_space by reflexivity.
    eexists. split; [reflexivity | split; reflexivity].
  - eexists. rewrite (seg_flag cfg S HOe HOs pre o post) by
      first [ rewrite HS; str_eq | assumption ].
    split; [reflexivity | split; reflexivity].
  - apply andb_true_iff in Hwf. destruct Hwf as [Hk Hv].
    replace (optionPrefix cfg ++ k ++ String colon (v ++ " "))
      with ((optionPrefix cfg ++ k ++ str colon) ++ v ++ " ") by str_eq.
    rewrite scan_app.
    rewrite (seg_key cfg S HOe HOs pre k (v ++ String space post)) by
      first [ rewrite HS; str_eq | assumption ].
    cbn [bind]. rewrite <- str_length_app.
    rewrite (seg_value cfg S _ v post) by
      first [ rewrite HS; str_eq | assumption | reflexivity ].
    eexists. split; [reflexivity | split; reflexivity].
  - apply andb_true_iff in Hwf. destruct Hwf as [Hk Hb].
    apply andb_true_iff in Hk. destruct Hk as [Hk Hq].
    replace (optionPrefix cfg ++ k
               ++ String colon (String q (body ++ String q " ")))
      with ((optionPrefix cfg ++ k ++ str colon)
              ++ String q (body ++ str q) ++ " ") by str_eq.
    rewrite scan_app.
    rewrite (seg_key cfg S HOe HOs pre k (String q (body ++ String q (String space post)))) by
      first [ rewrite HS; str_eq | assumption ].
    cbn [bind]. rewrite <- str_length_app, scan_app.
    rewrite (scan_quoted_param cfg S _ body (String space post)) by
      first [ rewrite HS; str_eq | assumption | reflexivity ].
    cbn [bind]. change " " with (String space EmptyString).
    rewrite scan_one, step_default_space by reflexivity.
    eexists. split; [reflexivity | split; reflexivity].
Qed.

Lemma scan_tokens (ts : list Token) :
  forall pre sc,
    S = pre ++ render_all (optionPrefix cfg) ts ->
    state sc = Default ->
    forallb (well_formed (optionPrefix cfg)) ts = true ->
    exists sc',
      scan cfg S (render_all (optionPrefix cfg) ts) (String.length pre) sc
      = Ok sc'
      /\ state sc' = Default
      /\ command sc' = denote_all ts (command sc).
Proof.
  induction ts as [|t ts IH]; intros pre sc HS Hst Hwf.
  - exists sc. auto.
  - cbn [forallb] in Hwf. apply andb_true_iff in Hwf.
    destruct Hwf as [Ht Hts]. cbn [render_all] in *.
    destruct (scan_token t pre (render_all (optionPrefix cfg) ts) sc HS Hst Ht)
      as (sc1 & E1 & Hst1 & Hc1).
    rewrite scan_app, E1. cbn [bind]. rewrite <- str_length_app.
    destruct (IH (pre ++ render (optionPrefix cfg) t) sc1) as
      (sc2 & E2 & Hst2 & Hc2);
      [ rewrite HS; now rewrite str_app_assoc | exact Hst1 | exact Hts | ].
    exists sc2. split; [exact E2 | split; [exact Hst2|]].
    rewrite Hc2, Hc1. reflexivity.
Qed.

End TokenRuns.

(** X10.  Let the settings pass the gate with an option prefix that
    [validSettings] accepts.  An input made of the prefix, a name, a space
    and then well-formed tokens, each followed by a space (the last of
    these spaces may be the sentinel), parses to the command with that
    name to which the tokens have been applied in order: a plain or quoted
    argument is pushed, an option is added, a parameter is set, and an
    extra space does nothing. *)
Theorem parse_rendered_tokens (this : CommandParser) (src : string)
    (ov : option ParserSettings) (nm : string) (ts : list Token) :
  gate_open (used_settings this ov) = true ->
  optionPrefix_rejected (optionPrefix (used_settings this ov)) = false ->
  nm <> EmptyString ->
  contains space nm = false ->
  forallb (well_formed (optionPrefix (used_settings this ov))) ts = true ->
  src ++ " "
  = prefix (used_settings this ov) ++ nm ++ " "
      ++ render_all (optionPrefix (used_settings this ov)) ts ->
  parse this src ov
  = Ok (denote_all ts
          (set_name nm
             (initial_command (used_settings this ov) src
                (validSettings (used_settings this ov))))).
Proof.
  intros Hg HO Hne Hsp Hwf Hsrc.
  rewrite (parse_named this src ov nm
             (render_all (optionPrefix (used_settings this ov)) ts) Hg Hne Hsp)
    by exact Hsrc.
  replace (String.length (prefix (used_settings this ov))
           + String.length nm + 1)
    with (String.length (prefix (used_settings this ov) ++ nm ++ " "))
    by len_eq.
  destruct (scan_tokens (used_settings this ov) (src ++ " ") HO ts
              (prefix (used_settings this ov) ++ nm ++ " ")
              (named_scan (used_settings this ov) src nm))
    as (sc' & E & _ & Hc);
    [ rewrite Hsrc; str_eq | reflexivity | exact Hwf | ].
  rewrite E. cbn [finish]. rewrite Hc. reflexivity.
Qed.

Lemma parse_rendered_tokens_witness :
  gate_open (used_settings readme_parser None) = true
  /\ optionPrefix_rejected (optionPrefix (used_settings readme_parser None))
     = false
  /\ "c" <> EmptyString
  /\ contains space "c" = false
  /\ forallb (well_formed "-") sample_tokens = true
  /\ sample_source ++ " " = "!" ++ "c" ++ " " ++ render_all "-" sample_tokens
  /\ parse readme_parser sample_source None
     = Ok {| parserSettings := readme_settings; name := "c";
             arguments := ["x"; "it's"]; options := ["opt"; ":odd"];
             parameters := [("k", "b c")];
             source := sample_source;
             passedChecks := true |}.
Proof.
  assert (Hne : "c" <> EmptyString) by discriminate.
  split; [reflexivity|]. split; [reflexivity|]. split; [exact Hne|].
  split; [reflexivity|]. split; [reflexivity|]. split; [reflexivity|].
  exact (parse_rendered_tokens readme_parser sample_source None "c"
           sample_tokens eq_refl eq_refl Hne eq_refl eq_refl eq_refl).
Defined.


Lemma denote_all_arguments (ts : list Token) :
  forall cmd,
    arguments (denote_all ts cmd)
    = (arguments cmd ++ flat_map argument_of ts)%list.
Proof.
  induction ts as [|t ts IH]; intro cmd; cbn [denote_all fold_left flat_map].
  - now rewrite app_nil_r.
  - fold (denote_all ts (denote t cmd)). rewrite IH.
    destruct t; cbn [denote argument_of arguments push_argument add_option
                       set_parameter];
      rewrite <- ?app_assoc; reflexivity.
Qed.

Lemma denote_all_lookup (k : string) (ts : list Token) :
  forall cmd,
    map_get k (parameters (denote_all ts cmd))
    = bound_value k ts (map_get k (parameters cmd)).
Proof.
  induction ts as [|t ts IH]; intro cmd; cbn [denote_all fold_left bound_value].
  - reflexivity.
  - fold (denote_all ts (denote t cmd)). rewrite IH. f_equal.
    destruct t as [|w|q body|o|k' v|k' q body];
      cbn [denote binding_of parameters push_argument add_option
             set_parameter]; try reflexivity.
    + destruct (String.eqb_spec k k') as [->|Hne].
      * apply map_get_set_same.
      * now apply map_get_set_other.
    + destruct (String.eqb_spec k k') as [->|Hne].
      * apply map_get_set_same.
      * now apply map_get_set_other.
Qed.

Lemma set_add_has (x y : string) (s : StrSet) :
  set_has x (set_add y s) = String.eqb x y || set_has x s.
Proof.
  unfold set_add. destruct (set_has y s) eqn:E.
  - destruct (String.eqb_spec x y) as [->|Hne]; [now rewrite E | reflexivity].
  - unfold set_has. rewrite existsb_app. simpl.
    rewrite orb_false_r. apply orb_comm.
Qed.

Lemma denote_all_has_option (o : string) (ts : list Token) :
  forall cmd,
    set_has o (options (denote_all ts cmd))
    = set_has o (options cmd) || existsb (is_flag o) ts.
Proof.
  induction ts as [|t ts IH]; intro cmd; cbn [denote_all fold_left existsb].
  - now rewrite orb_false_r.
  - fold (denote_all ts (denote t cmd)). rewrite IH.
    destruct t; cbn [denote is_flag options push_argument add_option
                       set_parameter]; rewrite ?orb_false_l; try reflexivity.
    rewrite set_add_has.
    destruct (String.eqb o o0), (set_has o (options cmd)); reflexivity.
Qed.

(** X11.  For such an input the command holds the arguments of the input
    in their order, repetitions included; an option is in the set exactly
    when it occurs in the input; and the value found for a key is the one
    of the last occurrence of the key, none if the key does not occur. *)
Theorem parse_rendered_tokens_contents (this : CommandParser) (src : string)
    (ov : option ParserSettings) (nm : string) (ts : list Token) :
  gate_open (used_settings this ov) = true ->
  optionPrefix_rejected (optionPrefix (used_settings this ov)) = false ->
  nm <> EmptyString ->
  contains space nm = false ->
  forallb (well_formed (optionPrefix (used_settings this ov))) ts = true ->
  src ++ " "
  = prefix (used_settings this ov) ++ nm ++ " "
      ++ render_all (optionPrefix (used_settings this ov)) ts ->
  exists cmd,
    parse this src ov = Ok cmd
    /\ name cmd = nm
    /\ arguments cmd = flat_map argument_of ts
    /\ (forall o, set_has o (options cmd) = existsb (is_flag o) ts)
    /\ (forall k, map_get k (parameters cmd) = bound_value k ts None).
Proof.
  intros Hg HO Hne Hsp Hwf Hsrc.
  rewrite (parse_named this src ov nm
             (render_all (optionPrefix (used_settings this ov)) ts) Hg Hne Hsp)
    by exact Hsrc.
  replace (String.length (prefix (used_settings this ov))
           + String.length nm + 1)
    with (String.length (prefix (used_settings this ov) ++ nm ++ " "))
    by len_eq.
  destruct (scan_tokens (used_settings this ov) (src ++ " ") HO ts
              (prefix (used_settings this ov) ++ nm ++ " ")
              (named_scan (used_settings this ov) src nm))
    as (sc' & E & _ & Hc);
    [ rewrite Hsrc; str_eq | reflexivity | exact Hwf | ].
  rewrite E. cbn [finish]. exists (command sc'). rewrite Hc.
  split; [reflexivity|]. split; [|split; [|split]].
  - apply (scan_name_kept (used_settings this ov) (src ++ " ")) in E;
      [|reflexivity]. rewrite <- Hc. exact E.
  - now rewrite denote_all_arguments.
  - intro o. now rewrite denote_all_has_option.
  - intro k. now rewrite denote_all_lookup.
Qed.

Lemma parse_rendered_tokens_contents_witness :
  gate_open (used_settings readme_parser None) = true
  /\ optionPrefix_rejected (optionPrefix (used_settings readme_parser None))
     = false
  /\ "c" <> EmptyString
  /\ contains space "c" = false
  /\ forallb (well_formed "-") sample_tokens = true
  /\ sample_source ++ " " = "!" ++ "c" ++ " " ++ render_all "-" sample_tokens
  /\ exists cmd,
       parse readme_parser sample_source None = Ok cmd
       /\ name cmd = "c"
       /\ arguments cmd = flat_map argument_of sample_tokens
       /\ (forall o,
             set_has o (options cmd) = existsb (is_flag o) sample_tokens)
       /\ (forall k,
             map_get k (parameters cmd) = bound_value k sample_tokens None).
Proof.
  assert (Hne : "c" <> EmptyString) by discriminate.
  split; [reflexivity|]. split; [reflexivity|]. split; [exact Hne|].
  split; [reflexivity|]. split; [reflexivity|]. split; [reflexivity|].
  exact (parse_rendered_tokens_contents readme_parser sample_source None "c"
           sample_tokens eq_refl eq_refl Hne eq_refl eq_refl eq_refl).
Defined.

(** *** Quoting any value *)

Lemma escape_escaped (q : ascii) (v : string) :
  Ascii.eqb q backslash = false ->
  escaped q false (escape q v) = true.
Proof.
  intro Hq. assert (Hq' : Ascii.eqb backslash q = false)
    by (now rewrite Ascii.eqb_sym).
  induction v as [|c v IH]; [reflexivity|]. cbn [escape].
  destruct (Ascii.eqb c backslash || Ascii.eqb c q) eqn:Hc.
  - cbn [escaped]. rewrite Hq'.
    change (Ascii.eqb backslash backslash) with true. cbv iota.
    now rewrite Hc, IH.
  - apply orb_false_iff in Hc. destruct Hc as [Hb Hcq].
    cbn [escaped]. now rewrite Hcq, Hb.
Qed.

Lemma decode_escape (q : ascii) (v : string) :
  decode false (escape q v) = v.
Proof.
  induction v as [|c v IH]; [reflexivity|]. cbn [escape].
  destruct (Ascii.eqb c backslash || Ascii.eqb c q) eqn:Hc.
  - cbn [decode]. change (Ascii.eqb backslash backslash) with true.
    cbv iota. now rewrite IH.
  - apply orb_false_iff in Hc. destruct Hc as [Hb _].
    cbn [decode]. now rewrite Hb, IH.
Qed.

Lemma unescape_escape (q : ascii) (v : string) :
  is_quote q = true -> unescape q (escape q v) = v.
Proof.
  intro Hq. destruct (space_is_no_quote q Hq) as (_ & _ & Hb).
  rewrite unescape_decode by (auto using escape_escaped).
  apply decode_escape.
Qed.

(** X12.  Every string can be passed as a value.  Let the call pass the
    gate, the name be not empty and without a space, and [q] be a quote of
    either kind.  With its backslashes and its [q]s escaped by a backslash
    and put between [q]s, a string [v], the empty one included, is recorded
    unchanged: after the name as the only argument, provided [q] is not the
    first character of the option prefix; and after the option prefix (not
    empty, no space first), a key (not empty, no space, no colon after its
    first character) and a colon, as the value of that key. *)
Theorem parse_escaped_value (this : CommandParser)
    (ov : option ParserSettings) (nm k v : string) (q : ascii) :
  gate_open (used_settings this ov) = true ->
  nm <> EmptyString ->
  contains space nm = false ->
  is_quote q = true ->
  let asArgument :=
    prefix (used_settings this ov) ++ nm ++ " "
      ++ str q ++ escape q v ++ str q in
  let asParameter :=
    prefix (used_settings this ov) ++ nm ++ " "
      ++ optionPrefix (used_settings this ov) ++ k ++ ":"
      ++ str q ++ escape q v ++ str q in
  (same_char q (char_at (optionPrefix (used_settings this ov)) 0) = false ->
   parse this asArgument ov
   = Ok {| parserSettings := used_settings this ov; name := nm;
           arguments := [v]; options := []; parameters := [];
           source := asArgument;
           passedChecks := validSettings (used_settings this ov) |})
  /\ (optionPrefix (used_settings this ov) <> EmptyString ->
      starts_with space (optionPrefix (used_settings this ov)) = false ->
      key_like k = true ->
      parse this asParameter ov
      = Ok {| parserSettings := used_settings this ov; name := nm;
              arguments := []; options := []; parameters := [(k, v)];
              source := asParameter;
              passedChecks := validSettings (used_settings this ov) |}).
Proof.
  intros Hg Hne Hsp Hq asArgument asParameter.
  destruct (space_is_no_quote q Hq) as (_ & _ & Hb).
  pose proof (escape_escaped q v Hb) as He.
  pose proof (unescape_escape q v Hq) as Hu.
  split.
  - intro Ho.
    pose proof (parse_quoted_argument this ov nm (escape q v) q
                  Hg Hne Hsp Hq Ho He) as P.
    cbv zeta in P. rewrite Hu in P. exact P.
  - intros HOe HOs Hk.
    pose proof (parse_quoted_parameter this ov nm k (escape q v) q
                  Hg Hne Hsp HOe HOs Hk Hq He) as P.
    cbv zeta in P. rewrite Hu in P. exact P.
Qed.

(** A forced call with a tick as the option prefix: a value with both
    quotes and a backslash, between double quotes. *)
Lemma parse_escaped_value_witness :
  gate_open (used_settings readme_parser (Some tick_settings)) = true
  /\ "say" <> EmptyString
  /\ contains space "say" = false
  /\ is_quote dquote = true
  /\ same_char dquote (char_at "'" 0) = false
  /\ "'" <> EmptyString
  /\ starts_with space "'" = false
  /\ key_like "to" = true
  /\ escape dquote ("a" ++ str dquote ++ " \ 'b") = "a\" ++ str dquote ++ " \\ 'b"
  /\ parse readme_parser
       ("!say " ++ str dquote ++ "a\" ++ str dquote ++ " \\ 'b" ++ str dquote)
       (Some tick_settings)
     = Ok {| parserSettings := tick_settings; name := "say";
             arguments := ["a" ++ str dquote ++ " \ 'b"];
             options := []; parameters := [];
             source := "!say " ++ str dquote ++ "a\" ++ str dquote
                         ++ " \\ 'b" ++ str dquote;
             passedChecks := false |}
  /\ parse readme_parser
       ("!say 'to:" ++ str dquote ++ "a\" ++ str dquote ++ " \\ 'b"
          ++ str dquote)
       (Some tick_settings)
     = Ok {| parserSettings := tick_settings; name := "say";
             arguments := []; options := [];
             parameters := [("to", "a" ++ str dquote ++ " \ 'b")];
             source := "!say 'to:" ++ str dquote ++ "a\" ++ str dquote
                         ++ " \\ 'b" ++ str dquote;
             passedChecks := false |}.
Proof.
  assert (Hne : "say" <> EmptyString) by discriminate.
  assert (HOe : "'" <> EmptyString) by discriminate.
  pose proof (parse_escaped_value readme_parser (Some tick_settings) "say"
                "to" ("a" ++ str dquote ++ " \ 'b") dquote eq_refl Hne
                eq_refl eq_refl) as H.
  split; [reflexivity|]. split; [exact Hne|]. split; [reflexivity|].
  split; [reflexivity|]. split; [reflexivity|]. split; [exact HOe|].
  split; [reflexivity|]. split; [reflexivity|]. split; [reflexivity|].
  split; [exact (proj1 H eq_refl) | exact (proj2 H HOe eq_refl eq_refl)].
Defined.

(** *** Errors inside tokens *)

(** X13.  Let the option prefix be not empty and not start with a space.
    Where a token may start, the option prefix followed at once by a space,
    or by the end of the input, raises [expected option, options can't be
    empty] at the index of that space. *)
Theorem empty_option_error (this : CommandParser) (src : string)
    (ov : option ParserSettings) (pre post : string) (sc : Scan) :
  gate_open (used_settings this ov) = true ->
  optionPrefix (used_settings this ov) <> EmptyString ->
  starts_with space (optionPrefix (used_settings this ov)) = false ->
  scan_upto (used_settings this ov) src pre = Ok sc ->
  state sc = Default ->
  src ++ " "
  = pre ++ optionPrefix (used_settings this ov) ++ String space post ->
  parse this src ov
  = Throw (ParseError
             (String.length (pre ++ optionPrefix (used_settings this ov)))
             "expected option, options can't be empty").
Proof.
  intros Hg HOe HOs Hs Hst Hsrc.
  rewrite parse_open by exact Hg.
  rewrite Hsrc, scan_upto_app, Hs. cbn [bind].
  rewrite scan_app, (scan_optionPrefix_whole _ _ HOe HOs pre sc Hst).
  cbn [bind scan]. rewrite <- str_length_app.
  unfold step. scan_simpl.
  rewrite char_at_beyond by (rewrite str_length_app; lia).
  cbn [same_char].
  destruct (Z.ltb_spec
              (Z.of_nat (String.length
                           (pre ++ optionPrefix (used_settings this ov)))
               - Z.of_nat (String.length pre))
              (Z.of_nat (String.length (optionPrefix (used_settings this ov)))));
    [rewrite str_length_app in *; lia|].
  reflexivity.
Qed.

(** With the option prefix [- -], which only a forced call lets through,
    the lone [- -] of [!a - - b] raises at index 6. *)
Lemma empty_option_error_witness :
  gate_open (used_settings readme_parser (Some spaced_settings)) = true
  /\ optionPrefix (used_settings readme_parser (Some spaced_settings))
     <> EmptyString
  /\ starts_with space
       (optionPrefix (used_settings readme_parser (Some spaced_settings)))
     = false
  /\ scan_upto spaced_settings "!a - - b" "!a "
     = Ok (named_scan spaced_settings "!a - - b" "a")
  /\ state (named_scan spaced_settings "!a - - b" "a") = Default
  /\ "!a - - b" ++ " " = "!a " ++ "- -" ++ String space "b "
  /\ parse readme_parser "!a - - b" (Some spaced_settings)
     = Throw (ParseError 6 "expected option, options can't be empty").
Proof.
  assert (Hne : "- -" <> EmptyString) by discriminate.
  split; [reflexivity|]. split; [exact Hne|]. split; [reflexivity|].
  split; [reflexivity|]. split; [reflexivity|]. split; [reflexivity|].
  exact (empty_option_error readme_parser "!a - - b" (Some spaced_settings)
           "!a " "b " (named_scan spaced_settings "!a - - b" "a")
           eq_refl Hne eq_refl eq_refl eq_refl eq_refl).
Defined.

(** X14.  Let the option prefix be not empty and not start with a space,
    and let the key be not empty, without a space, and without a colon
    after its first character.  Where a token may start, the option prefix,
    the key and a colon followed at once by a space, or by the end of the
    input, raise [parameter value can't be empty] at the index of that
    space. *)
Theorem empty_value_error (this : CommandParser) (src : string)
    (ov : option ParserSettings) (pre k post : string) (sc : Scan) :
  gate_open (used_settings this ov) = true ->
  optionPrefix (used_settings this ov) <> EmptyString ->
  starts_with space (optionPrefix (used_settings this ov)) = false ->
  scan_upto (used_settings this ov) src pre = Ok sc ->
  state sc = Default ->
  key_like k = true ->
  src ++ " "
  = pre ++ optionPrefix (used_settings this ov) ++ k
      ++ String colon (String space post) ->
  parse this src ov
  = Throw (ParseError
             (String.length
                (pre ++ optionPrefix (used_settings this ov) ++ k) + 1)
             ("parameter value can't be empty (use "
                ++ str dquote ++ str dquote ++ " instead)")).
Proof.
  intros Hg HOe HOs Hs Hst Hk Hsrc.
  rewrite parse_open by exact Hg.
  replace (scan_upto (used_settings this ov) src (src ++ " "))
    with (scan_upto (used_settings this ov) src
            (pre ++ (optionPrefix (used_settings this ov) ++ k ++ str colon)
               ++ String space post))
    by (rewrite Hsrc; f_equal; str_eq).
  rewrite scan_upto_app, Hs. cbn [bind]. rewrite scan_app.
  rewrite (seg_key _ _ HOe HOs pre k (String space post)) by
    first [ exact Hsrc | assumption ].
  cbn [bind scan]. unfold step. scan_simpl.
  change (Ascii.eqb space space) with true. cbv beta iota.
  cbn [finish]. do 2 f_equal. len_eq.
Qed.

(** With the option prefix [- -], the parameter [- -k:] that ends the input
    [!a x - -k:] raises at the index of the end. *)
Lemma empty_value_error_witness :
  gate_open (used_settings readme_parser (Some spaced_settings)) = true
  /\ optionPrefix (used_settings readme_parser (Some spaced_settings))
     <> EmptyString
  /\ starts_with space
       (optionPrefix (used_settings readme_parser (Some spaced_settings)))
     = false
  /\ scan_upto spaced_settings "!a - -k:" "!a "
     = Ok (named_scan spaced_settings "!a - -k:" "a")
  /\ state (named_scan spaced_settings "!a - -k:" "a") = Default
  /\ key_like "k" = true
  /\ "!a - -k:" ++ " "
     = "!a " ++ "- -" ++ "k" ++ String colon (String space EmptyString)
  /\ parse readme_parser "!a - -k:" (Some spaced_settings)
     = Throw (ParseError 8
                ("parameter value can't be empty (use "
                   ++ str dquote ++ str dquote ++ " instead)")).
Proof.
  assert (Hne : "- -" <> EmptyString) by discriminate.
  split; [reflexivity|]. split; [exact Hne|]. split; [reflexivity|].
  split; [reflexivity|]. split; [reflexivity|]. split; [reflexivity|].
  split; [reflexivity|].
  exact (empty_value_error readme_parser "!a - -k:" (Some spaced_settings)
           "!a " "k" EmptyString (named_scan spaced_settings "!a - -k:" "a")
           eq_refl Hne eq_refl eq_refl eq_refl eq_refl eq_refl).
Defined.

(** X15.  Inside a quoted token, after a body of plain characters and
    complete escapes, a backslash followed by a character that is neither a
    backslash nor the quote in use raises [couldn't escape with character]
    naming that character, at its index. *)
Theorem invalid_escape_error (this : CommandParser) (src : string)
    (ov : option ParserSettings) (pre body post : string) (c : ascii)
    (sc : Scan) :
  gate_open (used_settings this ov) = true ->
  scan_upto (used_settings this ov) src pre = Ok sc ->
  state sc = LongArgument \/ state sc = LongParam ->
  escaped (longType sc) false body = true ->
  c <> backslash ->
  c <> longType sc ->
  src ++ " " = pre ++ body ++ String backslash (String c post) ->
  parse this src ov
  = Throw (ParseError (String.length (pre ++ body) + 1)
             ("couldn't escape with character '" ++ str c ++ "'")).
Proof.
  intros Hg Hs Hst Hb Hc1 Hc2 Hsrc.
  pose proof (space_is_no_quote _ (scan_upto_longType _ _ _ _ Hs))
    as (_ & _ & Hq).
  rewrite Ascii.eqb_sym in Hq.
  apply Ascii.eqb_neq in Hc1, Hc2.
  rewrite parse_open by exact Hg.
  replace (scan_upto (used_settings this ov) src (src ++ " "))
    with (scan_upto (used_settings this ov) src
            ((pre ++ body) ++ String backslash (String c post)))
    by (rewrite Hsrc; f_equal; str_eq).
  rewrite scan_upto_app.
  rewrite (scan_upto_long_body _ _ _ _ sc) by assumption.
  cbn [bind scan]. unfold step.
  destruct Hst as [Hst|Hst]; rewrite Hst; cbv beta iota zeta;
    rewrite Hq; change (Ascii.eqb backslash backslash) with true;
    cbv beta iota; unfold step; scan_simpl; rewrite Hc1, Hc2;
    cbn [orb finish]; do 2 f_equal; lia.
Qed.

Lemma invalid_escape_error_witness :
  gate_open (used_settings readme_parser None) = true
  /\ scan_upto readme_settings "!a 'b\x c'" "!a '" = Ok bad_escape_open
  /\ (state bad_escape_open = LongArgument
      \/ state bad_escape_open = LongParam)
  /\ escaped (longType bad_escape_open) false "b" = true
  /\ "x"%char <> backslash
  /\ "x"%char <> longType bad_escape_open
  /\ "!a 'b\x c'" ++ " "
     = "!a '" ++ "b" ++ String backslash (String "x" " c' ")
  /\ parse readme_parser "!a 'b\x c'" None
     = Throw (ParseError 6 "couldn't escape with character 'x'").
Proof.
  assert (H1 : "x"%char <> backslash) by discriminate.
  assert (H2 : "x"%char <> longType bad_escape_open) by discriminate.
  split; [reflexivity|]. split; [reflexivity|].
  split; [left; reflexivity|]. split; [reflexivity|].
  split; [exact H1|]. split; [exact H2|]. split; [reflexivity|].
  exact (invalid_escape_error readme_parser "!a 'b\x c'" None "!a '" "b"
           " c' " "x"%char bad_escape_open eq_refl eq_refl
           (or_introl eq_refl) eq_refl H1 H2 eq_refl).
Defined.

(** *** Falling back from the option prefix *)

(** X19.  Let the input, after a part [pre] that leaves the loop in
    [Default], go on with a proper beginning [o1] of the option prefix (not
    empty, no space first), then with a character [c] that is neither the
    next character of the option prefix nor a space, then with characters
    [w] other than spaces, and then with a space, which may be the
    sentinel.  At [c] the loop is in [Argument] with the token start still
    at the first character of [o1], and that space pushes the whole token,
    [o1] first, as one argument and records nothing else. *)
Theorem optionPrefix_fallback_argument (this : CommandParser) (src : string)
    (ov : option ParserSettings) (pre o1 o2 w post : string) (e c : ascii)
    (sc : Scan) :
  gate_open (used_settings this ov) = true ->
  src ++ " " = pre ++ o1 ++ String c (w ++ String space post) ->
  scan_upto (used_settings this ov) src pre = Ok sc ->
  state sc = Default ->
  optionPrefix (used_settings this ov) = o1 ++ String e o2 ->
  o1 <> EmptyString ->
  starts_with space o1 = false ->
  c <> e ->
  c <> space ->
  contains space w = false ->
  scan_upto (used_settings this ov) src (pre ++ o1 ++ str c)
  = Ok (goto Argument (String.length pre) sc)
  /\ (exists sc',
        scan_upto (used_settings this ov) src
          (pre ++ o1 ++ String c (w ++ str space)) = Ok sc'
        /\ state sc' = Default
        /\ arguments (command sc')
           = (arguments (command sc) ++ [(o1 ++ String c w)%string])%list
        /\ name (command sc') = name (command sc)
        /\ options (command sc') = options (command sc)
        /\ parameters (command sc') = parameters (command sc))
  /\ (post = EmptyString ->
      exists cmd,
        parse this src ov = Ok cmd
        /\ arguments cmd = (arguments (command sc) ++ [(o1 ++ String c w)%string])%list
        /\ name cmd = name (command sc)
        /\ options cmd = options (command sc)
        /\ parameters cmd = parameters (command sc)).
Proof.
  intros Hg Hsrc Hs Hst Ho Hne Hsp Hc _ Hw.
  destruct (scan_optionPrefix_fallback (used_settings this ov) (src ++ " ")
              pre o1 o2 w post e c sc Hsrc Hst Ho Hne Hsp Hc Hw) as [F1 F2].
  assert (G : scan_upto (used_settings this ov) src
                (pre ++ o1 ++ String c (w ++ str space))
              = Ok (goto Default
                      (String.length pre + String.length o1 + 1
                       + String.length w)
                      (with_command (push_argument (o1 ++ String c w)) sc))).
  { rewrite scan_upto_app, Hs. cbn [bind]. exact F2. }
  split; [|split].
  - rewrite scan_upto_app, Hs. cbn [bind]. exact F1.
  - eexists. split; [exact G | repeat split].
  - intros ->. rewrite parse_open by exact Hg.
    rewrite Hsrc. fold (str space). rewrite G.
    eexists. split; [reflexivity | repeat split].
Qed.

(** With option prefix [--], the token [-x] of [!cmd a -x] is the second
    argument. *)
Lemma optionPrefix_fallback_argument_witness :
  gate_open (used_settings dashdash_parser None) = true
  /\ "!cmd a -x" ++ " "
     = "!cmd a " ++ "-" ++ String "x" (EmptyString ++ String space EmptyString)
  /\ scan_upto dashdash_settings "!cmd a -x" "!cmd a " = Ok cmd_a_closed
  /\ state cmd_a_closed = Default
  /\ optionPrefix dashdash_settings = "-" ++ String "-" EmptyString
  /\ "-" <> EmptyString
  /\ starts_with space "-" = false
  /\ "x"%char <> "-"%char
  /\ "x"%char <> space
  /\ contains space EmptyString = false
  /\ exists cmd,
       parse dashdash_parser "!cmd a -x" None = Ok cmd
       /\ arguments cmd = ["a"; "-x"]
       /\ name cmd = "cmd"
       /\ options cmd = []
       /\ parameters cmd = [].
Proof.
  assert (H1 : "-" <> EmptyString) by discriminate.
  assert (H2 : "x"%char <> "-"%char) by discriminate.
  assert (H3 : "x"%char <> space) by discriminate.
  split; [reflexivity|]. split; [reflexivity|]. split; [reflexivity|].
  split; [reflexivity|]. split; [reflexivity|]. split; [exact H1|].
  split; [reflexivity|]. split; [exact H2|]. split; [exact H3|].
  split; [reflexivity|].
  exact (proj2 (proj2 (optionPrefix_fallback_argument dashdash_parser
                         "!cmd a -x" None "!cmd a " "-" EmptyString
                         EmptyString EmptyString "-"%char "x"%char
                         cmd_a_closed eq_refl eq_refl eq_refl eq_refl eq_refl
                         H1 eq_refl H2 H3 eq_refl)) eq_refl).
Defined.

End TokenProperties.
